(** * PDFDocTranslator: segmentation, chunking, retry and translation,
      verified against [PdfEditor.py], [utils.py], [GoogleAdaptor.py] and
      [main.py]

    The Python functions are embedded as Rocq functions.  A Python string is
    the list of its Unicode code points, a Python integer is a [Z], a [while]
    loop runs on explicit fuel and yields [OutOfFuel] when the fuel is
    exhausted, so that "the function returns v" is always a statement
    [... = Done v]. *)

From Stdlib Require Import Ascii String.
From Stdlib Require Import List ZArith Lia Bool Arith PeanoNat.
From Stdlib Require Import Sorting.Permutation Sorting.Sorted.
From Stdlib Require Import QArith.
Import ListNotations.

Local Open Scope Z_scope.

(** ** Runs of loops with fuel *)

Inductive run (A : Type) : Type :=
| Done (a : A)
| OutOfFuel.

Arguments Done {A} a.
Arguments OutOfFuel {A}.

Definition run_bind {A B : Type} (m : run A) (k : A -> run B) : run B :=
  match m with
  | Done a => k a
  | OutOfFuel => OutOfFuel
  end.

Notation "x <- m ;; k" := (run_bind m (fun x => k))
  (at level 61, m at next level, right associativity).

(** ** Python sequences *)

Section Sequences.

Context {A : Type}.

(** [len(s)] as a Python integer. *)
Definition len (s : list A) : Z := Z.of_nat (length s).

(** The bound of a slice [s[a:b]] after Python's normalisation: a negative
    bound counts from the end, and every bound is clipped to [0, len(s)]. *)
Definition slice_bound (s : list A) (i : Z) : Z :=
  if i <? 0 then Z.max (i + len s) 0 else Z.min i (len s).

(** [s[a:b]] *)
Definition slice (s : list A) (a b : Z) : list A :=
  let a' := slice_bound s a in
  let b' := slice_bound s b in
  firstn (Z.to_nat (b' - a')) (skipn (Z.to_nat a') s).

(** [s[a:]] *)
Definition slice_from (s : list A) (a : Z) : list A :=
  skipn (Z.to_nat (slice_bound s a)) s.

(** [range(a, b)] *)
Definition py_range (a b : Z) : list Z :=
  map (fun k => a + Z.of_nat k) (seq 0 (Z.to_nat (b - a))).

(** Truth value of a sequence: [if s:] holds when [s] is not empty. *)
Definition truthy (s : list A) : bool :=
  match s with
  | [] => false
  | _ :: _ => true
  end.

End Sequences.

(** ** Python strings *)

(** A character is its Unicode code point. *)
Definition char : Type := N.

Definition str : Type := list char.

Definition char_eq_dec : forall a b : char, {a = b} + {a <> b} := N.eq_dec.

Definition str_eq_dec : forall a b : str, {a = b} + {a <> b} :=
  list_eq_dec char_eq_dec.

(** A string literal of the source. *)
Definition lit (s : String.string) : str :=
  map Ascii.N_of_ascii (String.list_ascii_of_string s).

Arguments lit s%_string.

(** [c.isspace()]: the characters of general category Zs or of bidirectional
    class WS, B or S. *)
Definition isspace (c : char) : bool :=
  ((9 <=? c) && (c <=? 13) || (28 <=? c) && (c <=? 32) ||
   (c =? 133) || (c =? 160) || (c =? 5760) ||
   (8192 <=? c) && (c <=? 8202) || (c =? 8232) || (c =? 8233) ||
   (c =? 8239) || (c =? 8287) || (c =? 12288))%N.

(** [s.lstrip()], [s.rstrip()] and [s.strip()]. *)
Fixpoint lstrip (s : str) : str :=
  match s with
  | [] => []
  | c :: r => if isspace c then lstrip r else s
  end.

Definition rstrip (s : str) : str := rev (lstrip (rev s)).

Definition strip (s : str) : str := rstrip (lstrip s).

(** [s.split(sep)] for a separator of one character: the pieces between the
    separators, at least one piece. *)
Fixpoint split_on (sep : char) (s : str) : list str :=
  match s with
  | [] => [[]]
  | c :: r =>
      if char_eq_dec c sep then [] :: split_on sep r
      else
        match split_on sep r with
        | [] => [[c]]
        | piece :: pieces => (c :: piece) :: pieces
        end
  end.

(** [sep.join(pieces)] *)
Fixpoint join (sep : str) (pieces : list str) : str :=
  match pieces with
  | [] => []
  | piece :: pieces' =>
      match pieces' with
      | [] => piece
      | _ :: _ => piece ++ sep ++ join sep pieces'
      end
  end.

(** [s.startswith(prefix)] *)
Fixpoint startswith (s prefix : str) : bool :=
  match prefix, s with
  | [], _ => true
  | _ :: _, [] => false
  | p :: prefix', c :: s' =>
      if char_eq_dec c p then startswith s' prefix' else false
  end.

(** ** [PdfEditor.py] *)

Module PdfEditor.

(** *** [split_text] (lines 276-302) *)

(** The [while start < len(text)] loop, lines 297-300. *)
Fixpoint split_text_loop (fuel : nat) (text : str) (max_chunk_size : Z)
    (start : Z) (chunks : list str) : run (list str) :=
  if start <? len text then
    match fuel with
    | O => OutOfFuel
    | S fuel' =>
        let end_ := Z.min (start + max_chunk_size) (len text) in
        split_text_loop fuel' text max_chunk_size end_
          (chunks ++ [slice text start end_])
    end
  else Done chunks.

Definition split_text (text : str) (max_chunk_size : Z) : run (list str) :=
  if negb (truthy text) then Done []
  else if max_chunk_size <=? 0 then Done []
  else split_text_loop (length text) text max_chunk_size 0 [].

(** *** [_find_ignoring_whitespace] (lines 150-186)

    The helper is local to [split_text_by_bookmarks]; its two call sites pass
    the offsets [0] and [start_pos + len(title)] with [start_pos] a position
    found before, so an offset is a natural number.  The result keeps the
    source's [-1] for "not found". *)

(** The local variables of the scan. *)
Record find_state : Type := FindState {
  h_idx : nat;
  n_idx : nat;
  potential_start : Z;
  start_offset : nat
}.

(** [s[i].isspace()], for [i < len(s)]. *)
Definition isspace_at (s : str) (i : nat) : bool :=
  match nth_error s i with
  | Some c => isspace c
  | None => false
  end.

(** [a[i] == b[j]], for [i < len(a)] and [j < len(b)]. *)
Definition same_char_at (a : str) (i : nat) (b : str) (j : nat) : bool :=
  match nth_error a i, nth_error b j with
  | Some x, Some y => if char_eq_dec x y then true else false
  | _, _ => false
  end.

(** Lines 163-165: skip the whitespace of the haystack. *)
Fixpoint skip_haystack_whitespace (fuel : nat) (haystack : str)
    (st : find_state) : run find_state :=
  if (h_idx st <? length haystack)%nat && isspace_at haystack (h_idx st) then
    match fuel with
    | O => OutOfFuel
    | S fuel' =>
        skip_haystack_whitespace fuel' haystack
          {| h_idx := S (h_idx st);
             n_idx := n_idx st;
             potential_start := potential_start st;
             start_offset := if potential_start st =? -1
                             then S (start_offset st) else start_offset st |}
    end
  else Done st.

(** Lines 169 and 184: skip the whitespace of the needle. *)
Fixpoint skip_needle_whitespace (fuel : nat) (needle : str)
    (st : find_state) : run find_state :=
  if (n_idx st <? length needle)%nat && isspace_at needle (n_idx st) then
    match fuel with
    | O => OutOfFuel
    | S fuel' =>
        skip_needle_whitespace fuel' needle
          {| h_idx := h_idx st;
             n_idx := S (n_idx st);
             potential_start := potential_start st;
             start_offset := start_offset st |}
    end
  else Done st.

(** Lines 173-181: compare the two characters and advance. *)
Definition compare_and_advance (haystack needle : str) (st : find_state)
    : find_state :=
  let h_len := length haystack in
  let n_len := length needle in
  if (h_idx st <? h_len)%nat && (n_idx st <? n_len)%nat &&
     same_char_at haystack (h_idx st) needle (n_idx st)
  then
    {| h_idx := S (h_idx st);
       n_idx := S (n_idx st);
       potential_start := if (n_idx st =? 0)%nat then Z.of_nat (h_idx st)
                          else potential_start st;
       start_offset := start_offset st |}
  else
    if negb (potential_start st =? -1) then
      {| h_idx := S (Z.to_nat (potential_start st));
         n_idx := 0;
         potential_start := -1;
         start_offset := start_offset st |}
    else
      {| h_idx := S (h_idx st);
         n_idx := 0;
         potential_start := potential_start st;
         start_offset := start_offset st |}.

(** How the [while h_idx < h_len] loop of lines 161-181 is left. *)
Inductive scan_exit : Type :=
| LoopEnded (st : find_state)
| Returned (result : Z).

Fixpoint find_loop (fuel : nat) (haystack needle : str) (st : find_state)
    : run scan_exit :=
  if (h_idx st <? length haystack)%nat then
    match fuel with
    | O => OutOfFuel
    | S fuel' =>
        st1 <- skip_haystack_whitespace (length haystack) haystack st ;;
        if (h_idx st1 =? length haystack)%nat then Done (LoopEnded st1)
        else
          st2 <- skip_needle_whitespace (length needle) needle st1 ;;
          if (n_idx st2 =? length needle)%nat
          then Done (Returned (potential_start st2))
          else find_loop fuel' haystack needle
                 (compare_and_advance haystack needle st2)
    end
  else Done (LoopEnded st).

(** Fuel for the scan: after a mismatch the scan restarts one position after
    the start of the failed attempt, so an attempt starts at most once at
    each position and has at most [h_len] steps. *)
Definition find_fuel (haystack : str) : nat :=
  (length haystack + 1) * (length haystack + 2).

Definition _find_ignoring_whitespace (haystack needle : str)
    (start_offset : nat) : run Z :=
  if negb (truthy needle) then Done (Z.of_nat start_offset)
  else
    r <- find_loop (find_fuel haystack) haystack needle
           {| h_idx := start_offset; n_idx := 0;
              potential_start := -1; start_offset := start_offset |} ;;
    match r with
    | Returned z => Done z
    | LoopEnded st =>
        st' <- skip_needle_whitespace (length needle) needle st ;;
        if (n_idx st' =? length needle)%nat then Done (potential_start st')
        else Done (-1)
    end.

(** *** The document *)

(** What [reader.get_destination_page_number(item)] does for a bookmark. *)
Inductive destination_page : Type :=
| PageNumber (page_index : Z)
| NoPageNumber
| PageLookupRaises.

(** [reader.outline]: a list whose elements are bookmarks or lists of
    sub-bookmarks. *)
#[warnings="-register-all"]
Inductive outline_item : Type :=
| Destination (title : str) (page : destination_page)
| SubOutline (items : list outline_item).

(** The [PdfReader]: the outline and, for every page, the text that
    [extract_text()] returns (empty when there is none). *)
Record PdfReader : Type := {
  outline : list outline_item;
  pages : list str
}.

(** What [pdf_path] leads to: lines 86-95 and 266-268. *)
Inductive pdf_path : Type :=
| NoSuchFile
| NotPdfSuffix
| PdfReadError
| Readable (reader : PdfReader).

(** [(title, page_index, level)] *)
Definition bookmark_info : Type := (str * Z * nat)%type.

Definition bookmark_title (b : bookmark_info) : str := fst (fst b).
Definition bookmark_page (b : bookmark_info) : Z := snd (fst b).
Definition bookmark_level (b : bookmark_info) : nat := snd b.

(** The value stored for a chapter: [{"text": ..., "level": ...}]. *)
Record chapter : Type := Chapter {
  text : str;
  level : nat
}.

(** The [OrderedDict] from titles to chapters, in insertion order. *)
Definition OrderedDict : Type := list (str * chapter).

(** [d[key] = value]: a present key keeps its place. *)
Fixpoint setitem (d : OrderedDict) (key : str) (value : chapter)
    : OrderedDict :=
  match d with
  | [] => [(key, value)]
  | (k, v) :: d' =>
      if str_eq_dec k key then (k, value) :: d'
      else (k, v) :: setitem d' key value
  end.

(** [reader.pages[page_num].extract_text()] *)
Definition extract_text (reader : PdfReader) (page_num : Z) : str :=
  nth (Z.to_nat page_num) (pages reader) [].

(** *** [_get_bookmarks] (lines 116-137); [all_bookmarks_info] is threaded. *)
Fixpoint _get_bookmarks_item (item : outline_item) (level : nat)
    (all_bookmarks_info : list bookmark_info) : list bookmark_info :=
  match item with
  | SubOutline items =>
      (fix each (items : list outline_item) (acc : list bookmark_info) :=
         match items with
         | [] => acc
         | item' :: items' =>
             each items' (_get_bookmarks_item item' (S level) acc)
         end) items all_bookmarks_info
  | Destination title (PageNumber page_index) =>
      all_bookmarks_info ++ [(title, page_index, level)]
  | Destination _ NoPageNumber => all_bookmarks_info
  | Destination _ PageLookupRaises => all_bookmarks_info
  end.

Definition _get_bookmarks (outline_items : list outline_item) (level : nat)
    (all_bookmarks_info : list bookmark_info) : list bookmark_info :=
  fold_left (fun acc item => _get_bookmarks_item item level acc)
    outline_items all_bookmarks_info.

(** *** [sorted(all_bookmarks_info, key=lambda item: item[1])] (line 147)

    [sorted] is stable; the stable sort of a list is unique, here it is
    computed by insertion. *)
Fixpoint insert_by_page (b : bookmark_info) (l : list bookmark_info)
    : list bookmark_info :=
  match l with
  | [] => [b]
  | x :: l' =>
      if bookmark_page b <=? bookmark_page x then b :: l
      else x :: insert_by_page b l'
  end.

Definition sorted_by_page (l : list bookmark_info) : list bookmark_info :=
  fold_right insert_by_page [] l.

(** *** The loop over the sorted bookmarks (lines 190-263) *)

(** Lines 225-230, and 102-106 of the fallback: the text of the pages
    [page_nums] is appended to [chapter_text], a page without text adds
    nothing. *)
Definition append_page_texts (reader : PdfReader) (page_nums : list Z)
    (chapter_text : str) : str :=
  fold_left
    (fun chapter_text page_num =>
       let page_text := extract_text reader page_num in
       if truthy page_text then chapter_text ++ page_text else chapter_text)
    page_nums chapter_text.

(** Lines 199-232: the text of the pages of a chapter. *)
Definition extract_chapter_text (reader : PdfReader) (start_page end_page : Z)
    : str :=
  let chapter_text := [] in
  if negb ((0 <=? start_page) && (start_page <? len (pages reader))) then
    chapter_text
  else
    let page_extraction_upper_bound :=
      Z.min (end_page + 1) (len (pages reader)) in
    if start_page <? page_extraction_upper_bound then
      append_page_texts reader
        (py_range start_page page_extraction_upper_bound) chapter_text
    else chapter_text.

(** Lines 239-262: the text between the two titles.  Nothing in the [try]
    block of the embedding raises, so the [except] branch has no case.  A
    found position is a position of the text, so [start_index] is not
    negative when it is passed as offset. *)
Definition refine_text (chapter_text title next_title : str) : run str :=
  if truthy chapter_text then
    start_pos <- _find_ignoring_whitespace chapter_text title 0 ;;
    if negb (start_pos =? -1) then
      let start_index := start_pos + len title in
      if truthy next_title then
        end_pos <- _find_ignoring_whitespace chapter_text next_title
                     (Z.to_nat start_index) ;;
        if negb (end_pos =? -1)
        then Done (slice chapter_text start_index end_pos)
        else Done (slice_from chapter_text start_index)
      else Done (slice_from chapter_text start_index)
    else Done chapter_text
  else Done chapter_text.

(** Lines 193-198: [end_page] and [next_title] of the bookmark at index [i]. *)
Definition end_page_of (reader : PdfReader)
    (sorted_all_bookmarks_info : list bookmark_info) (i : nat) : Z :=
  match nth_error sorted_all_bookmarks_info (i + 1) with
  | Some next => bookmark_page next
  | None => len (pages reader)
  end.

Definition next_title_of (sorted_all_bookmarks_info : list bookmark_info)
    (i : nat) : str :=
  match nth_error sorted_all_bookmarks_info (i + 1) with
  | Some next => bookmark_title next
  | None => []
  end.

(** One turn of the loop: the key and the value stored at line 263. *)
Definition chapter_of_bookmark (reader : PdfReader)
    (sorted_all_bookmarks_info : list bookmark_info) (i : nat)
    (b : bookmark_info) : run (str * chapter) :=
  let '(title, start_page, level) := b in
  let end_page := end_page_of reader sorted_all_bookmarks_info i in
  let next_title := next_title_of sorted_all_bookmarks_info i in
  let chapter_text := extract_chapter_text reader start_page end_page in
  refined_text <- refine_text chapter_text title next_title ;;
  Done (title, {| text := strip refined_text; level := level |}).

(** [for i, (title, start_page, level) in enumerate(...)], from index [i]
    on the remaining bookmarks [rest]. *)
Fixpoint chapters_loop (reader : PdfReader)
    (sorted_all_bookmarks_info : list bookmark_info) (i : nat)
    (rest : list bookmark_info) (chapters : OrderedDict) : run OrderedDict :=
  match rest with
  | [] => Done chapters
  | b :: rest' =>
      kv <- chapter_of_bookmark reader sorted_all_bookmarks_info i b ;;
      chapters_loop reader sorted_all_bookmarks_info (S i) rest'
        (setitem chapters (fst kv) (snd kv))
  end.

(** The title of the only chapter of a document without bookmarks. *)
Definition fallback_title : str := lit "Full Text (No Bookmarks)".

(** *** [split_text_by_bookmarks] (lines 66-274), from the opened reader on;
    [None] is the source's [return None]. *)
Definition split_reader_by_bookmarks (reader : PdfReader)
    : run (option OrderedDict) :=
  let chapters : OrderedDict := [] in
  let bookmarks := outline reader in
  if negb (truthy bookmarks) then
    let full_text :=
      append_page_texts reader (py_range 0 (len (pages reader))) [] in
    if truthy full_text then
      Done (Some (setitem chapters fallback_title
                    {| text := full_text; level := 0 |}))
    else Done None
  else
    let all_bookmarks_info := _get_bookmarks bookmarks 0 [] in
    if negb (truthy all_bookmarks_info) then Done None
    else
      let sorted_all_bookmarks_info := sorted_by_page all_bookmarks_info in
      chapters <- chapters_loop reader sorted_all_bookmarks_info 0
                    sorted_all_bookmarks_info chapters ;;
      Done (Some chapters).

Definition split_text_by_bookmarks (path : pdf_path)
    : run (option OrderedDict) :=
  match path with
  | NoSuchFile => Done None
  | NotPdfSuffix => Done None
  | PdfReadError => Done None
  | Readable reader => split_reader_by_bookmarks reader
  end.

(** *** [extract_text_from_pdf] (lines 7-63); [None] is the source's
    [return None], on every error and when no page has text. *)
Definition extract_text_from_pdf (path : pdf_path) : option str :=
  match path with
  | NoSuchFile => None
  | NotPdfSuffix => None
  | PdfReadError => None
  | Readable reader =>
      let full_text :=
        append_page_texts reader (py_range 0 (len (pages reader))) [] in
      if negb (truthy full_text) then None else Some full_text
  end.

(** *** [extract_text_between_markers] (lines 304-385).  The search of
    lines 320-362 is the same program as [_find_ignoring_whitespace]. *)
Inductive between_markers : Type :=
| Extracted (s : str)
| RaisesValueError.

Definition extract_text_between_markers (text start_marker end_marker : str)
    : run between_markers :=
  start_pos <- _find_ignoring_whitespace text start_marker 0 ;;
  if start_pos =? -1 then Done RaisesValueError
  else
    let start_index := start_pos + len start_marker in
    if negb (truthy end_marker) then
      Done (Extracted (slice_from text start_index))
    else
      end_pos <- _find_ignoring_whitespace text end_marker
                   (Z.to_nat start_index) ;;
      Done (Extracted (if end_pos =? -1 then []
                       else slice text start_index end_pos)).

End PdfEditor.

(** ** [utils.py] *)

Module Utils.

(** What the wrapped function can raise: an [HttpError] or an [APIError],
    with the status code read at lines 37-41 ([None] when the attributes are
    missing), or any other exception.  [ValueError] is what [time.sleep]
    raises for a negative time. *)
Inductive exception : Type :=
| HttpError (status : option Z)
| APIError (status_code : option Z)
| OtherException (name : nat)
| ValueError.

(** How a call of [wrapper] ends; [ReturnsNone] is the end of the function
    body after the loop. *)
Inductive outcome (A : Type) : Type :=
| Returns (value : A)
| Raises (e : exception)
| ReturnsNone.

Arguments Returns {A} value.
Arguments Raises {A} e.
Arguments ReturnsNone {A}.

(** What a call of [wrapper] did: the calls of [func], the sleeps. *)
Record effects (S : Type) : Type := Effects {
  state : S;
  calls : nat;
  sleeps : list Q
}.

Arguments Effects {S} state calls sleeps.
Arguments state {S} e.
Arguments calls {S} e.
Arguments sleeps {S} e.

(** [status_code in retry_status_codes] *)
Definition status_in (status_code : option Z) (retry_status_codes : list Z)
    : bool :=
  match status_code with
  | Some c => existsb (Z.eqb c) retry_status_codes
  | None => false
  end.

Section RetryApiCall.

(** The wrapped function: from the state of the world to a value or an
    exception, and the next state.  Nothing is assumed about it. *)
Variables (A S : Type).
Variable func : S -> (A + exception) * S.

(** The [n]-th draw of [random.random()]; [random.uniform(a, b)] is
    [a + (b - a) * random()].  Times are rational numbers: the rounding of
    the source's floating point numbers is not modelled. *)
Variable random : nat -> Q.

Variable max_retries : Z.
Variables initial_delay backoff jitter : Q.
Variable retry_status_codes : list Z.

Definition uniform (n : nat) (a b : Q) : Q := (a + (b - a) * random n)%Q.

(** Line 48: the waiting time before the retry with the [n]-th draw. *)
Definition wait_time (n : nat) (current_delay : Q) : Q :=
  (current_delay +
   uniform n (- jitter * current_delay) (jitter * current_delay))%Q.

(** The [while retries <= max_retries] loop, lines 31-60. *)
Fixpoint wrapper_loop (fuel : nat) (retries : Z) (current_delay : Q)
    (w : effects S) : run (outcome A * effects S) :=
  if retries <=? max_retries then
    match fuel with
    | O => OutOfFuel
    | Datatypes.S fuel' =>
        let (r, s') := func (state w) in
        let w' := {| state := s'; calls := Datatypes.S (calls w);
                     sleeps := sleeps w |} in
        match r with
        | inl v => Done (Returns v, w')
        | inr (OtherException _ as e) | inr (ValueError as e) =>
            Done (Raises e, w')
        | inr (HttpError status_code as e)
        | inr (APIError status_code as e) =>
            if status_in status_code retry_status_codes then
              if retries <? max_retries then
                let retries := retries + 1 in
                let wait_time := wait_time (length (sleeps w)) current_delay in
                if Qle_bool 0 wait_time then
                  wrapper_loop fuel' retries (current_delay * backoff)%Q
                    {| state := s'; calls := Datatypes.S (calls w);
                       sleeps := sleeps w ++ [wait_time] |}
                else Done (Raises ValueError, w')
              else Done (Raises e, w')
            else Done (Raises e, w')
        end
    end
  else Done (ReturnsNone, w).

(** [wrapper], called in the state [s] of the world.  Every turn of the loop
    that goes on adds one to [retries], so [max_retries + 1] turns are
    enough. *)
Definition wrapper (s : S) : run (outcome A * effects S) :=
  wrapper_loop (Z.to_nat (max_retries + 1)) 0 initial_delay
    {| state := s; calls := 0; sleeps := [] |}.

End RetryApiCall.

(** Lines 34-44: the failures that are retried. *)
Definition retryable (retry_status_codes : list Z) (e : exception) : bool :=
  match e with
  | HttpError status_code | APIError status_code =>
      status_in status_code retry_status_codes
  | OtherException _ | ValueError => false
  end.

(** [retry_api_call(max_retries, ...)(func)] with the defaults of line 7. *)
Definition retry_api_call (A S : Type) (random : nat -> Q) (max_retries : Z)
    (func : S -> (A + exception) * S) : S -> run (outcome A * effects S) :=
  wrapper A S func random max_retries 1 2 (1 # 10) [500; 502; 503; 504].

End Utils.

(** ** [main.py] *)

Module Main.

Import PdfEditor.

(** A value that may be a string: [isinstance(text, str)] is decided on
    it. *)
Inductive value : Type :=
| Str (s : str)
| NotStr (n : nat).

Definition EXCEL_MAX_CELL_LENGTH : Z := 32767.

(** *** [_split_text_for_excel] (lines 200-213) *)

(** The [while start < len(text)] loop, lines 209-212. *)
Fixpoint split_for_excel_loop (fuel : nat) (text : str) (max_length : Z)
    (start : Z) (chunks : list value) : run (list value) :=
  if start <? len text then
    match fuel with
    | O => OutOfFuel
    | S fuel' =>
        let end_ := start + max_length in
        split_for_excel_loop fuel' text max_length end_
          (chunks ++ [Str (slice text start end_)])
    end
  else Done chunks.

Definition _split_text_for_excel (text : value) (max_length : Z)
    : run (list value) :=
  match text with
  | NotStr _ => Done [text]
  | Str s =>
      if len s <=? max_length then Done [text]
      else split_for_excel_loop (length s) s max_length 0 []
  end.

(** *** [save_to_excel] (lines 214-259): the rows that are handed to
    [pd.DataFrame], with the columns "タイトル", "原文" and "訳文". *)
Record excel_row : Type := ExcelRow {
  column_title : value;
  column_original : value;
  column_translated : value
}.

(** Lines 240-252: the rows of one chapter. *)
Definition rows_of_chunks (title : value)
    (original_chunks translated_chunks_split : list value)
    : list excel_row :=
  let max_rows :=
    Nat.max (length original_chunks) (length translated_chunks_split) in
  map (fun i =>
         {| column_title := if (i =? 0)%nat then title else Str [];
            column_original :=
              if (i <? length original_chunks)%nat
              then nth i original_chunks (Str []) else Str [];
            column_translated :=
              if (i <? length translated_chunks_split)%nat
              then nth i translated_chunks_split (Str []) else Str [] |})
    (seq 0 max_rows).

(** Lines 231-252: the loop over
    [zip(chapter_titles, original_texts, translated_chunks)]. *)
Fixpoint excel_data_loop (chapter_titles original_texts
    translated_chunks : list value) (excel_data : list excel_row)
    : run (list excel_row) :=
  match chapter_titles, original_texts, translated_chunks with
  | title :: titles', original :: originals', translated :: translated' =>
      original_chunks <-
        _split_text_for_excel original EXCEL_MAX_CELL_LENGTH ;;
      translated_chunks_split <-
        _split_text_for_excel translated EXCEL_MAX_CELL_LENGTH ;;
      excel_data_loop titles' originals' translated'
        (excel_data ++
         rows_of_chunks title original_chunks translated_chunks_split)
  | _, _, _ => Done excel_data
  end.

Definition save_to_excel_rows (chapter_titles original_texts
    translated_chunks : list value) : run (list excel_row) :=
  excel_data_loop chapter_titles original_texts translated_chunks [].

(** *** [main], line 328: [pdf_file_path.split('/')[-1].split('.')[0]] *)
Definition filename_of (pdf_file_path : str) : str :=
  hd [] (split_on 46%N (last (split_on 47%N pdf_file_path) [])).

(** *** [main], lines 289-293: the value of [max_chunk_size]; [None] is a
    value of [config.json] that is missing or no integer. *)
Definition max_chunk_size_of (config_value : option Z) : Z :=
  match config_value with
  | Some n => if n <=? 0 then 10000 else n
  | None => 10000
  end.

(** *** [main], lines 366-430: the translation of the chapters *)

Section Translation.

(** [translate_text_chunk] with the model and the retry settings of the
    configuration, on the states of the world: nothing is assumed about
    it.  [message e] is [str(e)]. *)
Variable W : Type.
Variable translate_text_chunk : str -> W -> (str + Utils.exception) * W.
Variable message : Utils.exception -> str.

Variable max_chunk_size : Z.
Variable sleep_time : Q.

(** What the loop has done: besides the two lists of the source, the state
    of the world and the texts handed to [translate_text_chunk] so far. *)
Record translation : Type := Translation {
  world : W;
  requests : list str;
  translated_chapters : list str;
  original_texts_for_output : list str
}.

(** Line 428: "--- 章 '" title "' 翻訳失敗: " str(e) " ---" *)
Definition failure_placeholder (current_chapter_title : str)
    (e : Utils.exception) : str :=
  [45; 45; 45; 32; 31456; 32; 39]%N ++ current_chapter_title ++
  [39; 32; 32763; 35379; 22833; 25943; 58; 32]%N ++ message e ++
  [32; 45; 45; 45]%N.

(** Lines 407-412: the loop over the sub-chunks; [time.sleep] raises
    [ValueError] for a negative time. *)
Fixpoint translate_sub_chunks (sub_chunks translated_sub_chunks : list str)
    (w : W) (requests : list str)
    : (list str + Utils.exception) * (W * list str) :=
  match sub_chunks with
  | [] => (inl translated_sub_chunks, (w, requests))
  | sub_chunk :: sub_chunks' =>
      let (r, w') := translate_text_chunk sub_chunk w in
      let requests' := requests ++ [sub_chunk] in
      match r with
      | inl translated_sub =>
          let translated_sub_chunks' :=
            translated_sub_chunks ++
            [if truthy translated_sub then translated_sub else []] in
          if Qle_bool 0 sleep_time then
            translate_sub_chunks sub_chunks' translated_sub_chunks' w'
              requests'
          else (inr Utils.ValueError, (w', requests'))
      | inr e => (inr e, (w', requests'))
      end
  end.

(** Lines 398-428: what is appended to [translated_chapters] for one
    chapter. *)
Definition translate_chapter (current_chapter_title text_to_translate : str)
    (w : W) (requests : list str) : run (str * (W * list str)) :=
  if max_chunk_size <? len text_to_translate then
    sub_chunks <- split_text text_to_translate max_chunk_size ;;
    let (r, after) := translate_sub_chunks sub_chunks [] w requests in
    match r with
    | inl translated_sub_chunks =>
        Done (join [10%N] translated_sub_chunks, after)
    | inr e => Done (failure_placeholder current_chapter_title e, after)
    end
  else
    let (r, w') := translate_text_chunk text_to_translate w in
    let after := (w', requests ++ [text_to_translate]) in
    match r with
    | inl translated_chapter =>
        if Qle_bool 0 sleep_time then Done (translated_chapter, after)
        else
          Done (failure_placeholder current_chapter_title Utils.ValueError,
                after)
    | inr e => Done (failure_placeholder current_chapter_title e, after)
    end.

(** Lines 381-430: the loop over the chapters; [chapter_titles[i]] is the
    key and [chapter_texts[i]] the text of the [i]-th item of
    [chapters_dict] (lines 359-361). *)
Fixpoint translation_loop (chapters : OrderedDict) (done : translation)
    : run translation :=
  match chapters with
  | [] => Done done
  | (current_chapter_title, data) :: chapters' =>
      let text_to_translate := text data in
      r <- translate_chapter current_chapter_title text_to_translate
             (world done) (requests done) ;;
      let '(translated_chapter, (w, requests')) := r in
      translation_loop chapters'
        {| world := w;
           requests := requests';
           translated_chapters :=
             translated_chapters done ++ [translated_chapter];
           original_texts_for_output :=
             original_texts_for_output done ++ [text_to_translate] |}
  end.

Definition translate_chapters (chapters_dict : OrderedDict) (w : W)
    : run translation :=
  translation_loop chapters_dict
    {| world := w; requests := []; translated_chapters := [];
       original_texts_for_output := [] |}.

End Translation.

Arguments world {W} t.
Arguments requests {W} t.
Arguments translated_chapters {W} t.
Arguments original_texts_for_output {W} t.

End Main.

(** ** [GoogleAdaptor.py] *)

Module GoogleAdaptor.

Import Utils.

(** What [model.generate_content] returns, as [translate_text_chunk] looks
    at it (lines 141-148): an object with the attribute [text], or one
    without it, with the texts of its [parts]. *)
Inductive response : Type :=
| WithText (text : str)
| WithParts (parts : list str).

(** [enumerate(l)] *)
Definition enumerate {A : Type} (l : list A) : list (nat * A) :=
  combine (seq 0 (length l)) l.

(** Line 154: "はい、承知いたしました。", "承知しました。",
    "以下に翻訳します。" and "翻訳結果は以下の通りです。". *)
Definition common_greetings : list str :=
  [ [12399; 12356; 12289; 25215; 30693; 12356; 12383; 12375; 12414; 12375;
     12383; 12290];
    [25215; 30693; 12375; 12414; 12375; 12383; 12290];
    [20197; 19979; 12395; 32763; 35379; 12375; 12414; 12377; 12290];
    [32763; 35379; 32080; 26524; 12399; 20197; 19979; 12398; 36890; 12426;
     12391; 12377; 12290] ]%N.

(** Lines 152-160: the removal of a greeting in the first line. *)
Definition clean_translation (raw_translation : str) : str :=
  let lines := split_on 10%N (strip raw_translation) in
  let cleaned_translation := strip raw_translation in
  if truthy lines &&
     existsb (fun greeting => startswith (strip (hd [] lines)) greeting)
       common_greetings
  then
    strip
      (join [10%N]
         (map snd
            (filter (fun '(i, line) => (0 <? i)%nat || truthy (strip line))
               (enumerate lines))))
  else cleaned_translation.

(** What [None.parts] raises. *)
Definition AttributeError : exception := OtherException 0.

Section TranslateTextChunk.

(** The states of the world and the models; [genai.GenerativeModel] and
    [model.generate_content] may raise, and nothing is assumed about
    them. *)
Variables (S model : Type).
Variable GenerativeModel : str -> model + exception.
Variable generate_content : model -> str -> S -> (response + exception) * S.

Variable random : nat -> Q.

(** The text of the prompt before and after the chunk (lines 117-130). *)
Variables prompt_before prompt_after : str.

Definition prompt (text_chunk : str) : str :=
  prompt_before ++ text_chunk ++ prompt_after.

(** [translate_text_chunk] (lines 97-166), called in the state [s]: the
    translation or the exception that is raised, and what the call did. *)
Definition translate_text_chunk (text_chunk model_name : str)
    (max_retries : Z) (initial_delay : Q) (s : S)
    : run ((str + exception) * effects S) :=
  let nothing_done := {| state := s; calls := 0; sleeps := [] |} in
  if negb (truthy text_chunk) || negb (truthy (strip text_chunk)) then
    Done (inl [], nothing_done)
  else
    match GenerativeModel model_name with
    | inr e => Done (inr e, nothing_done)
    | inl model =>
        r <- wrapper response S (generate_content model (prompt text_chunk))
               random max_retries initial_delay 2 (1 # 10)
               [500; 502; 503; 504] s ;;
        let (response, w) := r in
        match response with
        | Raises e => Done (inr e, w)
        | ReturnsNone => Done (inr AttributeError, w)
        | Returns (WithText text) => Done (inl (clean_translation text), w)
        | Returns (WithParts parts) =>
            if truthy parts
            then Done (inl (clean_translation (join [] parts)), w)
            else Done (inl [], w)
        end
    end.

End TranslateTextChunk.

End GoogleAdaptor.

(** ** Notions of the specification *)

Module Spec.

Import PdfEditor.

(** A bookmark with a page number, at nesting depth [d] below an item of
    the outline: [d] is the number of sub-lists entered. *)
Inductive item_bookmark : outline_item -> nat -> str -> Z -> Prop :=
| bookmark_here (title : str) (page : Z) :
    item_bookmark (Destination title (PageNumber page)) 0 title page
| bookmark_below (items : list outline_item) (item : outline_item)
    (d : nat) (title : str) (page : Z) :
    In item items ->
    item_bookmark item d title page ->
    item_bookmark (SubOutline items) (S d) title page.

(** A bookmark with a page number at nesting depth [d] of an outline. *)
Definition bookmark_at (items : list outline_item) (d : nat) (title : str)
    (page : Z) : Prop :=
  exists item, In item items /\ item_bookmark item d title page.

(** A string without its whitespace. *)
Definition collapse (s : str) : str :=
  filter (fun c => negb (isspace c)) s.

(** The needle occurs in the haystack at position [p], whitespace ignored
    on both sides: [p] is the position of a character that is not
    whitespace, and from there on the haystack without whitespace begins
    with the needle without whitespace, which is not empty. *)
Definition matches_at (haystack needle : str) (p : nat) : Prop :=
  collapse needle <> [] /\
  isspace_at haystack p = false /\
  exists rest, collapse (skipn p haystack) = collapse needle ++ rest.

(** Stable sorting by page: a permutation, in ascending order of the pages,
    in which the bookmarks of one page keep their order. *)
Definition stable_sort_by_page (l sorted : list bookmark_info) : Prop :=
  Permutation l sorted /\
  StronglySorted (fun a b => bookmark_page a <= bookmark_page b) sorted /\
  forall page,
    filter (fun b => bookmark_page b =? page) sorted =
    filter (fun b => bookmark_page b =? page) l.

(** The bookmarks of a document in the order of the loop: collected, then
    sorted by page. *)
Definition sorted_bookmarks (reader : PdfReader) : list bookmark_info :=
  sorted_by_page (_get_bookmarks (outline reader) 0 []).

(** The text of the pages [first, last_exclusive) of the document. *)
Definition pages_text (reader : PdfReader) (first last_exclusive : Z) : str :=
  concat (map (extract_text reader) (py_range first last_exclusive)).

(** The page range of a chapter read as half-open: the pages from the
    chapter's page up to, and without, the page of the next bookmark. *)
Definition half_open_ranges (reader : PdfReader) : Prop :=
  forall i b,
    nth_error (sorted_bookmarks reader) i = Some b ->
    0 <= bookmark_page b < len (pages reader) ->
    extract_chapter_text reader (bookmark_page b)
      (end_page_of reader (sorted_bookmarks reader) i) =
    pages_text reader (bookmark_page b)
      (end_page_of reader (sorted_bookmarks reader) i).

(** One chapter for every collected bookmark. *)
Definition one_chapter_per_bookmark (reader : PdfReader) : Prop :=
  exists chapters,
    split_text_by_bookmarks (Readable reader) = Done (Some chapters) /\
    length chapters = length (sorted_bookmarks reader).

(** [refined] is the text of a chapter cut between its own title and the
    title [next], when there is one: from the position after the title,
    when the title is found, to the position where [next] is found, or to
    the end when there is no [next] or it is not found, then stripped; the
    whole stripped text when the title is not found. *)
Definition refined_between (chapter_text title : str) (next : option str)
    (refined : str) : Prop :=
  exists start_pos,
    _find_ignoring_whitespace chapter_text title 0 = Done start_pos /\
    (start_pos = -1 -> refined = strip chapter_text) /\
    (start_pos <> -1 ->
     let start_index := start_pos + len title in
     match next with
     | Some next_title =>
         exists end_pos,
           _find_ignoring_whitespace chapter_text next_title
             (Z.to_nat start_index) = Done end_pos /\
           (end_pos <> -1 ->
            refined = strip (slice chapter_text start_index end_pos)) /\
           (end_pos = -1 ->
            refined = strip (slice_from chapter_text start_index))
     | None => refined = strip (slice_from chapter_text start_index)
     end).

(** The title of the next chapter: of the next bookmark, if any. *)
Definition title_of_next (sorted : list bookmark_info) (i : nat)
    : option str :=
  option_map bookmark_title (nth_error sorted (i + 1)).

(** The title of the next chapter that is used as end marker: of the next
    bookmark, if any, when that title is not empty. *)
Definition marker_of_next (sorted : list bookmark_info) (i : nat)
    : option str :=
  match nth_error sorted (i + 1) with
  | Some next =>
      if truthy (bookmark_title next) then Some (bookmark_title next)
      else None
  | None => None
  end.

(** The chapters of a document are cut at the title of the next chapter
    given by [next]. *)
Definition chapters_refined_with
    (next : list bookmark_info -> nat -> option str) (reader : PdfReader)
    : Prop :=
  forall i b,
    nth_error (sorted_bookmarks reader) i = Some b ->
    let chapter_text :=
      extract_chapter_text reader (bookmark_page b)
        (end_page_of reader (sorted_bookmarks reader) i) in
    chapter_text <> [] ->
    exists c,
      chapter_of_bookmark reader (sorted_bookmarks reader) i b =
      Done (bookmark_title b, c) /\
      refined_between chapter_text (bookmark_title b)
        (next (sorted_bookmarks reader) i) (text c).

(** What the search has to return from the offset [off]: the first position
    at or after [off] where the needle occurs, or [-1] when there is none. *)
Definition first_match_or_not_found (haystack needle : str) (off : nat)
    (z : Z) : Prop :=
  (z = -1 /\ forall q, (off <= q)%nat -> ~ matches_at haystack needle q) \/
  (exists p,
     z = Z.of_nat p /\ (off <= p)%nat /\ matches_at haystack needle p /\
     forall q, (off <= q < p)%nat -> ~ matches_at haystack needle q).

(** The state of the scan between two turns: no attempt is in progress and
    the needle does not occur before the current position, or an attempt
    that started at [p0] has matched the characters [M] of the needle and
    the needle does not occur before [p0]. *)
Definition find_inv (haystack needle : str) (off : nat) (st : find_state)
    : Prop :=
  (n_idx st <= length needle)%nat /\
  (off <= h_idx st)%nat /\
  ((potential_start st = -1 /\ n_idx st = 0%nat /\
    forall q, (off <= q < h_idx st)%nat -> ~ matches_at haystack needle q) \/
   (exists p0 M,
      potential_start st = Z.of_nat p0 /\
      (off <= p0 < h_idx st)%nat /\
      isspace_at haystack p0 = false /\
      (1 <= n_idx st)%nat /\
      collapse (skipn p0 haystack) =
      M ++ collapse (skipn (h_idx st) haystack) /\
      collapse needle = M ++ collapse (skipn (n_idx st) needle) /\
      forall q, (off <= q < p0)%nat -> ~ matches_at haystack needle q)).

(** The start of the attempt in progress: the recorded start, or the
    current position when no attempt is in progress. *)
Definition attempt_start (st : find_state) : nat :=
  if potential_start st =? -1 then h_idx st
  else Z.to_nat (potential_start st).

(** The scan is at or after [off], and a recorded start is a position of
    the haystack between [off] and the current position. *)
Definition scan_ok (haystack : str) (off : nat) (st : find_state) : Prop :=
  (off <= h_idx st)%nat /\
  (potential_start st = -1 \/
   Z.of_nat off <= potential_start st < Z.of_nat (h_idx st) /\
   potential_start st < len haystack).

(** What decreases at every turn of the scan. *)
Definition scan_measure (haystack : str) (st : find_state) : nat :=
  (length haystack - attempt_start st) * (length haystack + 1) +
  (length haystack - h_idx st).

(** What holds when the scan is left. *)
Definition exit_ok (haystack : str) (off : nat) (r : scan_exit) : Prop :=
  match r with
  | LoopEnded st => scan_ok haystack off st
  | Returned z => z = -1 \/ Z.of_nat off <= z < len haystack
  end.

(** Induction on the items of an outline, with the property for all the
    items of a sub-list. *)
Fixpoint outline_item_induction (P : outline_item -> Prop)
    (Hd : forall title page, P (Destination title page))
    (Hs : forall items, Forall P items -> P (SubOutline items))
    (item : outline_item) : P item :=
  match item with
  | Destination title page => Hd title page
  | SubOutline items =>
      Hs items
        ((fix all (l : list outline_item) : Forall P l :=
            match l with
            | [] => Forall_nil P
            | x :: l' =>
                Forall_cons x (outline_item_induction P Hd Hs x) (all l')
            end) items)
  end.

(** Line 263 for the pair of a title and a chapter. *)
Definition store (d : OrderedDict) (kv : str * chapter) : OrderedDict :=
  setitem d (fst kv) (snd kv).

(** The titles in the order of their first occurrence, each once. *)
Definition first_occurrences (titles : list str) : list str :=
  fold_left
    (fun seen t => if in_dec str_eq_dec t seen then seen else seen ++ [t])
    titles [].

(** [t] is a contiguous part of [s]. *)
Definition part_of (t s : str) : Prop :=
  exists before after, s = before ++ t ++ after.

(** The delay of [retry_api_call] after [k] retries: the initial delay,
    multiplied [k] times by the backoff (line 51). *)
Fixpoint delay_after (initial_delay backoff : Q) (k : nat) : Q :=
  match k with
  | O => initial_delay
  | S k' => (delay_after initial_delay backoff k' * backoff)%Q
  end.

(** The waiting times of the first [n] retries. *)
Definition waits (random : nat -> Q) (initial_delay backoff jitter : Q)
    (n : nat) : list Q :=
  map (fun k =>
         Utils.wait_time random jitter k (delay_after initial_delay backoff k))
    (seq 0 n).

(** The text of a column: its string cells, one after the other. *)
Definition text_of_cells (cells : list Main.value) : str :=
  concat (map (fun v => match v with
                        | Main.Str s => s
                        | Main.NotStr _ => []
                        end) cells).

(** A cell that Excel can hold: a string of at most 32767 characters. *)
Definition cell_fits (v : Main.value) : Prop :=
  exists s, v = Main.Str s /\ len s <= Main.EXCEL_MAX_CELL_LENGTH.

(** The rows of the chapter [title] with the texts [original] and
    [translated]: at least one row, the title, uncut, in the first row
    only, the two texts cut over the rows of their columns, in cells that
    fit. *)
Definition rows_of_chapter (title original translated : str)
    (rows : list Main.excel_row) : Prop :=
  rows <> [] /\
  map Main.column_title rows =
  Main.Str title :: repeat (Main.Str []) (length rows - 1) /\
  text_of_cells (map Main.column_original rows) = original /\
  text_of_cells (map Main.column_translated rows) = translated /\
  Forall (fun r => cell_fits (Main.column_original r) /\
                   cell_fits (Main.column_translated r)) rows.


(** What becomes of a chapter when the outcome of a translation depends on
    the chunk only ([answer]): the chapter is sent whole when it fits, and
    in the chunks of [split_text] otherwise; either every chunk is
    translated and the translations are joined by new lines, or the first
    chunk that fails is the last one sent and the chapter is marked with
    the failure. *)
Definition chapter_outcome (answer : str -> str + Utils.exception)
    (placeholder : str -> Utils.exception -> str) (max_chunk_size : Z)
    (title original translated : str) (sent : list str) : Prop :=
  exists chunks,
    (if max_chunk_size <? len original
     then PdfEditor.split_text original max_chunk_size = Done chunks
     else chunks = [original]) /\
    chunks <> [] /\
    concat chunks = original /\
    Forall (fun chunk => len chunk <= max_chunk_size) chunks /\
    ((exists translations,
        map answer chunks = map inl translations /\
        translated = join [10%N] translations /\
        sent = chunks) \/
     (exists before translations chunk after e,
        chunks = before ++ chunk :: after /\
        map answer before = map inl translations /\
        answer chunk = inr e /\
        translated = placeholder title e /\
        sent = before ++ [chunk])).


(** The end page of the sorted bookmark [i]: the page of the sorted
    bookmark [i + 1], or the number of pages of the document for the last
    bookmark. *)
Definition end_page_exclusive (reader : PdfReader)
    (sorted : list bookmark_info) (i : nat) : Z :=
  nth (i + 1) (map bookmark_page sorted) (len (pages reader)).

(** Two readings of the range that ends at [end_page]: half-open, the pages
    before [end_page]; or with the end page included, as far as the
    document has pages. *)
Definition end_page_excluded (reader : PdfReader) (end_page : Z) : Z :=
  end_page.

Definition end_page_included (reader : PdfReader) (end_page : Z) : Z :=
  Z.min (end_page + 1) (len (pages reader)).

(** The text of the pages [start_page, last_exclusive) for a chapter: none
    when [start_page] is outside the document. *)
Definition range_text (reader : PdfReader) (start_page last_exclusive : Z)
    : str :=
  if (0 <=? start_page) && (start_page <? len (pages reader))
  then pages_text reader start_page last_exclusive
  else [].

(** The resolution of the ranges, for a reading [pages_until] of the end
    page: the collected bookmarks are sorted by page with a stable sort,
    and [split_text_by_bookmarks] stores one chapter for every sorted
    bookmark, in this order, under the title of the bookmark; the chapter of
    the sorted bookmark [i] is made of the pages from [start_page], the
    page of the bookmark, to [end_page], the page of the next sorted
    bookmark or the number of pages of the document. *)
Definition ranges_resolved (pages_until : PdfReader -> Z -> Z)
    (reader : PdfReader) : Prop :=
  stable_sort_by_page (_get_bookmarks (outline reader) 0 [])
    (sorted_bookmarks reader) /\
  exists kvs,
    length kvs = length (sorted_bookmarks reader) /\
    split_text_by_bookmarks (Readable reader) =
    Done (Some (fold_left store kvs [])) /\
    forall i b,
      nth_error (sorted_bookmarks reader) i = Some b ->
      let start_page := bookmark_page b in
      let end_page := end_page_exclusive reader (sorted_bookmarks reader) i in
      exists refined_text,
        refine_text
          (range_text reader start_page (pages_until reader end_page))
          (bookmark_title b) (next_title_of (sorted_bookmarks reader) i) =
        Done refined_text /\
        nth_error kvs i =
        Some (bookmark_title b,
              {| text := strip refined_text; level := bookmark_level b |}).

(** Every bookmark whose page is outside the document has a chapter with
    empty text in the result. *)
Definition empty_chapter_for_page_outside (reader : PdfReader) : Prop :=
  forall i b,
    nth_error (sorted_bookmarks reader) i = Some b ->
    ~ (0 <= bookmark_page b < len (pages reader)) ->
    exists chapters c,
      split_text_by_bookmarks (Readable reader) = Done (Some chapters) /\
      In (bookmark_title b, c) chapters /\
      text c = [].

End Spec.

(** ** Documents and services of the examples *)

Module Examples.

Import PdfEditor.
Import Utils.

(** Two chapters, on the pages 0 and 1. *)
Definition two_chapters : PdfReader :=
  {| outline := [Destination (lit "A") (PageNumber 0);
                 Destination (lit "B") (PageNumber 1)];
     pages := [lit "x"; lit "y"] |}.

(** Two bookmarks with the same title. *)
Definition same_title_twice : PdfReader :=
  {| outline := [Destination (lit "A") (PageNumber 0);
                 Destination (lit "A") (PageNumber 1)];
     pages := [lit "x"; lit "y"] |}.

(** A bookmark on a page that the document does not have. *)
Definition page_outside : PdfReader :=
  {| outline := [Destination (lit "A") (PageNumber 0);
                 Destination (lit "B") (PageNumber 7)];
     pages := [lit "x"; lit "y"] |}.

(** A bookmark with the empty title after the first chapter. *)
Definition empty_next_title : PdfReader :=
  {| outline := [Destination (lit "Intro") (PageNumber 0);
                 Destination (lit "") (PageNumber 1)];
     pages := [lit "Intro body"; lit "more"] |}.

(** A service that answers 503 to its first three calls and 404 after. *)
Definition unavailable_then_missing (n : nat) : (unit + exception) * nat :=
  if (n <? 3)%nat then (inr (HttpError (Some 503)), S n)
  else (inr (HttpError (Some 404)), S n).


(** A model that answers every request with a greeting, a new line and
    "Hello ", in a world that counts the requests. *)
Definition greeting_answer : str :=
  nth 1 GoogleAdaptor.common_greetings [] ++ [10%N] ++ lit "Hello ".

Definition greeting_model (m : unit) (prompt : str) (s : nat)
    : (GoogleAdaptor.response + Utils.exception) * nat :=
  (inl (GoogleAdaptor.WithText greeting_answer), S s).

(** A translation that puts a chunk in brackets and is unavailable for the
    chunks with the letter g. *)
Definition answer_but_g (chunk : str) : str + Utils.exception :=
  if existsb (N.eqb 103) chunk then inr (Utils.HttpError (Some 503))
  else inl (lit "[" ++ chunk ++ lit "]").

Definition translation_but_g (chunk : str) (s : nat)
    : (str + Utils.exception) * nat :=
  (answer_but_g chunk, S s).

Definition two_chapter_dict : OrderedDict :=
  [(lit "One", {| text := lit "abcdefg"; level := 0 |});
   (lit "Two", {| text := lit "xy"; level := 1 |})].


(** The example of the specification: bookmarks on the pages 5, 2 and 9, in
    a document of ten pages, the page [n] with the text "n". *)
Definition pages_5_2_9 : PdfReader :=
  {| outline := [Destination (lit "a") (PageNumber 5);
                 Destination (lit "b") (PageNumber 2);
                 Destination (lit "c") (PageNumber 9)];
     pages := [lit "0"; lit "1"; lit "2"; lit "3"; lit "4";
               lit "5"; lit "6"; lit "7"; lit "8"; lit "9"] |}.

(** Two bookmarks with the same title, one of them on a page that the
    document does not have. *)
Definition same_title_outside : PdfReader :=
  {| outline := [Destination (lit "B") (PageNumber 0);
                 Destination (lit "B") (PageNumber (-1))];
     pages := [lit "B x"] |}.

End Examples.

(** * Properties *)

Import PdfEditor.
Import Spec.
Import Examples.

(** ** Slices *)

Lemma slice_inside (A : Type) (s : list A) (a b : Z) :
  0 <= a <= b -> b <= len s ->
  slice s a b = firstn (Z.to_nat (b - a)) (skipn (Z.to_nat a) s).
Proof.
  intros Ha Hb. unfold slice, slice_bound.
  destruct (a <? 0) eqn:Ea; [apply Z.ltb_lt in Ea; lia|].
  destruct (b <? 0) eqn:Eb; [apply Z.ltb_lt in Eb; lia|].
  rewrite !Z.min_l by lia. reflexivity.
Qed.

(** ** The chunks of [split_text] *)

Lemma split_text_loop_spec (text : str) (m : Z) :
  0 < m ->
  forall fuel start chunks,
    0 <= start <= len text ->
    (len text - start <= Z.of_nat fuel) ->
    exists rest,
      split_text_loop fuel text m start chunks = Done (chunks ++ rest) /\
      concat rest = skipn (Z.to_nat start) text /\
      Forall (fun c => 0 < len c <= m) rest /\
      forall k, (k < length rest)%nat ->
        nth k rest [] = slice text (start + Z.of_nat k * m)
                                   (start + Z.of_nat k * m + m).
Proof.
  intros Hm. induction fuel as [|fuel IH]; intros start chunks Hs Hf.
  - assert (start = len text) by lia. subst start.
    exists []. cbn. rewrite Z.ltb_irrefl, app_nil_r.
    repeat split; auto.
    + unfold len. rewrite Nat2Z.id, skipn_all. reflexivity.
    + intros k Hk. inversion Hk.
  - cbn [split_text_loop].
    destruct (start <? len text) eqn:E.
    + apply Z.ltb_lt in E.
      set (e := Z.min (start + m) (len text)).
      assert (He : start < e <= len text) by (unfold e; lia).
      destruct (IH e (chunks ++ [slice text start e]))
        as (rest & Hr & Hc & Hall & Hnth); [lia | lia |].
      exists (slice text start e :: rest).
      assert (Hsl : slice text start e =
                    firstn (Z.to_nat (e - start)) (skipn (Z.to_nat start) text))
        by (apply slice_inside; lia).
      repeat split.
      * rewrite Hr, <- app_assoc. reflexivity.
      * cbn [concat]. rewrite Hc, Hsl.
        replace (Z.to_nat e) with (Z.to_nat (e - start) + Z.to_nat start)%nat
          by lia.
        rewrite <- skipn_skipn. apply firstn_skipn.
      * constructor; [|exact Hall].
        rewrite Hsl. unfold len in *.
        rewrite length_firstn, length_skipn. lia.
      * intros [|k] Hk.
        -- cbn [nth]. rewrite Z.mul_0_l, Z.add_0_r.
           unfold slice.
           replace (slice_bound text (start + m)) with (slice_bound text e);
             [reflexivity|].
           unfold slice_bound, e.
           destruct (start + m <? 0) eqn:E1; [apply Z.ltb_lt in E1; lia|].
           destruct (Z.min (start + m) (len text) <? 0) eqn:E2;
             [apply Z.ltb_lt in E2; lia|].
           lia.
        -- cbn [nth]. cbn [length] in Hk. rewrite Hnth by lia.
           assert (He' : e = start + m).
           { destruct (Z.eq_dec e (len text)) as [Heq|Hne];
               [|unfold e in *; lia].
             exfalso. destruct rest as [|c rest']; [cbn in Hk; lia|].
             rewrite Heq in Hc. unfold len in Hc.
             rewrite Nat2Z.id, skipn_all in Hc. cbn [concat] in Hc.
             apply app_eq_nil in Hc. destruct Hc as [Hc _]. subst c.
             inversion Hall as [|? ? Hc0 _]. cbn in Hc0. lia. }
           f_equal; lia.
    + apply Z.ltb_ge in E.
      exists []. rewrite app_nil_r. repeat split; auto.
      * assert (start = len text) by lia. subst start.
        unfold len. rewrite Nat2Z.id, skipn_all. reflexivity.
      * intros k Hk. inversion Hk.
Qed.

(** C2.  For a non-empty [text] and [max_chunk_size > 0], [split_text]
    returns chunks whose concatenation is [text], each of at most
    [max_chunk_size] characters; the [k]-th chunk is the slice of [text]
    from [k * max_chunk_size] to [(k + 1) * max_chunk_size], so the chunks
    neither overlap nor change order. *)
Theorem C2_split_text_chunks (text : str) (max_chunk_size : Z) :
  text <> [] -> 0 < max_chunk_size ->
  exists chunks,
    split_text text max_chunk_size = Done chunks /\
    concat chunks = text /\
    Forall (fun c => len c <= max_chunk_size) chunks /\
    forall k, (k < length chunks)%nat ->
      nth k chunks [] =
      slice text (Z.of_nat k * max_chunk_size)
                 (Z.of_nat k * max_chunk_size + max_chunk_size).
Proof.
  intros Hne Hm. unfold split_text.
  destruct text as [|c text]; [congruence|]. cbn [truthy negb].
  destruct (max_chunk_size <=? 0) eqn:E; [apply Z.leb_le in E; lia|].
  destruct (split_text_loop_spec (c :: text) max_chunk_size Hm
              (length (c :: text)) 0 [])
    as (rest & Hr & Hc & Hall & Hnth); [unfold len; lia | unfold len; lia |].
  exists rest. cbn [app] in Hr. repeat split.
  - exact Hr.
  - exact Hc.
  - eapply Forall_impl; [|exact Hall]. cbn. intros; lia.
  - intros k Hk. rewrite (Hnth k Hk). f_equal; lia.
Qed.

(** The empty text and a size that is not positive give no chunk. *)
Example split_text_nothing (text : str) (max_chunk_size : Z) :
  split_text [] max_chunk_size = Done [] /\
  (max_chunk_size <= 0 -> split_text text max_chunk_size = Done []).
Proof.
  split; [reflexivity|]. intros H. unfold split_text.
  destruct (negb (truthy text)); [reflexivity|].
  destruct (max_chunk_size <=? 0) eqn:E; [reflexivity|].
  apply Z.leb_gt in E. lia.
Qed.

Lemma C2_split_text_chunks_witness :
  exists chunks,
    split_text (lit "abcdefg") 3 = Done chunks /\
    concat chunks = lit "abcdefg" /\
    Forall (fun c => len c <= 3) chunks /\
    forall k, (k < length chunks)%nat ->
      nth k chunks [] = slice (lit "abcdefg") (Z.of_nat k * 3)
                                              (Z.of_nat k * 3 + 3).
Proof.
  apply (C2_split_text_chunks (lit "abcdefg") 3); [discriminate | lia].
Defined.

(** ** The scan of [_find_ignoring_whitespace] *)

Lemma skip_haystack_whitespace_done (haystack : str) :
  forall fuel st,
    (length haystack - h_idx st <= fuel)%nat ->
    exists st',
      skip_haystack_whitespace fuel haystack st = Done st' /\
      n_idx st' = n_idx st /\
      potential_start st' = potential_start st /\
      (h_idx st <= h_idx st')%nat /\
      ((h_idx st <= length haystack)%nat ->
       (h_idx st' <= length haystack)%nat) /\
      (forall j, (h_idx st <= j < h_idx st')%nat ->
                 isspace_at haystack j = true) /\
      ((h_idx st' < length haystack)%nat ->
       isspace_at haystack (h_idx st') = false).
Proof.
  induction fuel as [|fuel IH]; intros st Hf.
  - cbn [skip_haystack_whitespace].
    destruct (h_idx st <? length haystack)%nat eqn:E;
      [apply Nat.ltb_lt in E; lia|].
    apply Nat.ltb_ge in E. cbn [andb].
    exists st. repeat split; auto; intros; lia.
  - cbn [skip_haystack_whitespace].
    destruct (h_idx st <? length haystack)%nat eqn:E; cbn [andb].
    + apply Nat.ltb_lt in E.
      destruct (isspace_at haystack (h_idx st)) eqn:Ews.
      * match goal with
        | |- context [skip_haystack_whitespace fuel haystack ?s] =>
            destruct (IH s) as (st' & Hr & Hn & Hp & Hle & Hin & Hws & Hstop);
              [cbn; lia|]
        end.
        cbn in Hn, Hp, Hle, Hin, Hws.
        exists st'. repeat split; auto; try lia.
        intros j Hj. destruct (Nat.eq_dec j (h_idx st)) as [->|Hne]; auto.
        apply Hws. lia.
      * exists st. repeat split; auto; intros; lia.
    + apply Nat.ltb_ge in E.
      exists st. repeat split; auto; intros; lia.
Qed.

Lemma skip_needle_whitespace_done (needle : str) :
  forall fuel st,
    (length needle - n_idx st <= fuel)%nat ->
    exists st',
      skip_needle_whitespace fuel needle st = Done st' /\
      h_idx st' = h_idx st /\
      potential_start st' = potential_start st /\
      (n_idx st <= n_idx st')%nat /\
      ((n_idx st <= length needle)%nat ->
       (n_idx st' <= length needle)%nat) /\
      (forall j, (n_idx st <= j < n_idx st')%nat ->
                 isspace_at needle j = true) /\
      ((n_idx st' < length needle)%nat ->
       isspace_at needle (n_idx st') = false).
Proof.
  induction fuel as [|fuel IH]; intros st Hf.
  - cbn [skip_needle_whitespace].
    destruct (n_idx st <? length needle)%nat eqn:E;
      [apply Nat.ltb_lt in E; lia|].
    apply Nat.ltb_ge in E. cbn [andb].
    exists st. repeat split; auto; intros; lia.
  - cbn [skip_needle_whitespace].
    destruct (n_idx st <? length needle)%nat eqn:E; cbn [andb].
    + apply Nat.ltb_lt in E.
      destruct (isspace_at needle (n_idx st)) eqn:Ews.
      * match goal with
        | |- context [skip_needle_whitespace fuel needle ?s] =>
            destruct (IH s) as (st' & Hr & Hn & Hp & Hle & Hin & Hws & Hstop);
              [cbn; lia|]
        end.
        cbn in Hn, Hp, Hle, Hin, Hws.
        exists st'. repeat split; auto; try lia.
        intros j Hj. destruct (Nat.eq_dec j (n_idx st)) as [->|Hne]; auto.
        apply Hws. lia.
      * exists st. repeat split; auto; intros; lia.
    + apply Nat.ltb_ge in E.
      exists st. repeat split; auto; intros; lia.
Qed.

Lemma lex_measure_lt (L x y x' y' : nat) :
  (x' < x /\ y' <= L \/ x' = x /\ y' < y)%nat ->
  (x' * (L + 1) + y' < x * (L + 1) + y)%nat.
Proof. nia. Qed.

Lemma compare_and_advance_decreases (haystack needle : str) (off : nat)
    (st0 st : find_state) :
  scan_ok haystack off st0 ->
  (h_idx st0 <= h_idx st < length haystack)%nat ->
  potential_start st = potential_start st0 ->
  scan_ok haystack off (compare_and_advance haystack needle st) /\
  (scan_measure haystack (compare_and_advance haystack needle st)
   < scan_measure haystack st0)%nat.
Proof.
  intros [Hoff Hpot] Hh Hp.
  unfold compare_and_advance, scan_ok, scan_measure, attempt_start, len in *.
  rewrite Hp.
  set (L := length haystack) in *.
  destruct ((h_idx st <? L)%nat && (n_idx st <? length needle)%nat &&
            same_char_at haystack (h_idx st) needle (n_idx st)).
  - cbn [h_idx n_idx potential_start].
    destruct (n_idx st =? 0)%nat.
    + destruct (Z.of_nat (h_idx st) =? -1) eqn:E0;
        [apply Z.eqb_eq in E0; lia|].
      rewrite Nat2Z.id.
      destruct (potential_start st0 =? -1) eqn:E1;
        [apply Z.eqb_eq in E1 | apply Z.eqb_neq in E1];
        (split; [split; [lia | right; lia] | apply lex_measure_lt; lia]).
    + destruct (potential_start st0 =? -1) eqn:E1;
        [apply Z.eqb_eq in E1 | apply Z.eqb_neq in E1].
      * split; [split; [lia | left; lia] | apply lex_measure_lt; lia].
      * split; [split; [lia | right; lia] | apply lex_measure_lt; lia].
  - destruct (potential_start st0 =? -1) eqn:E1; cbn [negb];
      cbn [h_idx n_idx potential_start]; rewrite ?Z.eqb_refl, ?E1;
      [apply Z.eqb_eq in E1 | apply Z.eqb_neq in E1];
      (split; [split; [lia | left; lia] | apply lex_measure_lt; lia]).
Qed.

Lemma find_loop_total (haystack needle : str) (off : nat) :
  forall fuel st,
    scan_ok haystack off st ->
    (scan_measure haystack st < fuel)%nat ->
    exists r,
      find_loop fuel haystack needle st = Done r /\ exit_ok haystack off r.
Proof.
  induction fuel as [|fuel IH]; intros st Hok Hm; [lia|].
  cbn [find_loop].
  destruct (h_idx st <? length haystack)%nat eqn:E.
  - apply Nat.ltb_lt in E.
    destruct (skip_haystack_whitespace_done haystack (length haystack) st)
      as (st1 & Hr1 & Hn1 & Hp1 & Hle1 & Hin1 & _ & _); [lia|].
    rewrite Hr1. cbn [run_bind].
    destruct (h_idx st1 =? length haystack)%nat eqn:E1.
    + eexists. split; [reflexivity|]. cbn.
      destruct Hok as [Ho Hp]. split; [lia|]. rewrite Hp1.
      destruct Hp as [Hp|Hp]; [left; exact Hp | right; lia].
    + apply Nat.eqb_neq in E1.
      destruct (skip_needle_whitespace_done needle (length needle) st1)
        as (st2 & Hr2 & Hh2 & Hp2 & _); [lia|].
      rewrite Hr2. cbn [run_bind].
      destruct (n_idx st2 =? length needle)%nat eqn:E2.
      * eexists. split; [reflexivity|]. cbn.
        rewrite Hp2, Hp1. destruct Hok as [Ho [Hp|Hp]]; [left|right]; lia.
      * destruct (compare_and_advance_decreases haystack needle off st st2 Hok)
          as [Hok' Hdec]; [lia | congruence |].
        apply IH; [exact Hok' | lia].
  - eexists. split; [reflexivity|]. exact Hok.
Qed.

(** [_find_ignoring_whitespace] returns: the fuel is enough, and the result
    is [-1] or a position of the haystack at or after the offset (or the
    offset itself for the empty needle). *)
Lemma find_ignoring_whitespace_total (haystack needle : str) (off : nat) :
  exists z,
    _find_ignoring_whitespace haystack needle off = Done z /\
    (z = -1 \/ Z.of_nat off <= z).
Proof.
  unfold _find_ignoring_whitespace.
  destruct needle as [|c needle]; cbn [truthy negb].
  - eexists. split; [reflexivity|]. right. lia.
  - set (st0 := {| h_idx := off; n_idx := 0; potential_start := -1;
                   start_offset := off |}).
    destruct (find_loop_total haystack (c :: needle) off
                (find_fuel haystack) st0) as (r & Hr & Hex).
    + split; [cbn; lia | left; reflexivity].
    + unfold scan_measure, attempt_start, find_fuel. cbn. nia.
    + rewrite Hr. cbn [run_bind]. destruct r as [st|z].
      * destruct (skip_needle_whitespace_done (c :: needle)
                    (length (c :: needle)) st)
          as (st' & Hr' & _ & Hp' & _); [lia|].
        rewrite Hr'. cbn [run_bind].
        destruct (n_idx st' =? length (c :: needle))%nat.
        -- eexists. split; [reflexivity|]. rewrite Hp'.
           destruct Hex as [_ [Hp|Hp]]; [left; exact Hp | right; lia].
        -- eexists. split; [reflexivity|]. left. reflexivity.
      * eexists. split; [reflexivity|]. cbn in Hex. lia.
Qed.

(** A needle that begins with whitespace never records a start: the
    comparison is reached with [n_idx > 0] only. *)
Lemma find_loop_no_start (haystack needle : str) :
  isspace_at needle 0 = true ->
  forall fuel st r,
    potential_start st = -1 ->
    find_loop fuel haystack needle st = Done r ->
    match r with
    | Returned z => z = -1
    | LoopEnded st' => potential_start st' = -1
    end.
Proof.
  intros Hws. induction fuel as [|fuel IH]; intros st r Hp Hr;
    cbn [find_loop] in Hr;
    destruct (h_idx st <? length haystack)%nat eqn:E;
    try discriminate; try (injection Hr as <-; exact Hp).
  destruct (skip_haystack_whitespace_done haystack (length haystack) st)
    as (st1 & Hr1 & _ & Hp1 & _); [lia|].
  rewrite Hr1 in Hr. cbn [run_bind] in Hr.
  destruct (h_idx st1 =? length haystack)%nat.
  - injection Hr as <-. congruence.
  - destruct (skip_needle_whitespace_done needle (length needle) st1)
      as (st2 & Hr2 & _ & Hp2 & _ & _ & _ & Hstop); [lia|].
    rewrite Hr2 in Hr. cbn [run_bind] in Hr.
    destruct (n_idx st2 =? length needle)%nat.
    + injection Hr as <-. congruence.
    + apply IH in Hr; [exact Hr|].
      assert (Hn : n_idx st2 <> 0%nat).
      { intros Hz. rewrite Hz in Hstop.
        assert (0 < length needle)%nat.
        { unfold isspace_at in Hws. destruct needle; [discriminate|cbn; lia]. }
        rewrite Hstop in Hws by lia. discriminate. }
      unfold compare_and_advance.
      destruct (_ && _ && _); cbn [potential_start].
      * apply Nat.eqb_neq in Hn. rewrite Hn. congruence.
      * replace (potential_start st2) with (-1) by congruence.
        reflexivity.
Qed.

Lemma find_leading_whitespace (haystack needle : str) (off : nat) :
  isspace_at needle 0 = true ->
  _find_ignoring_whitespace haystack needle off = Done (-1).
Proof.
  intros Hws.
  destruct (find_ignoring_whitespace_total haystack needle off)
    as (z & Hz & _).
  rewrite Hz. f_equal.
  unfold _find_ignoring_whitespace in Hz.
  destruct needle as [|c needle]; [discriminate|]. cbn [truthy negb] in Hz.
  destruct (find_loop _ _ _ _) as [r|] eqn:Hr; [|discriminate].
  apply (find_loop_no_start _ _ Hws) in Hr; [|reflexivity].
  cbn [run_bind] in Hz. destruct r as [st|z'].
  - destruct (skip_needle_whitespace_done (c :: needle)
                (length (c :: needle)) st) as (st' & Hr' & _ & Hp' & _);
      [lia|].
    rewrite Hr' in Hz. cbn [run_bind] in Hz.
    destruct (n_idx st' =? _)%nat; injection Hz as <-; congruence.
  - injection Hz as <-. exact Hr.
Qed.

(** ** The pages of a chapter *)

Lemma append_page_texts_concat (reader : PdfReader) (page_nums : list Z) :
  forall chapter_text,
    append_page_texts reader page_nums chapter_text =
    chapter_text ++ concat (map (extract_text reader) page_nums).
Proof.
  unfold append_page_texts.
  induction page_nums as [|n l IH]; intros acc; cbn [fold_left map concat].
  - rewrite app_nil_r. reflexivity.
  - rewrite IH. destruct (extract_text reader n) as [|c t]; cbn [truthy].
    + reflexivity.
    + rewrite <- app_assoc. reflexivity.
Qed.

Lemma map_nth_seq_all (A : Type) (d : A) (l : list A) :
  map (fun k => nth k l d) (seq 0 (length l)) = l.
Proof.
  induction l as [|x l IH]; [reflexivity|].
  cbn [length seq map nth]. f_equal.
  rewrite <- seq_shift, map_map. exact IH.
Qed.

Lemma extract_all_pages (reader : PdfReader) :
  map (extract_text reader) (py_range 0 (len (pages reader))) = pages reader.
Proof.
  unfold py_range, extract_text, len. rewrite map_map.
  rewrite Z.sub_0_r, Nat2Z.id.
  transitivity (map (fun k => nth k (pages reader) [])
                  (seq 0 (length (pages reader))));
    [|apply map_nth_seq_all].
  apply map_ext. intros k. rewrite Z.add_0_l, Nat2Z.id. reflexivity.
Qed.

(** ** The collected bookmarks *)

Lemma get_bookmarks_item_sub (items : list outline_item) (level : nat) :
  forall acc,
    _get_bookmarks_item (SubOutline items) level acc =
    _get_bookmarks items (S level) acc.
Proof.
  unfold _get_bookmarks. cbn [_get_bookmarks_item].
  induction items as [|x l IH]; intros acc; [reflexivity|].
  cbn [fold_left]. apply IH.
Qed.

Lemma get_bookmarks_item_In (item : outline_item) :
  forall level acc b,
    In b (_get_bookmarks_item item level acc) <->
    In b acc \/
    exists d title page,
      b = (title, page, (level + d)%nat) /\ item_bookmark item d title page.
Proof.
  induction item as [title page|items IH] using outline_item_induction;
    intros level acc b.
  - destruct page as [p| |]; cbn [_get_bookmarks_item].
    + rewrite in_app_iff. cbn [In]. split.
      * intros [H|[H|[]]]; [left; exact H|]. right.
        exists 0%nat, title, p. rewrite Nat.add_0_r.
        split; [symmetry; exact H | constructor].
      * intros [H|(d & t & p' & -> & H)]; [left; exact H|].
        inversion H; subst. rewrite Nat.add_0_r. right. left. reflexivity.
    + split; [intros H; left; exact H|].
      intros [H|(d & t & p' & _ & H)]; [exact H | inversion H].
    + split; [intros H; left; exact H|].
      intros [H|(d & t & p' & _ & H)]; [exact H | inversion H].
  - rewrite get_bookmarks_item_sub. unfold _get_bookmarks.
    revert acc. induction IH as [|x l Hx _ IHl]; intros acc; cbn [fold_left].
    + split; [intros H; left; exact H|].
      intros [H|(d & t & p & _ & H)]; [exact H|].
      inversion H; subst. contradiction.
    + rewrite IHl, Hx. split.
      * intros [[H|(d & t & p & -> & H)]|(d & t & p & -> & H)].
        -- left; exact H.
        -- right. exists (S d), t, p. split; [f_equal; lia|].
           econstructor; [left; reflexivity | exact H].
        -- right. exists d, t, p. split; [reflexivity|].
           inversion H; subst. econstructor; [right; eassumption | assumption].
      * intros [H|(d & t & p & -> & H)]; [left; left; exact H|].
        inversion H as [|? it d' ? ? Hin Hit]; subst.
        destruct Hin as [<-|Hin].
        -- left. right. exists d', t, p. split; [f_equal; lia | exact Hit].
        -- right. exists (S d'), t, p. split; [reflexivity|].
           econstructor; eassumption.
Qed.

Lemma get_bookmarks_In_from (items : list outline_item) :
  forall level acc b,
    In b (_get_bookmarks items level acc) <->
    In b acc \/
    exists d title page,
      b = (title, page, (level + d)%nat) /\ bookmark_at items d title page.
Proof.
  unfold _get_bookmarks, bookmark_at.
  induction items as [|x l IH]; intros level acc b; cbn [fold_left].
  - split; [intros H; left; exact H|].
    intros [H|(d & t & p & _ & it & [] & _)]. exact H.
  - rewrite IH, get_bookmarks_item_In. split.
    + intros [[H|(d & t & p & -> & H)]|(d & t & p & -> & it & Hin & H)].
      * left; exact H.
      * right. exists d, t, p. split; [reflexivity|].
        exists x. split; [left; reflexivity | exact H].
      * right. exists d, t, p. split; [reflexivity|].
        exists it. split; [right; exact Hin | exact H].
    + intros [H|(d & t & p & -> & it & [<-|Hin] & H)].
      * left; left; exact H.
      * left. right. exists d, t, p. split; [reflexivity | exact H].
      * right. exists d, t, p. split; [reflexivity|].
        exists it. split; assumption.
Qed.

(** The collected bookmarks are the bookmarks of the outline that have a
    page number, each with its nesting depth as level. *)
Lemma get_bookmarks_In (items : list outline_item) (title : str) (page : Z)
    (level : nat) :
  In (title, page, level) (_get_bookmarks items 0 []) <->
  bookmark_at items level title page.
Proof.
  rewrite get_bookmarks_In_from. cbn [In plus]. split.
  - intros [[]|(d & t & p & Heq & H)].
    injection Heq as -> -> ->. exact H.
  - intros H. right. exists level, title, page. split; [reflexivity | exact H].
Qed.

(** ** Sorting by page *)

Lemma insert_by_page_perm (b : bookmark_info) (l : list bookmark_info) :
  Permutation (b :: l) (insert_by_page b l).
Proof.
  induction l as [|x l IH]; cbn [insert_by_page]; [reflexivity|].
  destruct (bookmark_page b <=? bookmark_page x); [reflexivity|].
  rewrite perm_swap. constructor. exact IH.
Qed.

Lemma insert_by_page_sorted (b : bookmark_info) (l : list bookmark_info) :
  StronglySorted (fun a b => bookmark_page a <= bookmark_page b) l ->
  StronglySorted (fun a b => bookmark_page a <= bookmark_page b)
    (insert_by_page b l).
Proof.
  induction 1 as [|x l Hs IH Hx]; cbn [insert_by_page].
  - repeat constructor.
  - destruct (bookmark_page b <=? bookmark_page x) eqn:E.
    + apply Z.leb_le in E. constructor; [constructor; assumption|].
      constructor; [exact E|].
      eapply Forall_impl; [|exact Hx]. cbn. intros; lia.
    + apply Z.leb_gt in E. constructor; [exact IH|].
      apply (Permutation_Forall (insert_by_page_perm b l)).
      constructor; [lia | exact Hx].
Qed.

Lemma insert_by_page_filter (page : Z) (b : bookmark_info)
    (l : list bookmark_info) :
  filter (fun x => bookmark_page x =? page) (insert_by_page b l) =
  filter (fun x => bookmark_page x =? page) (b :: l).
Proof.
  induction l as [|x l IH]; cbn [insert_by_page]; [reflexivity|].
  destruct (bookmark_page b <=? bookmark_page x) eqn:E; [reflexivity|].
  apply Z.leb_gt in E. cbn [filter] in *. rewrite IH.
  destruct (bookmark_page x =? page) eqn:Ex;
    destruct (bookmark_page b =? page) eqn:Eb; try reflexivity.
  apply Z.eqb_eq in Ex, Eb. lia.
Qed.

Lemma sorted_by_page_stable (l : list bookmark_info) :
  stable_sort_by_page l (sorted_by_page l).
Proof.
  unfold stable_sort_by_page, sorted_by_page.
  induction l as [|b l (Hp & Hs & Hf)]; cbn [fold_right].
  - repeat split; constructor.
  - repeat split.
    + rewrite <- insert_by_page_perm. constructor. exact Hp.
    + apply insert_by_page_sorted. exact Hs.
    + intros page. rewrite insert_by_page_filter. cbn [filter].
      rewrite Hf. reflexivity.
Qed.

Lemma sorted_by_page_length (l : list bookmark_info) :
  length (sorted_by_page l) = length l.
Proof.
  symmetry. apply Permutation_length. apply sorted_by_page_stable.
Qed.

(** ** The dictionary of chapters *)

Lemma setitem_fresh (d : OrderedDict) (key : str) (value : chapter) :
  ~ In key (map fst d) -> setitem d key value = d ++ [(key, value)].
Proof.
  induction d as [|[k v] d IH]; intros Hn; cbn [setitem app]; [reflexivity|].
  cbn [map fst In] in Hn.
  destruct (str_eq_dec k key) as [->|Hne]; [tauto|].
  rewrite IH by tauto. reflexivity.
Qed.

Lemma setitem_keys (d : OrderedDict) (key : str) (value : chapter) :
  In key (map fst d) -> map fst (setitem d key value) = map fst d.
Proof.
  induction d as [|[k v] d IH]; intros Hin; cbn [setitem]; [destruct Hin|].
  destruct (str_eq_dec k key) as [->|Hne]; [reflexivity|].
  cbn [map fst] in *. f_equal. apply IH. destruct Hin; [congruence|assumption].
Qed.

Lemma setitem_In_same (d : OrderedDict) (key : str) (value : chapter) :
  In (key, value) (setitem d key value).
Proof.
  induction d as [|[k v] d IH]; cbn [setitem]; [left; reflexivity|].
  destruct (str_eq_dec k key) as [->|Hne]; [left; reflexivity|right; exact IH].
Qed.

Lemma setitem_In_other (d : OrderedDict) (key k' : str) (value v' : chapter) :
  k' <> key -> In (k', v') d -> In (k', v') (setitem d key value).
Proof.
  intros Hne. induction d as [|[k v] d IH]; intros Hin; [destruct Hin|].
  cbn [setitem]. destruct (str_eq_dec k key) as [->|Hk].
  - destruct Hin as [Heq|Hin]; [congruence | right; exact Hin].
  - destruct Hin as [Heq|Hin]; [left; exact Heq | right; auto].
Qed.

Lemma store_all_fresh (kvs : list (str * chapter)) :
  forall d,
    NoDup (map fst d ++ map fst kvs) ->
    fold_left store kvs d = d ++ kvs.
Proof.
  induction kvs as [|[k v] kvs IH]; intros d Hnd; cbn [fold_left].
  - rewrite app_nil_r. reflexivity.
  - cbn [map fst] in Hnd. unfold store at 2. cbn [fst snd].
    rewrite setitem_fresh.
    + rewrite IH; [rewrite <- app_assoc; reflexivity|].
      rewrite map_app. cbn [map fst]. rewrite <- app_assoc. exact Hnd.
    + apply NoDup_remove_2 in Hnd. intros Hin. apply Hnd.
      apply in_or_app. left. exact Hin.
Qed.

Lemma store_all_last (kvs : list (str * chapter)) :
  forall d key value,
    In (key, value) d ->
    ~ In key (map fst kvs) ->
    In (key, value) (fold_left store kvs d).
Proof.
  induction kvs as [|[k v] kvs IH]; intros d key value Hin Hn;
    cbn [fold_left]; [exact Hin|].
  cbn [map fst In] in Hn. apply IH; [|tauto].
  unfold store. cbn [fst snd]. apply setitem_In_other; [|exact Hin].
  intros ->. tauto.
Qed.

(** ** The loop over the bookmarks *)

Lemma refine_text_total (chapter_text title next_title : str) :
  exists refined_text,
    refine_text chapter_text title next_title = Done refined_text.
Proof.
  unfold refine_text. destruct (truthy chapter_text); [|eauto].
  destruct (find_ignoring_whitespace_total chapter_text title 0)
    as (s & -> & _). cbn [run_bind].
  destruct (negb (s =? -1)); [|eauto].
  destruct (truthy next_title); [|eauto].
  destruct (find_ignoring_whitespace_total chapter_text next_title
              (Z.to_nat (s + len title))) as (e & -> & _). cbn [run_bind].
  destruct (negb (e =? -1)); eauto.
Qed.

Lemma chapter_of_bookmark_total (reader : PdfReader)
    (sorted : list bookmark_info) (i : nat) (b : bookmark_info) :
  exists refined_text,
    refine_text
      (extract_chapter_text reader (bookmark_page b)
         (end_page_of reader sorted i))
      (bookmark_title b) (next_title_of sorted i) = Done refined_text /\
    chapter_of_bookmark reader sorted i b =
    Done (bookmark_title b,
          {| text := strip refined_text; level := bookmark_level b |}).
Proof.
  destruct b as [[title page] lvl]. unfold chapter_of_bookmark.
  cbn [bookmark_title bookmark_page bookmark_level fst snd].
  destruct (refine_text_total
              (extract_chapter_text reader page (end_page_of reader sorted i))
              title (next_title_of sorted i)) as (t & Ht).
  exists t. rewrite Ht. split; reflexivity.
Qed.

Lemma chapters_loop_run (reader : PdfReader) (sorted : list bookmark_info) :
  forall rest i chapters,
  exists kvs,
    map (fun kv => (fst kv, level (snd kv))) kvs =
    map (fun b => (bookmark_title b, bookmark_level b)) rest /\
    (forall k b, nth_error rest k = Some b ->
       exists kv, nth_error kvs k = Some kv /\
                  chapter_of_bookmark reader sorted (i + k) b = Done kv) /\
    chapters_loop reader sorted i rest chapters =
    Done (fold_left store kvs chapters).
Proof.
  induction rest as [|b rest IH]; intros i chapters.
  - exists []. repeat split; try reflexivity.
    intros [|k] b H; discriminate.
  - destruct (chapter_of_bookmark_total reader sorted i b) as (t & _ & Hb).
    cbn [chapters_loop]. rewrite Hb. cbn [run_bind fst snd].
    destruct (IH (S i) (setitem chapters (bookmark_title b)
                          {| text := strip t; level := bookmark_level b |}))
      as (kvs & Hk & Hnth & Hrun).
    exists ((bookmark_title b,
             {| text := strip t; level := bookmark_level b |}) :: kvs).
    repeat split.
    + cbn [map fst snd level]. rewrite Hk. reflexivity.
    + intros [|k] b' Hb'; cbn [nth_error] in *.
      * injection Hb' as <-. rewrite Nat.add_0_r. eauto.
      * rewrite Nat.add_succ_r. apply Hnth. exact Hb'.
    + exact Hrun.
Qed.

(** ** The claims on the page ranges *)

(** C1, as stated, fails: the first of two chapters on the pages 0 and 1
    gets the text of both pages, not of page 0 only. *)
Lemma C1_half_open_counterexample : ~ half_open_ranges two_chapters.
Proof.
  intros H. specialize (H 0%nat (lit "A", 0, 0%nat) eq_refl).
  assert (Hin : 0 <= bookmark_page (lit "A", 0, 0%nat)
                  < len (pages two_chapters)) by (cbn; lia).
  specialize (H Hin). vm_compute in H. discriminate H.
Qed.

(** C1, amended.  For every bookmark whose page lies within the document,
    the raw text of its chapter is the text, in page order, of the pages
    from its own page up to and including the page of the next bookmark in
    sorted order (clipped to the document), and up to the last page of the
    document for the last bookmark; a page without text adds nothing. *)
Theorem C1_chapter_pages (reader : PdfReader) (i : nat) (b : bookmark_info) :
  nth_error (sorted_bookmarks reader) i = Some b ->
  0 <= bookmark_page b < len (pages reader) ->
  let end_page := end_page_of reader (sorted_bookmarks reader) i in
  extract_chapter_text reader (bookmark_page b) end_page =
  pages_text reader (bookmark_page b)
    (Z.min (end_page + 1) (len (pages reader))) /\
  (nth_error (sorted_bookmarks reader) (i + 1) = None ->
   extract_chapter_text reader (bookmark_page b) end_page =
   pages_text reader (bookmark_page b) (len (pages reader))).
Proof.
  intros Hb Hin end_page.
  assert (Hfirst :
    extract_chapter_text reader (bookmark_page b) end_page =
    pages_text reader (bookmark_page b)
      (Z.min (end_page + 1) (len (pages reader)))).
  { unfold extract_chapter_text, pages_text.
    destruct (0 <=? bookmark_page b) eqn:E0; [|apply Z.leb_gt in E0; lia].
    destruct (bookmark_page b <? len (pages reader)) eqn:E1;
      [|apply Z.ltb_ge in E1; lia].
    cbn [andb negb].
    destruct (bookmark_page b <? Z.min (end_page + 1) (len (pages reader)))
      eqn:E2.
    - rewrite append_page_texts_concat. reflexivity.
    - apply Z.ltb_ge in E2. unfold py_range.
      replace (Z.to_nat _) with 0%nat by lia. reflexivity. }
  split; [exact Hfirst|].
  intros Hlast. rewrite Hfirst. f_equal.
  unfold end_page, end_page_of. rewrite Hlast. lia.
Qed.

Lemma C1_chapter_pages_witness :
  let end_page :=
    end_page_of two_chapters (sorted_bookmarks two_chapters) 0 in
  extract_chapter_text two_chapters 0 end_page =
  pages_text two_chapters 0 (Z.min (end_page + 1) (len (pages two_chapters)))
  /\
  (nth_error (sorted_bookmarks two_chapters) (0 + 1) = None ->
   extract_chapter_text two_chapters 0 end_page =
   pages_text two_chapters 0 (len (pages two_chapters))).
Proof.
  apply (C1_chapter_pages two_chapters 0 (lit "A", 0, 0%nat)).
  - reflexivity.
  - cbn. lia.
Defined.

(** The example of the specification: bookmarks on the pages 5, 2 and 9. *)
Example range_resolution_5_2_9 (total_pages : list str) :
  let reader :=
    {| outline := [Destination (lit "a") (PageNumber 5);
                   Destination (lit "b") (PageNumber 2);
                   Destination (lit "c") (PageNumber 9)];
       pages := total_pages |} in
  let sorted := sorted_bookmarks reader in
  map bookmark_page sorted = [2; 5; 9] /\
  map (end_page_of reader sorted) [0; 1; 2]%nat = [5; 9; len total_pages].
Proof. split; reflexivity. Qed.

(** ** The document without bookmarks *)

(** C8.  A document without outline whose pages have some text is not an
    error: the result is one chapter, under the title
    "Full Text (No Bookmarks)", at level 0, with the text of all pages. *)
Theorem C8_no_outline_fallback (reader : PdfReader) :
  outline reader = [] ->
  concat (pages reader) <> [] ->
  split_text_by_bookmarks (Readable reader) =
  Done (Some [(lit "Full Text (No Bookmarks)",
               {| text := concat (pages reader); level := 0 |})]).
Proof.
  intros Ho Ht. cbn [split_text_by_bookmarks].
  unfold split_reader_by_bookmarks. rewrite Ho. cbn [truthy negb].
  rewrite append_page_texts_concat, extract_all_pages. cbn [app].
  destruct (concat (pages reader)); [congruence|]. reflexivity.
Qed.

Lemma C8_no_outline_fallback_witness :
  split_text_by_bookmarks
    (Readable {| outline := []; pages := [lit "hello"] |}) =
  Done (Some [(lit "Full Text (No Bookmarks)",
               {| text := lit "hello"; level := 0 |})]).
Proof.
  apply (C8_no_outline_fallback {| outline := []; pages := [lit "hello"] |}).
  - reflexivity.
  - discriminate.
Defined.

(** ** The chapters of a document with bookmarks *)

Lemma setitem_keys_In (d : OrderedDict) (key k : str) (value : chapter) :
  In k (map fst (setitem d key value)) <-> In k (map fst d) \/ k = key.
Proof.
  induction d as [|[k0 v0] d IH]; cbn [setitem map fst In].
  - intuition congruence.
  - destruct (str_eq_dec k0 key) as [->|Hne]; cbn [map fst In].
    + intuition congruence.
    + rewrite IH. intuition congruence.
Qed.

Lemma store_all_keys (kvs : list (str * chapter)) :
  forall d k,
    In k (map fst d) \/ In k (map fst kvs) ->
    In k (map fst (fold_left store kvs d)).
Proof.
  induction kvs as [|[k0 v0] kvs IH]; intros d k H; cbn [fold_left].
  - destruct H as [H|[]]. exact H.
  - apply IH. unfold store. cbn [fst snd map In] in *.
    rewrite setitem_keys_In. intuition congruence.
Qed.

Lemma titles_of_stored (kvs : list (str * chapter))
    (l : list bookmark_info) :
  map (fun kv => (fst kv, level (snd kv))) kvs =
  map (fun b => (bookmark_title b, bookmark_level b)) l ->
  map fst kvs = map bookmark_title l.
Proof.
  intros H. apply (f_equal (map fst)) in H.
  rewrite !map_map in H. exact H.
Qed.

Lemma sorted_bookmarks_nonempty (reader : PdfReader) (i : nat)
    (b : bookmark_info) :
  nth_error (sorted_bookmarks reader) i = Some b ->
  truthy (outline reader) = true /\
  truthy (_get_bookmarks (outline reader) 0 []) = true.
Proof.
  unfold sorted_bookmarks. intros H.
  destruct (outline reader) as [|x l] eqn:Eo.
  - destruct i; discriminate.
  - split; [reflexivity|].
    destruct (_get_bookmarks (x :: l) 0 []); [destruct i; discriminate|].
    reflexivity.
Qed.

Lemma split_reader_with_bookmarks (reader : PdfReader) :
  truthy (outline reader) = true ->
  truthy (_get_bookmarks (outline reader) 0 []) = true ->
  exists kvs,
    map (fun kv => (fst kv, level (snd kv))) kvs =
    map (fun b => (bookmark_title b, bookmark_level b))
      (sorted_bookmarks reader) /\
    (forall k b, nth_error (sorted_bookmarks reader) k = Some b ->
       exists kv, nth_error kvs k = Some kv /\
         chapter_of_bookmark reader (sorted_bookmarks reader) k b = Done kv) /\
    split_text_by_bookmarks (Readable reader) =
    Done (Some (fold_left store kvs [])).
Proof.
  intros Ho Ha. cbn [split_text_by_bookmarks].
  unfold split_reader_by_bookmarks. rewrite Ho, Ha. cbn [negb].
  fold (sorted_bookmarks reader).
  destruct (chapters_loop_run reader (sorted_bookmarks reader)
              (sorted_bookmarks reader) 0 []) as (kvs & Hm & Hn & Hr).
  exists kvs. rewrite Hr. cbn [run_bind]. repeat split; assumption.
Qed.

(** C4, as stated, fails: two bookmarks with the same title give one
    chapter, the dictionary of chapters has one value for a title. *)
Lemma C4_same_title_counterexample :
  ~ one_chapter_per_bookmark same_title_twice.
Proof.
  intros (chapters & Hr & Hl). vm_compute in Hr.
  injection Hr as <-. discriminate Hl.
Qed.

Lemma split_reader_distinct_titles (reader : PdfReader) :
  truthy (outline reader) = true ->
  truthy (_get_bookmarks (outline reader) 0 []) = true ->
  NoDup (map bookmark_title (_get_bookmarks (outline reader) 0 [])) ->
  exists chapters,
    split_text_by_bookmarks (Readable reader) = Done (Some chapters) /\
    length chapters = length (_get_bookmarks (outline reader) 0 []) /\
    map (fun kv => (fst kv, level (snd kv))) chapters =
    map (fun b => (bookmark_title b, bookmark_level b))
      (sorted_bookmarks reader) /\
    forall title c,
      In (title, c) chapters ->
      exists page, bookmark_at (outline reader) (level c) title page.
Proof.
  intros Hto Hta Hnd.
  destruct (split_reader_with_bookmarks reader Hto Hta) as (kvs & Hm & _ & Hr).
  pose proof (sorted_by_page_stable (_get_bookmarks (outline reader) 0 []))
    as (Hp & _ & _).
  fold (sorted_bookmarks reader) in Hp.
  assert (Hkeys : fold_left store kvs [] = kvs).
  { apply (store_all_fresh kvs []). cbn [map app].
    rewrite (titles_of_stored _ _ Hm).
    eapply Permutation_NoDup; [|exact Hnd].
    apply Permutation_map. exact Hp. }
  rewrite Hkeys in Hr. exists kvs. repeat split.
  - exact Hr.
  - rewrite <- (length_map (fun kv => (fst kv, level (snd kv)))), Hm.
    rewrite length_map. symmetry. apply Permutation_length. exact Hp.
  - exact Hm.
  - intros title c Hin.
    apply (in_map (fun kv => (fst kv, level (snd kv)))) in Hin.
    rewrite Hm in Hin. cbn [fst snd] in Hin.
    apply in_map_iff in Hin. destruct Hin as ([[t p] l] & Heq & Hin).
    cbn in Heq. injection Heq as -> <-.
    exists p. apply get_bookmarks_In.
    eapply Permutation_in; [symmetry; exact Hp | exact Hin].
Qed.

(** C4, amended.  For a document with an outline whose bookmarks with a
    page number have different titles, and with [N] such bookmarks:
    [split_text_by_bookmarks] returns [N] chapters (it returns [None] when
    [N = 0]), in the order of the bookmarks sorted by page, each with the
    title of its bookmark and with the nesting depth of that bookmark in
    the outline as level. *)
Theorem C4_chapters_of_bookmarks (reader : PdfReader) :
  outline reader <> [] ->
  NoDup (map bookmark_title (_get_bookmarks (outline reader) 0 [])) ->
  (_get_bookmarks (outline reader) 0 [] = [] /\
   split_text_by_bookmarks (Readable reader) = Done None) \/
  exists chapters,
    split_text_by_bookmarks (Readable reader) = Done (Some chapters) /\
    length chapters = length (_get_bookmarks (outline reader) 0 []) /\
    map (fun kv => (fst kv, level (snd kv))) chapters =
    map (fun b => (bookmark_title b, bookmark_level b))
      (sorted_bookmarks reader) /\
    forall title c,
      In (title, c) chapters ->
      exists page, bookmark_at (outline reader) (level c) title page.
Proof.
  intros Ho Hnd.
  assert (Hto : truthy (outline reader) = true)
    by (destruct (outline reader); [congruence | reflexivity]).
  destruct (_get_bookmarks (outline reader) 0 []) as [|b0 all] eqn:Ea.
  - left. split; [reflexivity|]. cbn [split_text_by_bookmarks].
    unfold split_reader_by_bookmarks. rewrite Hto, Ea. reflexivity.
  - right. rewrite <- Ea in *.
    apply split_reader_distinct_titles; [exact Hto | | exact Hnd].
    rewrite Ea. reflexivity.
Qed.

Lemma C4_chapters_of_bookmarks_witness :
  (_get_bookmarks (outline two_chapters) 0 [] = [] /\
   split_text_by_bookmarks (Readable two_chapters) = Done None) \/
  exists chapters,
    split_text_by_bookmarks (Readable two_chapters) = Done (Some chapters) /\
    length chapters = length (_get_bookmarks (outline two_chapters) 0 []) /\
    map (fun kv => (fst kv, level (snd kv))) chapters =
    map (fun b => (bookmark_title b, bookmark_level b))
      (sorted_bookmarks two_chapters) /\
    forall title c,
      In (title, c) chapters ->
      exists page, bookmark_at (outline two_chapters) (level c) title page.
Proof.
  apply (C4_chapters_of_bookmarks two_chapters).
  - discriminate.
  - vm_compute. repeat constructor; cbn; intuition discriminate.
Defined.

(** The scenario of the specification: "Intro" on page 0, below it "Sub" on
    page 1, and "Chapter 2" on page 3, in a document of 5 pages. *)
Example three_chapters_scenario (p0 p1 p2 p3 p4 : str) :
  let reader :=
    {| outline := [Destination (lit "Intro") (PageNumber 0);
                   SubOutline [Destination (lit "Sub") (PageNumber 1)];
                   Destination (lit "Chapter 2") (PageNumber 3)];
       pages := [p0; p1; p2; p3; p4] |} in
  let sorted := sorted_bookmarks reader in
  sorted = [(lit "Intro", 0, 0%nat); (lit "Sub", 1, 1%nat);
            (lit "Chapter 2", 3, 0%nat)] /\
  map (end_page_of reader sorted) [0; 1; 2]%nat = [1; 3; 5] /\
  exists chapters,
    split_text_by_bookmarks (Readable reader) = Done (Some chapters) /\
    map (fun kv => (fst kv, level (snd kv))) chapters =
    [(lit "Intro", 0%nat); (lit "Sub", 1%nat); (lit "Chapter 2", 0%nat)].
Proof.
  intros reader sorted.
  assert (Hs : sorted = [(lit "Intro", 0, 0%nat); (lit "Sub", 1, 1%nat);
                         (lit "Chapter 2", 3, 0%nat)]) by reflexivity.
  split; [exact Hs|]. split; [reflexivity|].
  destruct (split_reader_distinct_titles reader)
    as (chapters & Hr & _ & Hm & _).
  - reflexivity.
  - reflexivity.
  - vm_compute. repeat constructor; cbn; intuition discriminate.
  - exists chapters. split; [exact Hr|]. rewrite Hm. reflexivity.
Qed.

(** C9, as stated, fails: of two bookmarks with the title "B", the one on
    the page -1 is stored with empty text first, and the one on page 0
    then replaces it; the result has the one chapter "B" with the text
    "x", and no chapter with empty text. *)
Lemma C9_same_title_counterexample :
  ~ empty_chapter_for_page_outside same_title_outside.
Proof.
  intros H.
  assert (Hout : ~ (0 <= bookmark_page (lit "B", -1, 0%nat)
                      < len (pages same_title_outside))) by (cbn; lia).
  destruct (H 0%nat (lit "B", -1, 0%nat) eq_refl Hout)
    as (chapters & c & Hr & Hin & Htext).
  vm_compute in Hr. injection Hr as <-.
  destruct Hin as [Hin|[]].
  apply (f_equal snd) in Hin. cbn [snd] in Hin. subst c.
  discriminate Htext.
Qed.

(** C9, amended.  A bookmark whose page is outside the document is not an
    error:
    [split_text_by_bookmarks] returns the chapters, the turn of the loop for
    this bookmark stores a chapter with empty text under its title, the
    title is a key of the result, and its value is that chapter unless a
    later bookmark has the same title. *)
Theorem C9_page_outside_document (reader : PdfReader) (i : nat)
    (b : bookmark_info) :
  nth_error (sorted_bookmarks reader) i = Some b ->
  ~ (0 <= bookmark_page b < len (pages reader)) ->
  exists chapters,
    split_text_by_bookmarks (Readable reader) = Done (Some chapters) /\
    chapter_of_bookmark reader (sorted_bookmarks reader) i b =
    Done (bookmark_title b, {| text := []; level := bookmark_level b |}) /\
    In (bookmark_title b) (map fst chapters) /\
    ((forall j b', (i < j)%nat ->
        nth_error (sorted_bookmarks reader) j = Some b' ->
        bookmark_title b' <> bookmark_title b) ->
     In (bookmark_title b, {| text := []; level := bookmark_level b |})
        chapters).
Proof.
  intros Hb Hout.
  destruct (sorted_bookmarks_nonempty reader i b Hb) as [Ho Ha].
  destruct (split_reader_with_bookmarks reader Ho Ha) as (kvs & Hm & Hn & Hr).
  exists (fold_left store kvs []). split; [exact Hr|].
  assert (Hc : chapter_of_bookmark reader (sorted_bookmarks reader) i b =
               Done (bookmark_title b,
                     {| text := []; level := bookmark_level b |})).
  { destruct (chapter_of_bookmark_total reader (sorted_bookmarks reader) i b)
      as (t & Ht & Hc).
    rewrite Hc. replace t with (@nil char); [reflexivity|].
    unfold extract_chapter_text in Ht.
    destruct (negb _) eqn:E.
    - cbn in Ht. congruence.
    - apply negb_false_iff, andb_true_iff in E. destruct E as [E0 E1].
      apply Z.leb_le in E0. apply Z.ltb_lt in E1. lia. }
  split; [exact Hc|].
  destruct (Hn i b Hb) as (kv & Hkv & Hckv).
  rewrite Hc in Hckv. injection Hckv as <-.
  split.
  - apply store_all_keys. right.
    apply nth_error_In in Hkv. apply (in_map fst) in Hkv. exact Hkv.
  - intros Hlater.
    destruct (nth_error_split kvs i Hkv) as (kvs1 & kvs2 & Hk & Hlen).
    rewrite Hk, fold_left_app. cbn [fold_left].
    apply store_all_last; [apply setitem_In_same|].
    cbn [fst]. intros Hin.
    apply In_nth_error in Hin. destruct Hin as [n Hin].
    assert (Hj : nth_error (map fst kvs) (i + 1 + n) =
                 Some (bookmark_title b)).
    { rewrite Hk, map_app. cbn [map].
      rewrite nth_error_app2 by (rewrite length_map; lia).
      rewrite length_map, Hlen.
      replace (i + 1 + n - i)%nat with (S n) by lia. exact Hin. }
    rewrite (titles_of_stored _ _ Hm), nth_error_map in Hj.
    destruct (nth_error (sorted_bookmarks reader) (i + 1 + n)) as [b'|] eqn:Eb';
      [|discriminate].
    cbn in Hj. injection Hj as Hj.
    apply (Hlater (i + 1 + n)%nat b'); [lia | exact Eb' | exact Hj].
Qed.

Lemma C9_page_outside_document_witness :
  exists chapters,
    split_text_by_bookmarks (Readable page_outside) = Done (Some chapters) /\
    chapter_of_bookmark page_outside (sorted_bookmarks page_outside) 1
      (lit "B", 7, 0%nat) =
    Done (lit "B", {| text := []; level := 0 |}) /\
    In (lit "B") (map fst chapters) /\
    ((forall j b', (1 < j)%nat ->
        nth_error (sorted_bookmarks page_outside) j = Some b' ->
        bookmark_title b' <> lit "B") ->
     In (lit "B", {| text := []; level := 0 |}) chapters).
Proof.
  apply (C9_page_outside_document page_outside 1 (lit "B", 7, 0%nat)).
  - reflexivity.
  - cbn. lia.
Defined.

(** ** The ranges of the chapters *)

Lemma end_page_of_exclusive (reader : PdfReader)
    (sorted : list bookmark_info) (i : nat) :
  end_page_of reader sorted i = end_page_exclusive reader sorted i.
Proof.
  unfold end_page_of, end_page_exclusive.
  destruct (nth_error sorted (i + 1)) as [next|] eqn:E.
  - symmetry. apply nth_error_nth. rewrite nth_error_map, E. reflexivity.
  - symmetry. apply nth_overflow. rewrite length_map.
    apply nth_error_None. exact E.
Qed.

Lemma extract_chapter_text_range (reader : PdfReader)
    (start_page end_page : Z) :
  extract_chapter_text reader start_page end_page =
  range_text reader start_page (end_page_included reader end_page).
Proof.
  unfold extract_chapter_text, range_text, end_page_included, pages_text.
  destruct ((0 <=? start_page) && (start_page <? len (pages reader)));
    [|reflexivity].
  cbn [negb].
  destruct (start_page <? Z.min (end_page + 1) (len (pages reader))) eqn:E.
  - rewrite append_page_texts_concat. reflexivity.
  - apply Z.ltb_ge in E. unfold py_range.
    replace (Z.to_nat _) with 0%nat by lia. reflexivity.
Qed.

(** C7, as stated, fails on its own example: with bookmarks on the pages 5,
    2 and 9, the chapter of the bookmark on page 2 is made of the pages 2
    to 5, and not of the pages [2,5). *)
Lemma C7_half_open_ranges_counterexample :
  ~ ranges_resolved end_page_excluded pages_5_2_9.
Proof.
  intros (_ & kvs & Hlen & Hr & Hnth).
  destruct (Hnth 0%nat (lit "b", 2, 0%nat) eq_refl) as (t0 & Ht0 & Hk0).
  destruct (Hnth 1%nat (lit "a", 5, 0%nat) eq_refl) as (t1 & Ht1 & Hk1).
  destruct (Hnth 2%nat (lit "c", 9, 0%nat) eq_refl) as (t2 & Ht2 & Hk2).
  vm_compute in Ht0. injection Ht0 as <-.
  vm_compute in Ht1. injection Ht1 as <-.
  vm_compute in Ht2. injection Ht2 as <-.
  destruct kvs as [|kv0 [|kv1 [|kv2 [|kv3 kvs]]]]; try discriminate Hlen.
  cbn [nth_error] in Hk0, Hk1, Hk2.
  injection Hk0 as ->. injection Hk1 as ->. injection Hk2 as ->.
  vm_compute in Hr. discriminate Hr.
Qed.

(** C7, amended.  The collected bookmarks are sorted by page with a stable
    sort: the sorted list is a permutation in ascending page order in which
    the bookmarks of one page keep their order.  For a document with
    bookmarks, [split_text_by_bookmarks] stores one chapter for every
    sorted bookmark, in this order; the chapter of the sorted bookmark [i]
    has [start_page] the page of that bookmark and [end_page] the page of
    the sorted bookmark [i + 1], or the number of pages of the document for
    the last bookmark, and is made of the pages from [start_page] up to and
    including [end_page], as far as the document has pages, and of no page
    when [start_page] is outside the document. *)
Theorem C7_range_resolution (reader : PdfReader) :
  outline reader <> [] ->
  _get_bookmarks (outline reader) 0 [] <> [] ->
  ranges_resolved end_page_included reader.
Proof.
  intros Ho Ha.
  assert (Hto : truthy (outline reader) = true)
    by (destruct (outline reader); [congruence | reflexivity]).
  assert (Hta : truthy (_get_bookmarks (outline reader) 0 []) = true)
    by (destruct (_get_bookmarks (outline reader) 0 []);
        [congruence | reflexivity]).
  split; [apply sorted_by_page_stable|].
  destruct (split_reader_with_bookmarks reader Hto Hta)
    as (kvs & Hm & Hn & Hr).
  exists kvs. split.
  { apply (f_equal (@length _)) in Hm. rewrite !length_map in Hm. exact Hm. }
  split; [exact Hr|].
  intros i b Hb start_page end_page.
  destruct (Hn i b Hb) as (kv & Hkv & Hc).
  destruct (chapter_of_bookmark_total reader (sorted_bookmarks reader) i b)
    as (t & Ht & Hc').
  rewrite Hc' in Hc. injection Hc as <-.
  exists t. split; [|exact Hkv].
  rewrite <- Ht. unfold start_page, end_page.
  rewrite extract_chapter_text_range, end_page_of_exclusive. reflexivity.
Qed.

Lemma C7_range_resolution_witness :
  ranges_resolved end_page_included pages_5_2_9.
Proof.
  apply (C7_range_resolution pages_5_2_9).
  - discriminate.
  - vm_compute. discriminate.
Defined.

(** ** The text between the titles *)

(** C6, as stated, fails when the next bookmark has the empty title: the
    search finds the empty title at the start of the cut, and a cut ending
    there is empty, but the chapter keeps the text to the end. *)
Lemma C6_empty_next_title_counterexample :
  ~ chapters_refined_with title_of_next empty_next_title.
Proof.
  intros H. specialize (H 0%nat (lit "Intro", 0, 0%nat) eq_refl).
  cbv zeta in H.
  destruct H as (c & Hc & s & Hs & _ & Hfound); [vm_compute; discriminate|].
  vm_compute in Hc. injection Hc as <-.
  vm_compute in Hs. injection Hs as <-.
  destruct Hfound as (e & He & Hne & _); [discriminate|].
  vm_compute in He. injection He as <-.
  specialize (Hne ltac:(discriminate)). vm_compute in Hne. discriminate Hne.
Qed.

(** C6, amended.  For every chapter with a non-empty raw text: when its own
    title is found by [_find_ignoring_whitespace], the text of the chapter
    is the slice of the raw text from the found position plus the length of
    the title, up to the position where the title of the next bookmark is
    found when there is a next bookmark, its title is not empty and it is
    found from there, and to the end of the raw text otherwise, stripped;
    when its own title is not found, it is the raw text, stripped. *)
Theorem C6_refinement (reader : PdfReader) (i : nat) (b : bookmark_info) :
  nth_error (sorted_bookmarks reader) i = Some b ->
  let chapter_text :=
    extract_chapter_text reader (bookmark_page b)
      (end_page_of reader (sorted_bookmarks reader) i) in
  chapter_text <> [] ->
  exists c,
    chapter_of_bookmark reader (sorted_bookmarks reader) i b =
    Done (bookmark_title b, c) /\
    refined_between chapter_text (bookmark_title b)
      (marker_of_next (sorted_bookmarks reader) i) (text c).
Proof.
  intros Hb chapter_text Hne.
  destruct (chapter_of_bookmark_total reader (sorted_bookmarks reader) i b)
    as (t & Ht & Hc).
  fold chapter_text in Ht.
  eexists. split; [exact Hc|]. cbn [text].
  unfold refine_text in Ht.
  destruct chapter_text as [|c0 ct] eqn:Ect; [congruence|].
  cbn [truthy] in Ht. rewrite <- Ect in *. clear Ect c0 ct.
  destruct (find_ignoring_whitespace_total chapter_text (bookmark_title b) 0)
    as (s & Hs & _).
  rewrite Hs in Ht. cbn [run_bind] in Ht.
  exists s. split; [exact Hs|].
  destruct (s =? -1) eqn:Es; cbn [negb] in Ht.
  - apply Z.eqb_eq in Es. injection Ht as <-.
    split; [reflexivity | congruence].
  - apply Z.eqb_neq in Es. split; [congruence|]. intros _. cbv zeta.
    unfold marker_of_next. unfold next_title_of in Ht.
    destruct (nth_error (sorted_bookmarks reader) (i + 1)) as [next|].
    + destruct (truthy (bookmark_title next)).
      * destruct (find_ignoring_whitespace_total chapter_text
                    (bookmark_title next)
                    (Z.to_nat (s + len (bookmark_title b))))
          as (e & He & _).
        rewrite He in Ht. cbn [run_bind] in Ht.
        exists e. split; [exact He|].
        destruct (e =? -1) eqn:Ee; cbn [negb] in Ht; injection Ht as <-.
        -- apply Z.eqb_eq in Ee. split; [congruence | reflexivity].
        -- apply Z.eqb_neq in Ee. split; [reflexivity | congruence].
      * injection Ht as <-. reflexivity.
    + cbn [truthy] in Ht. injection Ht as <-. reflexivity.
Qed.

Lemma C6_refinement_witness :
  let chapter_text :=
    extract_chapter_text empty_next_title 0
      (end_page_of empty_next_title (sorted_bookmarks empty_next_title) 0) in
  exists c,
    chapter_of_bookmark empty_next_title (sorted_bookmarks empty_next_title)
      0 (lit "Intro", 0, 0%nat) = Done (lit "Intro", c) /\
    refined_between chapter_text (lit "Intro")
      (marker_of_next (sorted_bookmarks empty_next_title) 0) (text c).
Proof.
  apply (C6_refinement empty_next_title 0 (lit "Intro", 0, 0%nat)).
  - reflexivity.
  - vm_compute. discriminate.
Defined.

(** The example of the specification. *)
Example refinement_real_content :
  refine_text (lit "noise Intro real content Chapter 2 more")
    (lit "Intro") (lit "Chapter 2") = Done (lit " real content ") /\
  strip (lit " real content ") = lit "real content".
Proof. split; vm_compute; reflexivity. Qed.

(** ** The retries of [retry_api_call] *)

Import Utils.

Lemma wait_time_nonneg (random : nat -> Q) (jitter : Q) (n : nat) (d : Q) :
  (0 <= random n <= 1)%Q -> (0 <= jitter <= 1)%Q -> (0 <= d)%Q ->
  Qle_bool 0 (wait_time random jitter n d) = true.
Proof.
  intros [Hr0 Hr1] [Hj0 Hj1] Hd. apply Qle_bool_iff.
  unfold wait_time, uniform.
  assert (H1 : (0 <= jitter * d)%Q) by (apply Qmult_le_0_compat; assumption).
  assert (H2 : (0 <= (jitter * d) * random n)%Q)
    by (apply Qmult_le_0_compat; assumption).
  assert (H3 : (0 <= (1 - jitter) * d)%Q).
  { apply Qmult_le_0_compat; [|assumption].
    unfold Qminus. rewrite <- (Qplus_opp_r jitter).
    apply Qplus_le_l. exact Hj1. }
  setoid_replace
    (d + (- jitter * d + (jitter * d - - jitter * d) * random n))%Q
    with ((1 - jitter) * d + (2 # 1) * ((jitter * d) * random n))%Q by ring.
  apply (Qle_trans _ (0 + 0)%Q); [discriminate|].
  apply Qplus_le_compat; [exact H3|].
  apply Qmult_le_0_compat; [discriminate | exact H2].
Qed.

Section RetryLoop.

Variables (A S : Type).
Variable func : S -> (A + exception) * S.
Variable random : nat -> Q.
Variable max_retries : Z.
Variables initial_delay backoff jitter : Q.
Variable retry_status_codes : list Z.

Local Abbreviation loop :=
  (wrapper_loop A S func random max_retries backoff jitter
     retry_status_codes).

Lemma wrapper_loop_retry (fuel : nat) (retries : Z) (d : Q) (w : effects S)
    (e : exception) (s' : S) :
  retries < max_retries ->
  func (state w) = (inr e, s') ->
  retryable retry_status_codes e = true ->
  Qle_bool 0 (wait_time random jitter (length (sleeps w)) d) = true ->
  loop (Datatypes.S fuel) retries d w =
  loop fuel (retries + 1) (d * backoff)%Q
    {| state := s'; calls := Datatypes.S (calls w);
       sleeps := sleeps w ++
                 [wait_time random jitter (length (sleeps w)) d] |}.
Proof.
  intros Hlt Hf Hr Hw. unfold loop. cbn [wrapper_loop].
  destruct (retries <=? max_retries) eqn:E; [|apply Z.leb_gt in E; lia].
  rewrite Hf.
  destruct e as [c|c|n|]; cbn [retryable] in Hr; try discriminate;
    rewrite Hr; (destruct (retries <? max_retries) eqn:E';
                 [|apply Z.ltb_ge in E'; lia]); rewrite Hw; reflexivity.
Qed.

Lemma wrapper_loop_exhausted (fuel : nat) (d : Q) (w : effects S)
    (e : exception) (s' : S) :
  0 <= max_retries ->
  func (state w) = (inr e, s') ->
  retryable retry_status_codes e = true ->
  loop (Datatypes.S fuel) max_retries d w =
  Done (Raises e, {| state := s'; calls := Datatypes.S (calls w);
                     sleeps := sleeps w |}).
Proof.
  intros _ Hf Hr. unfold loop. cbn [wrapper_loop].
  rewrite Z.leb_refl, Hf.
  destruct e as [c|c|n|]; cbn [retryable] in Hr; try discriminate;
    rewrite Hr, Z.ltb_irrefl; reflexivity.
Qed.

Lemma wrapper_loop_fatal (fuel : nat) (retries : Z) (d : Q) (w : effects S)
    (e : exception) (s' : S) :
  retries <= max_retries ->
  func (state w) = (inr e, s') ->
  retryable retry_status_codes e = false ->
  loop (Datatypes.S fuel) retries d w =
  Done (Raises e, {| state := s'; calls := Datatypes.S (calls w);
                     sleeps := sleeps w |}).
Proof.
  intros Hle Hf Hr. unfold loop. cbn [wrapper_loop].
  destruct (retries <=? max_retries) eqn:E; [|apply Z.leb_gt in E; lia].
  rewrite Hf.
  destruct e as [c|c|n|]; cbn [retryable] in Hr; rewrite ?Hr; reflexivity.
Qed.

(** The fuel of [wrapper] is enough. *)
Lemma wrapper_loop_total :
  forall fuel retries d w,
    max_retries - retries < Z.of_nat fuel ->
    exists r, loop fuel retries d w = Done r.
Proof.
  unfold loop.
  induction fuel as [|fuel IH]; intros retries d w Hf; cbn [wrapper_loop];
    destruct (retries <=? max_retries) eqn:E;
    try (apply Z.leb_le in E; lia); eauto.
  destruct (func (state w)) as [[v|e] s']; [eauto|].
  destruct e as [c|c|n|]; eauto;
    (destruct (status_in c retry_status_codes); [|eauto];
     destruct (retries <? max_retries) eqn:E'; [|eauto];
     destruct (Qle_bool 0 _); [|eauto];
     apply IH; apply Z.ltb_lt in E'; lia).
Qed.

Lemma wrapper_total (s : S) :
  exists r,
    wrapper A S func random max_retries initial_delay backoff jitter
      retry_status_codes s = Done r.
Proof.
  unfold wrapper. apply wrapper_loop_total. lia.
Qed.

End RetryLoop.

(** C3.  With [max_retries = 2]: when the wrapped function fails with a
    retried status at every attempt, it is called 3 times, with two sleeps
    in between, and the failure of the third call is raised (for waiting
    times that are not negative: [random()] in [0, 1], a jitter in [0, 1],
    a delay and a backoff that are not negative); when the first call fails
    with a status that is not retried, without status or with another
    exception, it is called once and that failure is raised at once. *)
Theorem C3_retry_attempts (A S : Type) (func : S -> (A + exception) * S)
    (random : nat -> Q) (initial_delay backoff jitter : Q)
    (retry_status_codes : list Z) :
  let wrapper :=
    wrapper A S func random 2 initial_delay backoff jitter
      retry_status_codes in
  ((forall n, 0 <= random n <= 1)%Q ->
   (0 <= initial_delay)%Q -> (0 <= backoff)%Q -> (0 <= jitter <= 1)%Q ->
   forall s0 e1 s1 e2 s2 e3 s3,
     func s0 = (inr e1, s1) -> retryable retry_status_codes e1 = true ->
     func s1 = (inr e2, s2) -> retryable retry_status_codes e2 = true ->
     func s2 = (inr e3, s3) -> retryable retry_status_codes e3 = true ->
     wrapper s0 =
     Done (Raises e3,
           {| state := s3; calls := 3;
              sleeps := [wait_time random jitter 0 initial_delay;
                         wait_time random jitter 1
                           (initial_delay * backoff)%Q] |})) /\
  (forall s e s',
     func s = (inr e, s') -> retryable retry_status_codes e = false ->
     wrapper s = Done (Raises e, {| state := s'; calls := 1; sleeps := [] |})).
Proof.
  intros wrapper. unfold wrapper, Utils.wrapper.
  change (Z.to_nat (2 + 1)) with 3%nat. split.
  - intros Hr Hd Hb Hj s0 e1 s1 e2 s2 e3 s3 H1 R1 H2 R2 H3 R3.
    assert (Hd1 : (0 <= initial_delay * backoff)%Q)
      by (apply Qmult_le_0_compat; assumption).
    rewrite (wrapper_loop_retry A S func random 2 backoff jitter
               retry_status_codes 2 0 initial_delay _ e1 s1);
      [| lia | exact H1 | exact R1 | apply wait_time_nonneg; auto].
    cbn [state calls sleeps app length].
    rewrite (wrapper_loop_retry A S func random 2 backoff jitter
               retry_status_codes 1 (0 + 1) _ _ e2 s2);
      [| lia | exact H2 | exact R2 | apply wait_time_nonneg; auto].
    cbn [state calls sleeps app length].
    change (0 + 1 + 1) with 2.
    rewrite (wrapper_loop_exhausted A S func random 2 backoff jitter
               retry_status_codes 0 _ _ e3 s3);
      [reflexivity | lia | exact H3 | exact R3].
  - intros s e s' Hf Hr.
    rewrite (wrapper_loop_fatal A S func random 2 backoff jitter
               retry_status_codes 2 0 initial_delay _ e s');
      [reflexivity | lia | exact Hf | exact Hr].
Qed.

Lemma C3_retry_attempts_witness :
  let wrapper :=
    wrapper unit nat unavailable_then_missing (fun _ => 1 # 2) 2 1 2 (1 # 10)
      [500; 502; 503; 504] in
  wrapper 0%nat =
  Done (Raises (HttpError (Some 503)),
        {| state := 3%nat; calls := 3;
           sleeps := [wait_time (fun _ => 1 # 2) (1 # 10) 0 1;
                      wait_time (fun _ => 1 # 2) (1 # 10) 1 (1 * 2)%Q] |}) /\
  wrapper 5%nat =
  Done (Raises (HttpError (Some 404)),
        {| state := 6%nat; calls := 1; sleeps := [] |}).
Proof.
  assert (Hr : forall n : nat, (0 <= (fun _ : nat => 1 # 2) n <= 1)%Q)
    by (intros; split; discriminate).
  assert (Hd : (0 <= 1)%Q) by discriminate.
  assert (Hb : (0 <= 2)%Q) by discriminate.
  assert (Hj : (0 <= 1 # 10 <= 1)%Q) by (split; discriminate).
  pose proof (C3_retry_attempts unit nat unavailable_then_missing
                (fun _ => 1 # 2) 1 2 (1 # 10) [500; 502; 503; 504])
    as [Hretry Hfatal].
  split.
  - pose proof (Hretry Hr Hd Hb Hj 0%nat (HttpError (Some 503)) 1%nat
                  (HttpError (Some 503)) 2%nat (HttpError (Some 503)) 3%nat
                  eq_refl eq_refl eq_refl eq_refl eq_refl eq_refl) as H.
    exact H.
  - pose proof (Hfatal 5%nat (HttpError (Some 404)) 6%nat eq_refl eq_refl)
      as H.
    exact H.
Defined.

(** ** The result of [_find_ignoring_whitespace] *)

Lemma skipn_cons_nth (s : str) :
  forall a x, nth_error s a = Some x -> skipn a s = x :: skipn (S a) s.
Proof.
  induction s as [|c s IH]; intros [|a] x H; try discriminate.
  - injection H as ->. reflexivity.
  - cbn [nth_error] in H. apply IH in H. exact H.
Qed.

Lemma isspace_at_true (s : str) (a : nat) :
  isspace_at s a = true ->
  exists c, nth_error s a = Some c /\ isspace c = true.
Proof.
  unfold isspace_at. destruct (nth_error s a) as [c|]; [eauto|discriminate].
Qed.

Lemma isspace_at_false (s : str) (a : nat) :
  (a < length s)%nat -> isspace_at s a = false ->
  exists c, nth_error s a = Some c /\ isspace c = false.
Proof.
  unfold isspace_at. intros Hlt H.
  destruct (nth_error s a) as [c|] eqn:E; [eauto|].
  apply nth_error_None in E. lia.
Qed.

Lemma collapse_skipn_nonspace (s : str) (a : nat) (x : char) :
  nth_error s a = Some x -> isspace x = false ->
  collapse (skipn a s) = x :: collapse (skipn (S a) s).
Proof.
  intros H Hx. rewrite (skipn_cons_nth s a x H).
  unfold collapse. cbn [filter]. rewrite Hx. reflexivity.
Qed.

Lemma collapse_skipn_whitespace (s : str) :
  forall k a,
    (forall j, (a <= j < a + k)%nat -> isspace_at s j = true) ->
    collapse (skipn a s) = collapse (skipn (a + k) s).
Proof.
  induction k as [|k IH]; intros a H.
  - rewrite Nat.add_0_r. reflexivity.
  - destruct (isspace_at_true s a) as (c & Hc & Hws); [apply H; lia|].
    rewrite (skipn_cons_nth s a c Hc). unfold collapse at 1. cbn [filter].
    rewrite Hws. cbn [negb]. fold (collapse (skipn (S a) s)).
    rewrite IH; [f_equal; f_equal; lia|].
    intros j Hj. apply H. lia.
Qed.

Lemma collapse_skipn_between (s : str) (a b : nat) :
  (a <= b)%nat ->
  (forall j, (a <= j < b)%nat -> isspace_at s j = true) ->
  collapse (skipn a s) = collapse (skipn b s).
Proof.
  intros Hle H. replace b with (a + (b - a))%nat by lia.
  apply collapse_skipn_whitespace. intros j Hj. apply H. lia.
Qed.

Lemma collapse_skipn_length (s : str) (a b : nat) :
  (a <= b)%nat ->
  (length (collapse (skipn b s)) <= length (collapse (skipn a s)))%nat.
Proof.
  intros Hle. replace b with ((b - a) + a)%nat by lia.
  rewrite <- skipn_skipn.
  rewrite <- (firstn_skipn (b - a) (skipn a s)) at 2.
  unfold collapse. rewrite filter_app, length_app. lia.
Qed.

Lemma collapse_skipn_end (s : str) (a : nat) :
  (length s <= a)%nat -> collapse (skipn a s) = [].
Proof.
  intros H. rewrite skipn_all2 by exact H. reflexivity.
Qed.

Lemma collapse_needle_nonempty (needle : str) :
  needle <> [] -> isspace_at needle 0 = false -> collapse needle <> [].
Proof.
  destruct needle as [|c needle]; [congruence|].
  unfold isspace_at. cbn. intros _ ->. discriminate.
Qed.

Lemma same_char_at_spec (a b : str) (i j : nat) (x y : char) :
  nth_error a i = Some x -> nth_error b j = Some y ->
  same_char_at a i b j = true <-> x = y.
Proof.
  intros Ha Hb. unfold same_char_at. rewrite Ha, Hb.
  destruct (char_eq_dec x y); split; congruence.
Qed.

Lemma no_match_beyond (haystack needle : str) (q : nat) :
  (length haystack <= q)%nat -> ~ matches_at haystack needle q.
Proof.
  intros Hq (Hne & _ & rest & Hr).
  rewrite collapse_skipn_end in Hr by exact Hq.
  symmetry in Hr. apply app_eq_nil in Hr. tauto.
Qed.

Lemma no_match_at_whitespace (haystack needle : str) (q : nat) :
  isspace_at haystack q = true -> ~ matches_at haystack needle q.
Proof.
  intros Hq (_ & Hn & _). congruence.
Qed.

(** One turn of the scan keeps [find_inv]. *)
Lemma compare_and_advance_inv (haystack needle : str) (off : nat)
    (st st1 st2 : find_state) :
  needle <> [] -> isspace_at needle 0 = false ->
  find_inv haystack needle off st ->
  (* after the whitespace of the haystack *)
  n_idx st1 = n_idx st -> potential_start st1 = potential_start st ->
  (h_idx st <= h_idx st1 < length haystack)%nat ->
  (forall j, (h_idx st <= j < h_idx st1)%nat -> isspace_at haystack j = true) ->
  isspace_at haystack (h_idx st1) = false ->
  (* after the whitespace of the needle *)
  h_idx st2 = h_idx st1 -> potential_start st2 = potential_start st1 ->
  (n_idx st1 <= n_idx st2 < length needle)%nat ->
  (forall j, (n_idx st1 <= j < n_idx st2)%nat -> isspace_at needle j = true) ->
  isspace_at needle (n_idx st2) = false ->
  find_inv haystack needle off (compare_and_advance haystack needle st2).
Proof.
  intros Hne Hhead (Hn & Hoff & Hinv) Hn1 Hp1 Hh1 Hws1 Hstop1
    Hh2 Hp2 Hn2 Hws2 Hstop2.
  destruct (isspace_at_false haystack (h_idx st1)) as (x & Hx & Hxs);
    [lia | exact Hstop1 |].
  destruct (isspace_at_false needle (n_idx st2)) as (y & Hy & Hys);
    [lia | exact Hstop2 |].
  pose proof (collapse_skipn_between haystack (h_idx st) (h_idx st1)
                ltac:(lia) Hws1) as HCH.
  pose proof (collapse_skipn_between needle (n_idx st1) (n_idx st2)
                ltac:(lia) Hws2) as HCN.
  rewrite (collapse_skipn_nonspace haystack (h_idx st1) x Hx Hxs) in HCH.
  rewrite (collapse_skipn_nonspace needle (n_idx st2) y Hy Hys) in HCN.
  rewrite Hn1 in HCN.
  unfold compare_and_advance. rewrite Hh2, Hp2, Hp1.
  destruct (h_idx st1 <? length haystack)%nat eqn:E1;
    [|apply Nat.ltb_ge in E1; lia].
  destruct (n_idx st2 <? length needle)%nat eqn:E2;
    [|apply Nat.ltb_ge in E2; lia].
  cbn [andb].
  pose proof (same_char_at_spec haystack needle (h_idx st1) (n_idx st2) x y
                Hx Hy) as Hsame.
  destruct (same_char_at haystack (h_idx st1) needle (n_idx st2)) eqn:Ec.
  - (* the characters are the same *)
    assert (x = y) by (apply Hsame; reflexivity). subst y.
    destruct Hinv as [(Hp & Hn0 & Hno)|(p0 & M & Hp & Hp0 & Hsp & Hn1' & HM & HN & Hno)].
    + assert (Hz : n_idx st2 = 0%nat).
      { destruct (n_idx st2) as [|k] eqn:Ek; [reflexivity|].
        rewrite (Hws2 0%nat) in Hhead by lia. discriminate. }
      rewrite Hz. cbn [Nat.eqb]. split; [cbn; lia|]. split; [cbn; lia|].
      right. exists (h_idx st1), [x]. cbn [h_idx n_idx potential_start].
      repeat split; try lia.
      * exact Hstop1.
      * apply (collapse_skipn_nonspace haystack (h_idx st1) x Hx Hxs).
      * rewrite Hn0 in HCN. cbn [skipn] in HCN. rewrite Hz in HCN. exact HCN.
      * intros q Hq. destruct (Nat.lt_ge_cases q (h_idx st)) as [Hlt|Hge].
        -- apply Hno. lia.
        -- apply no_match_at_whitespace. apply Hws1. lia.
    + destruct (n_idx st2 =? 0)%nat eqn:Ez; [apply Nat.eqb_eq in Ez; lia|].
      split; [cbn; lia|]. split; [cbn; lia|].
      right. exists p0, (M ++ [x]). cbn [h_idx n_idx potential_start].
      repeat split; try lia; try assumption.
      * rewrite HM, HCH, <- app_assoc. reflexivity.
      * rewrite HN, HCN, <- app_assoc. reflexivity.
  - (* mismatch *)
    assert (Hxy : x <> y) by (intros ->; destruct Hsame as [_ H]; discriminate H; reflexivity).
    destruct Hinv as [(Hp & Hn0 & Hno)|(p0 & M & Hp & Hp0 & Hsp & Hn1' & HM & HN & Hno)].
    + rewrite Hp. cbn [Z.eqb Pos.eqb negb].
      split; [cbn; lia|]. split; [cbn; lia|].
      left. cbn [h_idx n_idx potential_start]. repeat split; try assumption.
      intros q Hq. destruct (Nat.lt_ge_cases q (h_idx st)) as [Hlt|Hge];
        [apply Hno; lia|].
      destruct (Nat.eq_dec q (h_idx st1)) as [->|Hneq];
        [|apply no_match_at_whitespace, Hws1; lia].
      intros (_ & _ & rest & Hr).
      assert (Hz : n_idx st2 = 0%nat).
      { destruct (n_idx st2) as [|k] eqn:Ek; [reflexivity|].
        rewrite (Hws2 0%nat) in Hhead by lia. discriminate. }
      rewrite Hn0 in HCN. cbn [skipn] in HCN.
      rewrite (collapse_skipn_nonspace haystack (h_idx st1) x Hx Hxs) in Hr.
      rewrite HCN in Hr. cbn [app] in Hr. congruence.
    + destruct (Z.of_nat p0 =? -1) eqn:E0; [apply Z.eqb_eq in E0; lia|].
      rewrite Hp, E0. cbn [negb]. rewrite Nat2Z.id.
      split; [cbn; lia|]. split; [cbn; lia|].
      left. cbn [h_idx n_idx potential_start]. repeat split.
      intros q Hq. destruct (Nat.eq_dec q p0) as [->|Hneq];
        [|apply Hno; lia].
      intros (_ & _ & rest & Hr).
      rewrite HM, HN, HCH, HCN, <- app_assoc in Hr.
      apply app_inv_head in Hr. cbn [app] in Hr. congruence.
Qed.

Lemma find_loop_inv (haystack needle : str) (off : nat) :
  needle <> [] -> isspace_at needle 0 = false ->
  forall fuel st r,
    find_inv haystack needle off st ->
    find_loop fuel haystack needle st = Done r ->
    match r with
    | Returned z => first_match_or_not_found haystack needle off z
    | LoopEnded st' =>
        find_inv haystack needle off st' /\
        (length haystack <= h_idx st')%nat
    end.
Proof.
  intros Hne Hhead. induction fuel as [|fuel IH]; intros st r Hinv Hr;
    cbn [find_loop] in Hr;
    destruct (h_idx st <? length haystack)%nat eqn:E;
    try discriminate;
    try (injection Hr as <-; apply Nat.ltb_ge in E; split; assumption).
  apply Nat.ltb_lt in E.
  destruct (skip_haystack_whitespace_done haystack (length haystack) st)
    as (st1 & Hr1 & Hn1 & Hp1 & Hle1 & Hin1 & Hws1 & Hstop1); [lia|].
  rewrite Hr1 in Hr. cbn [run_bind] in Hr.
  pose proof (collapse_skipn_between haystack (h_idx st) (h_idx st1)
                Hle1 Hws1) as HCH.
  destruct (h_idx st1 =? length haystack)%nat eqn:E1.
  - (* the haystack ends in whitespace *)
    apply Nat.eqb_eq in E1. injection Hr as <-. split; [|lia].
    destruct Hinv as (Hn & Hoff & Hinv).
    split; [lia|]. split; [lia|]. rewrite Hn1, Hp1.
    destruct Hinv as [(Hp & Hn0 & Hno)|(p0 & M & Hp & Hp0 & Hsp & Hn1' & HM & HN & Hno)].
    + left. repeat split; try assumption.
      intros q Hq. destruct (Nat.lt_ge_cases q (h_idx st)) as [Hlt|Hge];
        [apply Hno; lia | apply no_match_at_whitespace, Hws1; lia].
    + right. exists p0, M. repeat split; try assumption; try lia.
      rewrite <- HCH. exact HM.
  - apply Nat.eqb_neq in E1.
    assert (Hlt1 : (h_idx st1 < length haystack)%nat)
      by (specialize (Hin1 ltac:(lia)); lia).
    destruct (skip_needle_whitespace_done needle (length needle) st1)
      as (st2 & Hr2 & Hh2 & Hp2 & Hle2 & Hin2 & Hws2 & Hstop2); [lia|].
    rewrite Hr2 in Hr. cbn [run_bind] in Hr.
    pose proof (collapse_skipn_between needle (n_idx st1) (n_idx st2)
                  Hle2 Hws2) as HCN.
    destruct Hinv as (Hn & Hoff & Hinv).
    destruct (n_idx st2 =? length needle)%nat eqn:E2.
    + (* the needle is used up *)
      apply Nat.eqb_eq in E2. injection Hr as <-.
      rewrite Hp2, Hp1.
      rewrite E2, (collapse_skipn_end needle (length needle)) in HCN
        by lia.
      rewrite Hn1 in HCN.
      destruct Hinv as [(Hp & Hn0 & Hno)|(p0 & M & Hp & Hp0 & Hsp & Hn1' & HM & HN & Hno)].
      * exfalso. rewrite Hn0 in HCN. cbn [skipn] in HCN.
        apply (collapse_needle_nonempty needle Hne Hhead). exact HCN.
      * right. exists p0. repeat split; try assumption; try lia.
        -- apply collapse_needle_nonempty; assumption.
        -- exists (collapse (skipn (h_idx st) haystack)).
           rewrite HM, HN, HCN, app_nil_r. reflexivity.
    + apply Nat.eqb_neq in E2.
      apply IH in Hr; [exact Hr|].
      apply (compare_and_advance_inv haystack needle off st st1 st2);
        try assumption; try lia.
      * repeat split; assumption.
      * apply Hstop1. exact Hlt1.
      * apply Hstop2. lia.
Qed.

(** For a needle that does not begin with whitespace,
    [_find_ignoring_whitespace] returns the first position at or after the
    offset where the needle occurs, whitespace ignored, and [-1] when it
    occurs nowhere from the offset on. *)
Lemma find_ignoring_whitespace_first_match (haystack needle : str)
    (off : nat) :
  needle <> [] -> isspace_at needle 0 = false ->
  exists z,
    _find_ignoring_whitespace haystack needle off = Done z /\
    first_match_or_not_found haystack needle off z.
Proof.
  intros Hne Hhead.
  destruct (find_ignoring_whitespace_total haystack needle off)
    as (z & Hz & _).
  exists z. split; [exact Hz|].
  unfold _find_ignoring_whitespace in Hz.
  assert (Ht : truthy needle = true)
    by (destruct needle; [congruence | reflexivity]).
  rewrite Ht in Hz. cbn [negb] in Hz.
  destruct (find_loop _ _ _ _) as [r|] eqn:Hr; [|discriminate].
  cbn [run_bind] in Hz.
  apply (find_loop_inv haystack needle off Hne Hhead) in Hr.
  2:{ split; [cbn; lia|]. split; [cbn; lia|]. left. cbn.
      repeat split. intros q Hq. lia. }
  destruct r as [st|z']; [|injection Hz as <-; exact Hr].
  destruct Hr as ((Hn & Hoff & Hinv) & Hend).
  destruct (skip_needle_whitespace_done needle (length needle) st)
    as (st' & Hr' & Hh' & Hp' & Hle' & Hin' & Hws' & Hstop'); [lia|].
  rewrite Hr' in Hz. cbn [run_bind] in Hz.
  pose proof (collapse_skipn_between needle (n_idx st) (n_idx st')
                Hle' Hws') as HCN.
  pose proof (collapse_skipn_end haystack (h_idx st) Hend) as HCH.
  destruct (n_idx st' =? length needle)%nat eqn:E.
  - apply Nat.eqb_eq in E. injection Hz as <-. rewrite Hp'.
    rewrite E, (collapse_skipn_end needle (length needle)) in HCN by lia.
    destruct Hinv as [(Hp & Hn0 & Hno)|(p0 & M & Hp & Hp0 & Hsp & Hn1' & HM & HN & Hno)].
    + exfalso. rewrite Hn0 in HCN. cbn [skipn] in HCN.
      apply (collapse_needle_nonempty needle Hne Hhead). exact HCN.
    + right. exists p0. repeat split; try assumption; try lia.
      * apply collapse_needle_nonempty; assumption.
      * exists []. rewrite HM, HN, HCN, HCH, !app_nil_r. reflexivity.
  - apply Nat.eqb_neq in E. injection Hz as <-. left.
    split; [reflexivity|].
    destruct Hinv as [(Hp & Hn0 & Hno)|(p0 & M & Hp & Hp0 & Hsp & Hn1' & HM & HN & Hno)].
    + intros q Hq. destruct (Nat.lt_ge_cases q (h_idx st)) as [Hlt|Hge];
        [apply Hno; lia | apply no_match_beyond; lia].
    + intros q Hq. destruct (Nat.lt_ge_cases q p0) as [Hlt|Hge];
        [apply Hno; lia|].
      intros (_ & _ & rest & Hrest).
      pose proof (collapse_skipn_length haystack p0 q Hge) as Hlen.
      rewrite Hrest, HM, HN, HCH, HCN in Hlen.
      assert (Hlt' : (n_idx st' < length needle)%nat)
        by (specialize (Hin' Hn); lia).
      destruct (isspace_at_false needle (n_idx st') Hlt' (Hstop' Hlt'))
        as (y & Hy & Hys).
      rewrite (collapse_skipn_nonspace needle (n_idx st') y Hy Hys) in Hlen.
      rewrite !length_app in Hlen. cbn [length] in Hlen. lia.
Qed.

(** The empty needle is found at the offset. *)
Lemma find_empty_needle (haystack : str) (start_offset : nat) :
  _find_ignoring_whitespace haystack [] start_offset =
  Done (Z.of_nat start_offset).
Proof. reflexivity. Qed.

(** The examples of the specification. *)
Example find_examples :
  _find_ignoring_whitespace (lit "a  b") (lit "ab") 0 = Done 0 /\
  _find_ignoring_whitespace (lit "abc") (lit "") 2 = Done 2 /\
  _find_ignoring_whitespace (lit "abc") (lit "z") 0 = Done (-1).
Proof. repeat split; vm_compute; reflexivity. Qed.

(** C5.  The needle " ab" occurs in the haystack "ab" at position 0 when
    whitespace is ignored, and [_find_ignoring_whitespace] returns [-1]
    there: the start of an attempt is recorded at [n_idx == 0] only, which
    the scan has left when the needle begins with whitespace. *)
Theorem C5_leading_whitespace_needle :
  matches_at (lit "ab") (lit " ab") 0 /\
  _find_ignoring_whitespace (lit "ab") (lit " ab") 0 = Done (-1).
Proof.
  split.
  - split; [vm_compute; discriminate|]. split; [reflexivity|].
    exists []. reflexivity.
  - apply find_leading_whitespace. reflexivity.
Qed.

(** C10.  For a non-empty needle of whitespace only,
    [_find_ignoring_whitespace] returns [-1], for every haystack and offset,
    whereas the empty needle gives the offset. *)
Theorem C10_whitespace_only_needle (haystack needle : str)
    (start_offset : nat) :
  needle <> [] ->
  Forall (fun c => isspace c = true) needle ->
  _find_ignoring_whitespace haystack needle start_offset = Done (-1) /\
  _find_ignoring_whitespace haystack [] start_offset =
  Done (Z.of_nat start_offset).
Proof.
  intros Hne Hws. split; [|reflexivity].
  apply find_leading_whitespace.
  destruct needle as [|c needle]; [congruence|].
  inversion Hws; subst. unfold isspace_at. cbn. assumption.
Qed.

Lemma C10_whitespace_only_needle_witness :
  _find_ignoring_whitespace (lit "abc") (lit "  ") 1 = Done (-1) /\
  _find_ignoring_whitespace (lit "abc") [] 1 = Done 1.
Proof.
  apply (C10_whitespace_only_needle (lit "abc") (lit "  ") 1).
  - discriminate.
  - repeat constructor.
Defined.

(** * Further properties *)

(** ** More on [_find_ignoring_whitespace] *)

Lemma match_inside (haystack needle : str) (p : nat) :
  matches_at haystack needle p -> (p < length haystack)%nat.
Proof.
  intros H. destruct (Nat.lt_ge_cases p (length haystack)) as [Hlt|Hge];
    [exact Hlt|].
  exfalso. exact (no_match_beyond haystack needle p Hge H).
Qed.

Lemma first_match_or_not_found_unique (haystack needle : str) (off : nat)
    (z1 z2 : Z) :
  first_match_or_not_found haystack needle off z1 ->
  first_match_or_not_found haystack needle off z2 ->
  z1 = z2.
Proof.
  intros [[-> H1]|(p1 & -> & Ho1 & Hm1 & Hf1)]
         [[-> H2]|(p2 & -> & Ho2 & Hm2 & Hf2)].
  - reflexivity.
  - exfalso. exact (H1 p2 Ho2 Hm2).
  - exfalso. exact (H2 p1 Ho1 Hm1).
  - f_equal. destruct (Nat.lt_trichotomy p1 p2) as [H|[H|H]].
    + exfalso. apply (Hf2 p1); [lia | exact Hm1].
    + exact H.
    + exfalso. apply (Hf1 p2); [lia | exact Hm2].
Qed.

(** X1.  For a needle that does not begin with whitespace, the search
    returns the first position at or after the offset where the needle
    occurs with whitespace ignored: whenever the needle occurs at some
    position from the offset on, the least such position is returned, and
    [-1] is returned exactly when there is none. *)
Theorem find_returns_first_match (haystack needle : str) (off : nat) :
  needle <> [] -> isspace_at needle 0 = false ->
  exists z,
    _find_ignoring_whitespace haystack needle off = Done z /\
    (forall p, (off <= p)%nat -> matches_at haystack needle p ->
       exists first,
         z = Z.of_nat first /\ (off <= first <= p)%nat /\
         matches_at haystack needle first /\
         forall q, (off <= q < first)%nat -> ~ matches_at haystack needle q) /\
    (z = -1 <->
     forall q, (off <= q)%nat -> ~ matches_at haystack needle q).
Proof.
  intros Hne Hhead.
  destruct (find_ignoring_whitespace_first_match haystack needle off
              Hne Hhead) as (z & Hz & Hspec).
  exists z. split; [exact Hz|]. split.
  - intros p Hp Hm.
    destruct Hspec as [[_ Hno]|(first & -> & Ho & Hmf & Hf)].
    + exfalso. exact (Hno p Hp Hm).
    + exists first.
      assert (Hle : (first <= p)%nat).
      { destruct (Nat.le_gt_cases first p) as [Hle|Hgt]; [exact Hle|].
        exfalso. apply (Hf p); [lia | exact Hm]. }
      split; [reflexivity|]. split; [lia|]. split; assumption.
  - split.
    + intros ->. destruct Hspec as [[_ Hno]|(first & Hf & _)];
        [exact Hno | lia].
    + intros Hno. destruct Hspec as [[-> _]|(first & _ & Ho & Hm & _)];
        [reflexivity|].
      exfalso. exact (Hno first Ho Hm).
Qed.

Lemma find_returns_first_match_witness :
  exists z,
    _find_ignoring_whitespace (lit "x a ab c") (lit "a b c ") 1 = Done z /\
    (forall p, (1 <= p)%nat -> matches_at (lit "x a ab c") (lit "a b c ") p ->
       exists first,
         z = Z.of_nat first /\ (1 <= first <= p)%nat /\
         matches_at (lit "x a ab c") (lit "a b c ") first /\
         forall q, (1 <= q < first)%nat ->
                   ~ matches_at (lit "x a ab c") (lit "a b c ") q) /\
    (z = -1 <->
     forall q, (1 <= q)%nat -> ~ matches_at (lit "x a ab c") (lit "a b c ") q).
Proof.
  apply (find_returns_first_match (lit "x a ab c") (lit "a b c ") 1).
  - discriminate.
  - reflexivity.
Defined.

(** X2.  A needle that begins with whitespace is never found, whatever the
    haystack and the offset; in particular such a string is not found in
    itself. *)
Theorem find_misses_needle_with_leading_whitespace (haystack needle : str)
    (off : nat) :
  isspace_at needle 0 = true ->
  _find_ignoring_whitespace haystack needle off = Done (-1) /\
  _find_ignoring_whitespace needle needle 0 = Done (-1).
Proof.
  intros H. split; apply find_leading_whitespace; exact H.
Qed.

Lemma find_misses_needle_with_leading_whitespace_witness :
  _find_ignoring_whitespace (lit "1. Intro") (lit " 1. Intro") 0 = Done (-1) /\
  _find_ignoring_whitespace (lit " 1. Intro") (lit " 1. Intro") 0 = Done (-1).
Proof.
  apply (find_misses_needle_with_leading_whitespace
           (lit "1. Intro") (lit " 1. Intro") 0).
  reflexivity.
Defined.

(** X3.  What the search returns for any needle: the offset for the empty
    needle; otherwise [-1] or a position of the haystack, at or after the
    offset, where the needle does occur with whitespace ignored. *)
Theorem find_result_is_a_match (haystack needle : str) (off : nat) :
  exists z,
    _find_ignoring_whitespace haystack needle off = Done z /\
    (needle = [] -> z = Z.of_nat off) /\
    (needle <> [] ->
     z = -1 \/
     exists p,
       z = Z.of_nat p /\ (off <= p < length haystack)%nat /\
       matches_at haystack needle p).
Proof.
  destruct needle as [|c needle].
  - exists (Z.of_nat off). split; [reflexivity|].
    split; [reflexivity | congruence].
  - destruct (isspace_at (c :: needle) 0) eqn:Hhead.
    + exists (-1). split; [apply find_leading_whitespace; exact Hhead|].
      split; [discriminate | intros _; left; reflexivity].
    + destruct (find_ignoring_whitespace_first_match haystack (c :: needle)
                  off ltac:(discriminate) Hhead) as (z & Hz & Hspec).
      exists z. split; [exact Hz|]. split; [discriminate|]. intros _.
      destruct Hspec as [[-> _]|(p & -> & Ho & Hm & _)];
        [left; reflexivity|].
      right. exists p. pose proof (match_inside _ _ _ Hm).
      split; [reflexivity|]. split; [lia | exact Hm].
Qed.

(** X4.  Whitespace inside and after the needle does not matter: two
    needles that do not begin with whitespace and are equal once their
    whitespace is removed give the same result. *)
Theorem find_ignores_needle_whitespace (haystack needle1 needle2 : str)
    (off : nat) :
  needle1 <> [] -> isspace_at needle1 0 = false ->
  needle2 <> [] -> isspace_at needle2 0 = false ->
  collapse needle1 = collapse needle2 ->
  _find_ignoring_whitespace haystack needle1 off =
  _find_ignoring_whitespace haystack needle2 off.
Proof.
  intros Hne1 Hh1 Hne2 Hh2 Hc.
  destruct (find_ignoring_whitespace_first_match haystack needle1 off
              Hne1 Hh1) as (z1 & Hz1 & Hs1).
  destruct (find_ignoring_whitespace_first_match haystack needle2 off
              Hne2 Hh2) as (z2 & Hz2 & Hs2).
  rewrite Hz1, Hz2. f_equal.
  apply (first_match_or_not_found_unique haystack needle2 off);
    [|exact Hs2].
  unfold first_match_or_not_found, matches_at in *.
  rewrite <- Hc. exact Hs1.
Qed.

Lemma find_ignores_needle_whitespace_witness :
  _find_ignoring_whitespace (lit "see Chapter2 now") (lit "Chapter 2") 0 =
  _find_ignoring_whitespace (lit "see Chapter2 now") (lit "Chap ter2 ") 0.
Proof.
  apply (find_ignores_needle_whitespace (lit "see Chapter2 now")
           (lit "Chapter 2") (lit "Chap ter2 ") 0);
    try discriminate; reflexivity.
Defined.

Lemma find_result_is_a_match_witness :
  exists z,
    _find_ignoring_whitespace (lit "a  b") (lit "ab") 0 = Done z /\
    (lit "ab" = [] -> z = 0) /\
    (lit "ab" <> [] ->
     z = -1 \/
     exists p,
       z = Z.of_nat p /\ (0 <= p < length (lit "a  b"))%nat /\
       matches_at (lit "a  b") (lit "ab") p).
Proof.
  exact (find_result_is_a_match (lit "a  b") (lit "ab") 0).
Defined.

(** ** More on [split_text] *)

Lemma split_text_loop_count (text : str) (m : Z) :
  0 < m ->
  forall fuel start chunks,
    0 <= start <= len text ->
    (len text - start <= Z.of_nat fuel) ->
    exists rest,
      split_text_loop fuel text m start chunks = Done (chunks ++ rest) /\
      Z.of_nat (length rest) = (len text - start + m - 1) / m /\
      forall k, (S k < length rest)%nat -> len (nth k rest []) = m.
Proof.
  intros Hm. induction fuel as [|fuel IH]; intros start chunks Hs Hf.
  - assert (start = len text) by lia. subst start.
    exists []. cbn. rewrite Z.ltb_irrefl, app_nil_r.
    split; [reflexivity|]. split.
    + replace (len text - len text + m - 1) with (m - 1) by lia.
      rewrite Z.div_small by lia. reflexivity.
    + intros k Hk. inversion Hk.
  - cbn [split_text_loop].
    destruct (start <? len text) eqn:E.
    + apply Z.ltb_lt in E.
      set (e := Z.min (start + m) (len text)).
      assert (He : start < e <= len text) by (unfold e; lia).
      destruct (IH e (chunks ++ [slice text start e]))
        as (rest & Hr & Hc & Hlen); [lia | lia |].
      exists (slice text start e :: rest).
      split; [rewrite Hr, <- app_assoc; reflexivity|].
      assert (Hsl : len (slice text start e) = e - start).
      { rewrite slice_inside by lia. unfold len in *.
        rewrite length_firstn, length_skipn. lia. }
      split.
      * cbn [length]. rewrite Nat2Z.inj_succ, Hc.
        destruct (Z.eq_dec e (len text)) as [Heq|Hneq].
        -- rewrite Heq.
           replace (len text - len text + m - 1) with (m - 1) by lia.
           rewrite Z.div_small by lia.
           replace (len text - start + m - 1)
             with ((len text - start - 1) + 1 * m) by lia.
           rewrite Z.div_add by lia.
           rewrite Z.div_small by (unfold e in *; lia). reflexivity.
        -- assert (e = start + m) by (unfold e in *; lia).
           replace (len text - start + m - 1)
             with ((len text - e + m - 1) + 1 * m) by lia.
           rewrite Z.div_add by lia. lia.
      * intros [|k] Hk; cbn [nth length] in *.
        -- rewrite Hsl.
           destruct (Z.eq_dec e (len text)) as [Heq|Hneq];
             [|unfold e in *; lia].
           exfalso. rewrite Heq in Hc.
           replace (len text - len text + m - 1) with (m - 1) in Hc by lia.
           rewrite Z.div_small in Hc by lia. lia.
        -- apply Hlen. lia.
    + apply Z.ltb_ge in E.
      exists []. rewrite app_nil_r. split; [reflexivity|]. split.
      * assert (start = len text) by lia. subst start.
        replace (len text - len text + m - 1) with (m - 1) by lia.
        rewrite Z.div_small by lia. reflexivity.
      * intros k Hk. inversion Hk.
Qed.

(** X5.  For a non-empty text and a positive size, [split_text] returns
    [ceil(len(text) / max_chunk_size)] chunks, none of them empty, and every
    chunk but the last has exactly [max_chunk_size] characters. *)
Theorem split_text_chunk_count (text : str) (max_chunk_size : Z) :
  text <> [] -> 0 < max_chunk_size ->
  exists chunks,
    split_text text max_chunk_size = Done chunks /\
    Z.of_nat (length chunks) =
    (len text + max_chunk_size - 1) / max_chunk_size /\
    Forall (fun c => c <> []) chunks /\
    forall k, (S k < length chunks)%nat ->
      len (nth k chunks []) = max_chunk_size.
Proof.
  intros Hne Hm. unfold split_text.
  destruct text as [|c text]; [congruence|]. cbn [truthy negb].
  destruct (max_chunk_size <=? 0) eqn:E; [apply Z.leb_le in E; lia|].
  destruct (split_text_loop_count (c :: text) max_chunk_size Hm
              (length (c :: text)) 0 [])
    as (rest & Hr & Hc & Hlen); [unfold len; lia | unfold len; lia |].
  destruct (split_text_loop_spec (c :: text) max_chunk_size Hm
              (length (c :: text)) 0 [])
    as (rest' & Hr' & _ & Hall & _); [unfold len; lia | unfold len; lia |].
  rewrite Hr in Hr'. injection Hr' as <-. cbn [app] in Hr.
  exists rest. split; [exact Hr|]. split; [|split].
  - rewrite Hc, Z.sub_0_r. reflexivity.
  - eapply Forall_impl; [|exact Hall]. cbn.
    intros a Ha ->. cbn in Ha. lia.
  - exact Hlen.
Qed.

Lemma split_text_chunk_count_witness :
  exists chunks,
    split_text (lit "abcdefg") 3 = Done chunks /\
    Z.of_nat (length chunks) = (len (lit "abcdefg") + 3 - 1) / 3 /\
    Forall (fun c => c <> []) chunks /\
    forall k, (S k < length chunks)%nat -> len (nth k chunks []) = 3.
Proof.
  apply (split_text_chunk_count (lit "abcdefg") 3); [discriminate | lia].
Defined.

(** X6.  [split_text] returns for every text and every size, and it returns
    no chunk exactly when the text is empty or the size is not positive. *)
Theorem split_text_no_chunk (text : str) (max_chunk_size : Z) :
  (exists chunks, split_text text max_chunk_size = Done chunks) /\
  (split_text text max_chunk_size = Done [] <->
   text = [] \/ max_chunk_size <= 0).
Proof.
  destruct text as [|c text].
  - split; [exists []; reflexivity|]. split; [auto | reflexivity].
  - destruct (Z_le_gt_dec max_chunk_size 0) as [Hle|Hgt].
    + assert (H : split_text (c :: text) max_chunk_size = Done []).
      { unfold split_text. cbn [truthy negb].
        destruct (max_chunk_size <=? 0) eqn:E; [reflexivity|].
        apply Z.leb_gt in E. lia. }
      split; [exists []; exact H|]. split; [auto | intros _; exact H].
    + destruct (split_text_loop_spec (c :: text) max_chunk_size
                  ltac:(lia) (length (c :: text)) 0 [])
        as (rest & Hr & Hc & _); [unfold len; lia | unfold len; lia |].
      assert (H : split_text (c :: text) max_chunk_size = Done rest).
      { unfold split_text. cbn [truthy negb].
        destruct (max_chunk_size <=? 0) eqn:E;
          [apply Z.leb_le in E; lia | exact Hr]. }
      split; [exists rest; exact H|]. split.
      * intros H'. rewrite H in H'. injection H' as ->.
        cbn in Hc. discriminate Hc.
      * intros [Hnil|Hle]; [discriminate | lia].
Qed.

(** ** More on the dictionary of chapters *)

Lemma setitem_keys_fresh (d : OrderedDict) (key : str) (value : chapter) :
  ~ In key (map fst d) ->
  map fst (setitem d key value) = map fst d ++ [key].
Proof.
  intros H. rewrite setitem_fresh by exact H.
  rewrite map_app. reflexivity.
Qed.

Lemma store_all_key_list (kvs : list (str * chapter)) :
  forall d,
    map fst (fold_left store kvs d) =
    fold_left
      (fun seen t => if in_dec str_eq_dec t seen then seen else seen ++ [t])
      (map fst kvs) (map fst d).
Proof.
  induction kvs as [|[k v] kvs IH]; intros d; cbn [fold_left map fst];
    [reflexivity|].
  rewrite IH. unfold store. cbn [fst snd]. f_equal.
  destruct (in_dec str_eq_dec k (map fst d)) as [Hin|Hnin].
  - apply setitem_keys. exact Hin.
  - apply setitem_keys_fresh. exact Hnin.
Qed.

Lemma keep_first_facts (titles : list str) :
  forall seen,
    NoDup seen ->
    let r := fold_left
               (fun seen t =>
                  if in_dec str_eq_dec t seen then seen else seen ++ [t])
               titles seen in
    NoDup r /\
    (forall t, In t r <-> In t seen \/ In t titles) /\
    (length r <= length seen + length titles)%nat.
Proof.
  induction titles as [|t titles IH]; intros seen Hnd; cbn [fold_left].
  - cbn. repeat split; auto; try tauto; try lia.
  - destruct (in_dec str_eq_dec t seen) as [Hin|Hnin].
    + destruct (IH seen Hnd) as (H1 & H2 & H3). cbv zeta in *.
      split; [exact H1|]. split.
      * intros x. rewrite H2. cbn [In]. intuition (subst; auto).
      * cbn [length]. lia.
    + assert (Hnd' : NoDup (seen ++ [t])).
      { apply NoDup_app; [exact Hnd | repeat constructor; cbn; tauto |].
        intros a Ha [<-|[]]. exact (Hnin Ha). }
      destruct (IH (seen ++ [t]) Hnd') as (H1 & H2 & H3). cbv zeta in *.
      split; [exact H1|]. split.
      * intros x. rewrite H2, in_app_iff. cbn [In]. intuition (subst; auto).
      * rewrite length_app in H3. cbn [length] in *. lia.
Qed.

Lemma setitem_In_inv (d : OrderedDict) (key k : str) (value v : chapter) :
  NoDup (map fst d) ->
  In (k, v) (setitem d key value) ->
  (k = key /\ v = value) \/ (k <> key /\ In (k, v) d).
Proof.
  induction d as [|[k0 v0] d IH]; intros Hnd Hin; cbn [setitem] in Hin.
  - destruct Hin as [Heq|[]]. injection Heq as <- <-. left. split; reflexivity.
  - cbn [map fst] in Hnd. inversion Hnd as [|? ? Hnotin Hnd']; subst.
    destruct (str_eq_dec k0 key) as [->|Hne].
    + destruct Hin as [Heq|Hin].
      * injection Heq as <- <-. left. split; reflexivity.
      * right. split; [|right; exact Hin].
        intros ->. apply Hnotin. apply (in_map fst) in Hin. exact Hin.
    + destruct Hin as [Heq|Hin].
      * injection Heq as <- <-. right. split; [exact Hne | left; reflexivity].
      * destruct (IH Hnd' Hin) as [H|[H1 H2]]; [left; exact H|].
        right. split; [exact H1 | right; exact H2].
Qed.

Lemma store_keys_nodup (d : OrderedDict) (kv : str * chapter) :
  NoDup (map fst d) -> NoDup (map fst (store d kv)).
Proof.
  intros Hnd. unfold store.
  destruct (in_dec str_eq_dec (fst kv) (map fst d)) as [Hin|Hnin].
  - rewrite setitem_keys by exact Hin. exact Hnd.
  - rewrite setitem_keys_fresh by exact Hnin.
    apply NoDup_app; [exact Hnd | repeat constructor; cbn; tauto |].
    intros a Ha [<-|[]]. exact (Hnin Ha).
Qed.

(** What is in the dictionary after the stores [kvs]: an old entry whose
    key is stored no more, or the last store of a key. *)
Lemma store_all_In_inv (kvs : list (str * chapter)) :
  forall d k v,
    NoDup (map fst d) ->
    In (k, v) (fold_left store kvs d) ->
    (In (k, v) d /\ ~ In k (map fst kvs)) \/
    (exists i,
       nth_error kvs i = Some (k, v) /\
       forall j kv', (i < j)%nat -> nth_error kvs j = Some kv' ->
                     fst kv' <> k).
Proof.
  induction kvs as [|[k0 v0] kvs IH]; intros d k v Hnd Hin;
    cbn [fold_left] in Hin.
  - left. split; [exact Hin | intros []].
  - destruct (IH _ k v (store_keys_nodup d (k0, v0) Hnd) Hin)
      as [[Hd Hnot]|(i & Hi & Hlater)].
    + unfold store in Hd. cbn [fst snd] in Hd.
      destruct (setitem_In_inv d k0 k v0 v Hnd Hd) as [[-> ->]|[Hne Hd']].
      * right. exists 0%nat. split; [reflexivity|].
        intros [|j] kv' Hj Hkv'; [lia|]. cbn [nth_error] in Hkv'.
        intros Heq. apply Hnot. rewrite <- Heq.
        apply nth_error_In in Hkv'. apply (in_map fst) in Hkv'. exact Hkv'.
      * left. split; [exact Hd'|]. cbn [map fst In]. intros [Heq|H];
          [congruence | exact (Hnot H)].
    + right. exists (S i). split; [exact Hi|].
      intros [|j] kv' Hj Hkv'; [lia|]. cbn [nth_error] in Hkv'.
      apply (Hlater j kv'); [lia | exact Hkv'].
Qed.

Lemma store_all_In (kvs : list (str * chapter)) (i : nat)
    (kv : str * chapter) :
  forall d,
    nth_error kvs i = Some kv ->
    (forall j kv', (i < j)%nat -> nth_error kvs j = Some kv' ->
                   fst kv' <> fst kv) ->
    In kv (fold_left store kvs d).
Proof.
  intros d Hi Hlater.
  destruct (nth_error_split kvs i Hi) as (kvs1 & kvs2 & Hk & Hlen).
  rewrite Hk, fold_left_app. cbn [fold_left].
  destruct kv as [k v].
  apply store_all_last; [apply setitem_In_same|].
  cbn [fst] in *. intros Hin.
  apply In_nth_error in Hin. destruct Hin as [n Hn].
  rewrite nth_error_map in Hn.
  destruct (nth_error kvs2 n) as [kv'|] eqn:En; [|discriminate].
  cbn in Hn. injection Hn as Hn.
  apply (Hlater (i + 1 + n)%nat kv'); [lia | | exact Hn].
  rewrite Hk, nth_error_app2 by lia.
  replace (i + 1 + n - length kvs1)%nat with (S n) by lia. exact En.
Qed.

(** ** More on [split_text_by_bookmarks] *)

Lemma split_reader_result (reader : PdfReader) :
  (outline reader = [] /\
   split_text_by_bookmarks (Readable reader) =
   Done (if truthy (concat (pages reader))
         then Some [(fallback_title,
                     {| text := concat (pages reader); level := 0 |})]
         else None)) \/
  (outline reader <> [] /\ _get_bookmarks (outline reader) 0 [] = [] /\
   split_text_by_bookmarks (Readable reader) = Done None) \/
  (outline reader <> [] /\ _get_bookmarks (outline reader) 0 [] <> [] /\
   exists kvs,
     kvs <> [] /\
     map (fun kv => (fst kv, level (snd kv))) kvs =
     map (fun b => (bookmark_title b, bookmark_level b))
       (sorted_bookmarks reader) /\
     (forall k b, nth_error (sorted_bookmarks reader) k = Some b ->
        exists kv, nth_error kvs k = Some kv /\
          chapter_of_bookmark reader (sorted_bookmarks reader) k b = Done kv) /\
     split_text_by_bookmarks (Readable reader) =
     Done (Some (fold_left store kvs []))).
Proof.
  destruct (outline reader) as [|o os] eqn:Eo.
  - left. split; [reflexivity|]. cbn [split_text_by_bookmarks].
    unfold split_reader_by_bookmarks. rewrite Eo. cbn [truthy negb].
    rewrite append_page_texts_concat, extract_all_pages. cbn [app].
    destruct (concat (pages reader)); reflexivity.
  - right. rewrite <- Eo.
    assert (Hto : truthy (outline reader) = true) by (rewrite Eo; reflexivity).
    assert (Hno : outline reader <> []) by (rewrite Eo; discriminate).
    destruct (_get_bookmarks (outline reader) 0 []) as [|b0 all] eqn:Ea.
    + left. split; [exact Hno|]. split; [reflexivity|].
      cbn [split_text_by_bookmarks]. unfold split_reader_by_bookmarks.
      rewrite Hto, Ea. reflexivity.
    + right. split; [exact Hno|]. split; [discriminate|].
      destruct (split_reader_with_bookmarks reader Hto)
        as (kvs & Hm & Hn & Hr); [rewrite Ea; reflexivity|].
      exists kvs. repeat split; try assumption.
      intros ->. cbn [map] in Hm. symmetry in Hm. apply map_eq_nil in Hm.
      pose proof (sorted_by_page_length (b0 :: all)) as Hl.
      unfold sorted_bookmarks in Hm. rewrite Ea in Hm. rewrite Hm in Hl.
      discriminate Hl.
Qed.

Lemma stored_nonempty (kvs : list (str * chapter)) :
  kvs <> [] -> fold_left store kvs [] <> [].
Proof.
  destruct kvs as [|[k v] kvs]; [congruence|]. intros _ H.
  assert (Hin : In k (map fst (fold_left store ((k, v) :: kvs) [])))
    by (apply store_all_keys; right; left; reflexivity).
  rewrite H in Hin. destruct Hin.
Qed.

(** X7.  [split_text_by_bookmarks] returns for every path; it returns
    [None] exactly when the file cannot be read, or the document has no
    outline and no text, or an outline without any bookmark that has a page
    number; a returned dictionary is never empty. *)
Theorem split_text_by_bookmarks_returns (path : pdf_path) :
  exists result,
    split_text_by_bookmarks path = Done result /\
    (forall chapters, result = Some chapters -> chapters <> []) /\
    (result = None <->
     match path with
     | Readable reader =>
         (outline reader = [] /\ concat (pages reader) = []) \/
         (outline reader <> [] /\
          forall level title page,
            ~ bookmark_at (outline reader) level title page)
     | _ => True
     end).
Proof.
  destruct path as [| | |reader];
    try (exists None; split; [reflexivity|];
         split; [discriminate | tauto]).
  destruct (split_reader_result reader)
    as [[Ho Hr]|[(Ho & Ha & Hr)|(Ho & Ha & kvs & Hk & _ & _ & Hr)]];
    rewrite Hr; eexists; (split; [reflexivity|]).
  - destruct (concat (pages reader)) as [|c t] eqn:Ec; cbn [truthy].
    + split; [discriminate|]. split; [intros _; left; tauto | reflexivity].
    + split; [intros ch Hch; injection Hch as <-; discriminate|].
      split; [discriminate|]. intros [[_ H]|[H _]]; congruence.
  - split; [discriminate|]. split; [|reflexivity]. intros _. right.
    split; [exact Ho|]. intros l t p Hb.
    apply get_bookmarks_In in Hb. rewrite Ha in Hb. destruct Hb.
  - split; [intros ch Hch; injection Hch as <-; apply stored_nonempty;
            exact Hk|].
    split; [discriminate|]. intros [[H _]|[_ H]]; [congruence|].
    exfalso. destruct (_get_bookmarks (outline reader) 0 [])
      as [|[[t p] l] all] eqn:Ea; [congruence|].
    apply (H l t p). apply get_bookmarks_In. rewrite Ea. left. reflexivity.
Qed.

Lemma split_text_by_bookmarks_returns_witness :
  exists result,
    split_text_by_bookmarks (Readable same_title_twice) = Done result /\
    (forall chapters, result = Some chapters -> chapters <> []) /\
    (result = None <->
     (outline same_title_twice = [] /\ concat (pages same_title_twice) = []) \/
     (outline same_title_twice <> [] /\
      forall level title page,
        ~ bookmark_at (outline same_title_twice) level title page)).
Proof.
  exact (split_text_by_bookmarks_returns (Readable same_title_twice)).
Defined.

(** X8.  The keys of the dictionary that [split_text_by_bookmarks] returns
    for a document with an outline are the titles of the bookmarks with a
    page number, each once, in the order of their first occurrence in page
    order; so there are at most as many chapters as such bookmarks. *)
Theorem chapter_keys (reader : PdfReader) (chapters : OrderedDict) :
  outline reader <> [] ->
  split_text_by_bookmarks (Readable reader) = Done (Some chapters) ->
  map fst chapters =
  first_occurrences (map bookmark_title (sorted_bookmarks reader)) /\
  NoDup (map fst chapters) /\
  (forall title,
     In title (map fst chapters) <->
     exists page level,
       In (title, page, level) (_get_bookmarks (outline reader) 0 [])) /\
  (length chapters <= length (_get_bookmarks (outline reader) 0 []))%nat.
Proof.
  intros Hout Hres.
  destruct (split_reader_result reader)
    as [[Ho _]|[(_ & _ & Hr)|(_ & _ & kvs & _ & Hm & _ & Hr)]];
    [congruence | congruence |].
  rewrite Hr in Hres. injection Hres as <-.
  pose proof (store_all_key_list kvs []) as Hkeys.
  rewrite (titles_of_stored _ _ Hm) in Hkeys. cbn [map] in Hkeys.
  fold (first_occurrences (map bookmark_title (sorted_bookmarks reader)))
    in Hkeys.
  split; [exact Hkeys|].
  destruct (keep_first_facts (map bookmark_title (sorted_bookmarks reader))
              [] (NoDup_nil _)) as (H1 & H2 & H3).
  cbv zeta in H1, H2, H3.
  fold (first_occurrences (map bookmark_title (sorted_bookmarks reader)))
    in H1, H2, H3.
  rewrite <- Hkeys in H1, H2, H3.
  pose proof (sorted_by_page_stable (_get_bookmarks (outline reader) 0 []))
    as (Hp & _ & _).
  fold (sorted_bookmarks reader) in Hp.
  split; [exact H1|]. split.
  - intros title. rewrite H2. cbn [In]. split.
    + intros [[]|Hin]. apply in_map_iff in Hin.
      destruct Hin as ([[t p] l] & Heq & Hin). cbn in Heq. subst t.
      exists p, l. eapply Permutation_in; [symmetry; exact Hp | exact Hin].
    + intros (p & l & Hin). right.
      apply (in_map bookmark_title) in Hin. cbn in Hin.
      eapply Permutation_in; [apply Permutation_map; exact Hp | exact Hin].
  - rewrite length_map in H3. cbn [length] in H3.
    rewrite length_map in H3.
    rewrite (Permutation_length Hp). lia.
Qed.

Lemma chapter_keys_witness :
  map fst [(lit "A", {| text := lit "y"; level := 0 |})] =
  first_occurrences (map bookmark_title (sorted_bookmarks same_title_twice)) /\
  NoDup (map fst [(lit "A", {| text := lit "y"; level := 0 |})]) /\
  (forall title,
     In title (map fst [(lit "A", {| text := lit "y"; level := 0 |})]) <->
     exists page level,
       In (title, page, level)
          (_get_bookmarks (outline same_title_twice) 0 [])) /\
  (length [(lit "A", {| text := lit "y"; level := 0 |})] <=
   length (_get_bookmarks (outline same_title_twice) 0 []))%nat.
Proof.
  apply (chapter_keys same_title_twice).
  - discriminate.
  - vm_compute. reflexivity.
Defined.

(** X9.  What the dictionary of a document with bookmarks holds: exactly
    the chapters computed for the bookmarks that are the last, in page
    order, with their title; the chapter of an earlier bookmark with the
    same title is overwritten. *)
Theorem chapter_of_last_bookmark (reader : PdfReader)
    (chapters : OrderedDict) (kv : str * chapter) :
  outline reader <> [] ->
  split_text_by_bookmarks (Readable reader) = Done (Some chapters) ->
  (In kv chapters <->
   exists i b,
     nth_error (sorted_bookmarks reader) i = Some b /\
     chapter_of_bookmark reader (sorted_bookmarks reader) i b = Done kv /\
     forall j b', (i < j)%nat ->
       nth_error (sorted_bookmarks reader) j = Some b' ->
       bookmark_title b' <> bookmark_title b).
Proof.
  intros Hout Hres.
  destruct (split_reader_result reader)
    as [[Ho _]|[(_ & _ & Hr)|(_ & _ & kvs & _ & Hm & Hn & Hr)]];
    [congruence | congruence |].
  rewrite Hr in Hres. injection Hres as <-.
  pose proof (titles_of_stored _ _ Hm) as Ht.
  assert (Hnth : forall j kv',
            nth_error kvs j = Some kv' ->
            exists b', nth_error (sorted_bookmarks reader) j = Some b' /\
                       bookmark_title b' = fst kv').
  { intros j kv' Hj. apply (f_equal (fun l => nth_error l j)) in Ht.
    rewrite !nth_error_map, Hj in Ht. cbn in Ht.
    destruct (nth_error (sorted_bookmarks reader) j) as [b'|];
      [|discriminate].
    exists b'. split; [reflexivity|]. cbn in Ht. congruence. }
  split.
  - intros Hin. destruct kv as [k v].
    destruct (store_all_In_inv kvs [] k v (NoDup_nil _) Hin)
      as [[[] _]|(i & Hi & Hlater)].
    destruct (Hnth i _ Hi) as (b & Hb & Hbt). cbn [fst] in Hbt.
    exists i, b. split; [exact Hb|].
    destruct (Hn i b Hb) as (kv' & Hkv' & Hc).
    rewrite Hi in Hkv'. injection Hkv' as <-. split; [exact Hc|].
    intros j b' Hj Hb'. destruct (Hn j b' Hb') as (kv' & Hkv' & Hc').
    pose proof (Hlater j kv' Hj Hkv') as Hneq.
    destruct (chapter_of_bookmark_total reader (sorted_bookmarks reader) j b')
      as (t & _ & Hc''). rewrite Hc'' in Hc'. injection Hc' as <-.
    cbn [fst] in Hneq. congruence.
  - intros (i & b & Hb & Hc & Hlater).
    destruct (Hn i b Hb) as (kv' & Hkv' & Hc').
    rewrite Hc in Hc'. injection Hc' as <-.
    apply (store_all_In kvs i kv []); [exact Hkv'|].
    intros j kv' Hj Hkv''.
    destruct (Hnth j kv' Hkv'') as (b' & Hb' & Hbt').
    destruct (Hnth i kv Hkv') as (b0 & Hb0 & Hbt0).
    rewrite Hb in Hb0. injection Hb0 as <-.
    rewrite <- Hbt', <- Hbt0. exact (Hlater j b' Hj Hb').
Qed.

Lemma chapter_of_last_bookmark_witness :
  In (lit "A", {| text := lit "y"; level := 0 |})
     [(lit "A", {| text := lit "y"; level := 0 |})] <->
  exists i b,
    nth_error (sorted_bookmarks same_title_twice) i = Some b /\
    chapter_of_bookmark same_title_twice (sorted_bookmarks same_title_twice)
      i b = Done (lit "A", {| text := lit "y"; level := 0 |}) /\
    forall j b', (i < j)%nat ->
      nth_error (sorted_bookmarks same_title_twice) j = Some b' ->
      bookmark_title b' <> bookmark_title b.
Proof.
  apply (chapter_of_last_bookmark same_title_twice).
  - discriminate.
  - vm_compute. reflexivity.
Defined.

(** *** Stripped texts *)

Lemma lstrip_head (s : str) (c : char) (r : str) :
  lstrip s = c :: r -> isspace c = false.
Proof.
  induction s as [|x s IH]; cbn [lstrip]; [discriminate|].
  destruct (isspace x) eqn:E; [exact IH|].
  intros H. injection H as <- _. exact E.
Qed.

Lemma lstrip_of_head (c : char) (r : str) :
  isspace c = false -> lstrip (c :: r) = c :: r.
Proof. intros H. cbn [lstrip]. rewrite H. reflexivity. Qed.

Lemma lstrip_suffix (s : str) : exists before, s = before ++ lstrip s.
Proof.
  induction s as [|x s [before IH]]; cbn [lstrip]; [exists []; reflexivity|].
  destruct (isspace x).
  - exists (x :: before). cbn [app]. f_equal. exact IH.
  - exists []. reflexivity.
Qed.

Lemma lstrip_snoc (l : str) (c : char) :
  isspace c = false -> exists l', lstrip (l ++ [c]) = l' ++ [c].
Proof.
  intros H. induction l as [|x l [l' IH]]; cbn [lstrip app].
  - rewrite H. exists []. reflexivity.
  - destruct (isspace x); [exists l'; exact IH|].
    exists (x :: l). reflexivity.
Qed.

Lemma rstrip_last (s l : str) (c : char) :
  rstrip s = l ++ [c] -> isspace c = false.
Proof.
  unfold rstrip. intros H. apply (f_equal (@rev char)) in H.
  rewrite rev_involutive, rev_app_distr in H. cbn [rev app] in H.
  exact (lstrip_head _ _ _ H).
Qed.

Lemma rstrip_prefix (s : str) : exists after, s = rstrip s ++ after.
Proof.
  unfold rstrip. destruct (lstrip_suffix (rev s)) as [before H].
  exists (rev before). rewrite <- rev_app_distr, <- H, rev_involutive.
  reflexivity.
Qed.

Lemma rstrip_head (s : str) (c : char) (r : str) :
  (forall c' r', s = c' :: r' -> isspace c' = false) ->
  rstrip s = c :: r -> isspace c = false.
Proof.
  intros Hs H. destruct s as [|x s]; [discriminate H|].
  pose proof (Hs x s eq_refl) as Hx.
  unfold rstrip in H. cbn [rev] in H.
  destruct (lstrip_snoc (rev s) x Hx) as [l' Hl]. rewrite Hl in H.
  rewrite rev_app_distr in H. cbn [rev app] in H. injection H as <- _.
  exact Hx.
Qed.

Lemma strip_clean (s : str) :
  (forall c r, strip s = c :: r -> isspace c = false) /\
  (forall l c, strip s = l ++ [c] -> isspace c = false) /\
  part_of (strip s) s.
Proof.
  unfold strip. split; [|split].
  - intros c r H. apply (rstrip_head (lstrip s) c r); [|exact H].
    intros c' r' H'. exact (lstrip_head _ _ _ H').
  - intros l c H. exact (rstrip_last _ _ _ H).
  - destruct (lstrip_suffix s) as [before Hb].
    destruct (rstrip_prefix (lstrip s)) as [after Ha].
    exists before, after. rewrite <- Ha. exact Hb.
Qed.

Lemma part_of_trans (a b c : str) : part_of a b -> part_of b c -> part_of a c.
Proof.
  intros (p1 & q1 & ->) (p2 & q2 & ->).
  exists (p2 ++ p1), (q1 ++ q2). rewrite <- !app_assoc. reflexivity.
Qed.

Lemma part_of_refl (a : str) : part_of a a.
Proof. exists [], []. rewrite app_nil_r. reflexivity. Qed.

Lemma skipn_part (n : nat) (s : str) : part_of (skipn n s) s.
Proof.
  exists (firstn n s), []. rewrite app_nil_r. symmetry. apply firstn_skipn.
Qed.

Lemma firstn_part (n : nat) (s : str) : part_of (firstn n s) s.
Proof. exists [], (skipn n s). symmetry. apply firstn_skipn. Qed.

Lemma slice_part (s : str) (a b : Z) : part_of (slice s a b) s.
Proof.
  unfold slice. eapply part_of_trans; [apply firstn_part | apply skipn_part].
Qed.

Lemma slice_from_part (s : str) (a : Z) : part_of (slice_from s a) s.
Proof. unfold slice_from. apply skipn_part. Qed.

Lemma refine_text_part (chapter_text title next_title refined : str) :
  refine_text chapter_text title next_title = Done refined ->
  part_of refined chapter_text.
Proof.
  unfold refine_text. destruct (truthy chapter_text);
    [|intros H; injection H as <-; apply part_of_refl].
  destruct (_find_ignoring_whitespace chapter_text title 0) as [s|];
    [|discriminate]. cbn [run_bind].
  destruct (negb (s =? -1));
    [|intros H; injection H as <-; apply part_of_refl].
  destruct (truthy next_title);
    [|intros H; injection H as <-; apply slice_from_part].
  destruct (_find_ignoring_whitespace chapter_text next_title _) as [e|];
    [|discriminate]. cbn [run_bind].
  destruct (negb (e =? -1)); intros H; injection H as <-;
    [apply slice_part | apply slice_from_part].
Qed.

(** X10.  In the dictionary of a document with an outline, no text begins
    or ends with whitespace, and every text is a contiguous part of the
    text of the pages of a bookmark with its title: nothing is added to the
    text of the pages. *)
Theorem chapter_texts_are_stripped_parts (reader : PdfReader)
    (chapters : OrderedDict) (title : str) (c : chapter) :
  outline reader <> [] ->
  split_text_by_bookmarks (Readable reader) = Done (Some chapters) ->
  In (title, c) chapters ->
  (forall x r, text c = x :: r -> isspace x = false) /\
  (forall l x, text c = l ++ [x] -> isspace x = false) /\
  exists i b,
    nth_error (sorted_bookmarks reader) i = Some b /\
    bookmark_title b = title /\ bookmark_level b = level c /\
    part_of (text c)
      (extract_chapter_text reader (bookmark_page b)
         (end_page_of reader (sorted_bookmarks reader) i)).
Proof.
  intros Hout Hres Hin.
  destruct (split_reader_result reader)
    as [[Ho _]|[(_ & _ & Hr)|(_ & _ & kvs & _ & Hm & Hn & Hr)]];
    [congruence | congruence |].
  rewrite Hr in Hres. injection Hres as <-.
  destruct (store_all_In_inv kvs [] title c (NoDup_nil _) Hin)
    as [[[] _]|(i & Hi & _)].
  pose proof (titles_of_stored _ _ Hm) as Ht.
  apply (f_equal (fun l => nth_error l i)) in Ht.
  rewrite !nth_error_map, Hi in Ht. cbn in Ht.
  destruct (nth_error (sorted_bookmarks reader) i) as [b|] eqn:Hb;
    [|discriminate].
  destruct (Hn i b Hb) as (kv & Hkv & Hc).
  rewrite Hi in Hkv. injection Hkv as <-.
  destruct (chapter_of_bookmark_total reader (sorted_bookmarks reader) i b)
    as (t & Href & Hc').
  rewrite Hc' in Hc. injection Hc as <- <-. cbn [text level].
  destruct (strip_clean t) as (H1 & H2 & H3).
  split; [exact H1|]. split; [exact H2|].
  exists i, b. split; [exact Hb|]. split; [reflexivity|].
  split; [reflexivity|].
  eapply part_of_trans; [exact H3|].
  exact (refine_text_part _ _ _ _ Href).
Qed.

Lemma chapter_texts_are_stripped_parts_witness :
  let c := {| text := lit "y"; level := 0 |} in
  (forall x r, text c = x :: r -> isspace x = false) /\
  (forall l x, text c = l ++ [x] -> isspace x = false) /\
  exists i b,
    nth_error (sorted_bookmarks same_title_twice) i = Some b /\
    bookmark_title b = lit "A" /\ bookmark_level b = level c /\
    part_of (text c)
      (extract_chapter_text same_title_twice (bookmark_page b)
         (end_page_of same_title_twice
            (sorted_bookmarks same_title_twice) i)).
Proof.
  apply (chapter_texts_are_stripped_parts same_title_twice
           [(lit "A", {| text := lit "y"; level := 0 |})]).
  - discriminate.
  - vm_compute. reflexivity.
  - left. reflexivity.
Defined.

(** X11.  The bookmarks that [_get_bookmarks] collects from an outline are
    exactly its bookmarks with a page number, each with its nesting depth as
    level: a bookmark without page number, or whose page lookup raises, is
    left out, and no other bookmark is. *)
Theorem bookmarks_collected (items : list outline_item) (title : str)
    (page : Z) (level : nat) :
  In (title, page, level) (_get_bookmarks items 0 []) <->
  bookmark_at items level title page.
Proof. apply get_bookmarks_In. Qed.

Lemma insert_by_page_first (b : bookmark_info) (l : list bookmark_info) :
  Forall (fun x => bookmark_page b <= bookmark_page x) l ->
  insert_by_page b l = b :: l.
Proof.
  destruct l as [|x l]; [reflexivity|]. intros H. cbn [insert_by_page].
  inversion H as [|? ? Hx _]; subst.
  destruct (bookmark_page b <=? bookmark_page x) eqn:E; [reflexivity|].
  apply Z.leb_gt in E. lia.
Qed.

(** X12.  Bookmarks that are collected in ascending page order stay in
    their order: the chapters of such a document come in the order of the
    outline. *)
Theorem bookmarks_in_page_order_stay (reader : PdfReader) :
  StronglySorted (fun a b => bookmark_page a <= bookmark_page b)
    (_get_bookmarks (outline reader) 0 []) ->
  sorted_bookmarks reader = _get_bookmarks (outline reader) 0 [].
Proof.
  unfold sorted_bookmarks, sorted_by_page.
  induction 1 as [|b l Hs IH Hb]; cbn [fold_right]; [reflexivity|].
  rewrite IH. apply insert_by_page_first. exact Hb.
Qed.

Lemma bookmarks_in_page_order_stay_witness :
  sorted_bookmarks two_chapters = _get_bookmarks (outline two_chapters) 0 [].
Proof.
  apply (bookmarks_in_page_order_stay two_chapters).
  vm_compute. repeat constructor; cbn; discriminate.
Defined.

(** ** [extract_text_from_pdf] and [extract_text_between_markers] *)

(** X13.  For a readable document without outline,
    [split_text_by_bookmarks] returns as its only chapter what
    [extract_text_from_pdf] returns, and [None] when that returns [None];
    [extract_text_from_pdf] returns the text of all pages in page order
    when some page has text, and [None] otherwise. *)
Theorem extract_text_from_pdf_is_the_fallback (reader : PdfReader) :
  outline reader = [] ->
  split_text_by_bookmarks (Readable reader) =
  Done (option_map
          (fun full_text =>
             [(lit "Full Text (No Bookmarks)",
               {| text := full_text; level := 0 |})])
          (extract_text_from_pdf (Readable reader))) /\
  (forall full_text,
     extract_text_from_pdf (Readable reader) = Some full_text <->
     full_text = concat (pages reader) /\ full_text <> []).
Proof.
  intros Ho. split.
  - cbn [split_text_by_bookmarks extract_text_from_pdf].
    unfold split_reader_by_bookmarks. rewrite Ho. cbn [truthy negb].
    destruct (truthy (append_page_texts reader _ [])); reflexivity.
  - intros full_text. cbn [extract_text_from_pdf].
    rewrite append_page_texts_concat, extract_all_pages. cbn [app].
    destruct (concat (pages reader)) as [|c t] eqn:Ec; cbn [truthy negb].
    + split; [discriminate | intros [-> H]; congruence].
    + split.
      * intros H. injection H as <-. split; [reflexivity | discriminate].
      * intros [-> _]. reflexivity.
Qed.

Lemma extract_text_from_pdf_is_the_fallback_witness :
  let reader := {| outline := []; pages := [lit "hel"; lit ""; lit "lo"] |} in
  split_text_by_bookmarks (Readable reader) =
  Done (option_map
          (fun full_text =>
             [(lit "Full Text (No Bookmarks)",
               {| text := full_text; level := 0 |})])
          (extract_text_from_pdf (Readable reader))) /\
  (forall full_text,
     extract_text_from_pdf (Readable reader) = Some full_text <->
     full_text = concat (pages reader) /\ full_text <> []).
Proof.
  apply (extract_text_from_pdf_is_the_fallback
           {| outline := []; pages := [lit "hel"; lit ""; lit "lo"] |}).
  reflexivity.
Defined.

(** X14.  [extract_text_between_markers] and the cut of
    [split_text_by_bookmarks] on a non-empty text: the function raises
    [ValueError] exactly when the start marker is not found, where the cut
    keeps the whole text; what it returns is a contiguous part of the text,
    the same as the cut, except that it returns the empty string where the
    cut keeps the text to the end because a non-empty end marker is not
    found. *)
Theorem between_markers_and_refinement (text start_marker end_marker : str) :
  text <> [] ->
  exists result refined start_pos,
    extract_text_between_markers text start_marker end_marker = Done result /\
    refine_text text start_marker end_marker = Done refined /\
    _find_ignoring_whitespace text start_marker 0 = Done start_pos /\
    match result with
    | RaisesValueError => start_pos = -1 /\ refined = text
    | Extracted s =>
        start_pos <> -1 /\ part_of s text /\
        (s = refined \/
         s = [] /\ end_marker <> [] /\
         _find_ignoring_whitespace text end_marker
           (Z.to_nat (start_pos + len start_marker)) = Done (-1) /\
         refined = slice_from text (start_pos + len start_marker))
    end.
Proof.
  intros Hne. unfold extract_text_between_markers, refine_text.
  destruct text as [|c0 text0] eqn:Et; [congruence|]. cbn [truthy].
  rewrite <- Et in *. clear Et c0 text0.
  destruct (find_ignoring_whitespace_total text start_marker 0)
    as (s & Hs & _).
  rewrite Hs. cbn [run_bind].
  destruct (s =? -1) eqn:Es; cbn [negb].
  - apply Z.eqb_eq in Es. do 3 eexists.
    repeat (split; [reflexivity|]). split; [exact Es | reflexivity].
  - apply Z.eqb_neq in Es.
    destruct end_marker as [|e0 em] eqn:Ee; cbn [truthy negb].
    + do 3 eexists. repeat (split; [reflexivity|]).
      split; [exact Es|]. split; [apply slice_from_part | left; reflexivity].
    + rewrite <- Ee in *.
      destruct (find_ignoring_whitespace_total text end_marker
                  (Z.to_nat (s + len start_marker))) as (e & He & _).
      rewrite He. cbn [run_bind].
      destruct (e =? -1) eqn:Eend; cbn [negb].
      * apply Z.eqb_eq in Eend. subst e. do 3 eexists.
        repeat (split; [reflexivity|]). split; [exact Es|].
        split; [exists [], text; reflexivity|]. right.
        split; [reflexivity|]. split; [rewrite Ee; discriminate|].
        split; [exact He | reflexivity].
      * do 3 eexists. repeat (split; [reflexivity|]).
        split; [exact Es|]. split; [apply slice_part | left; reflexivity].
Qed.

Lemma between_markers_and_refinement_witness :
  exists result refined start_pos,
    extract_text_between_markers (lit "noise Intro real content")
      (lit "Intro") (lit "Chapter 2") = Done result /\
    refine_text (lit "noise Intro real content") (lit "Intro")
      (lit "Chapter 2") = Done refined /\
    _find_ignoring_whitespace (lit "noise Intro real content") (lit "Intro") 0
    = Done start_pos /\
    match result with
    | RaisesValueError =>
        start_pos = -1 /\ refined = lit "noise Intro real content"
    | Extracted s =>
        start_pos <> -1 /\ part_of s (lit "noise Intro real content") /\
        (s = refined \/
         s = [] /\ lit "Chapter 2" <> [] /\
         _find_ignoring_whitespace (lit "noise Intro real content")
           (lit "Chapter 2") (Z.to_nat (start_pos + len (lit "Intro")))
         = Done (-1) /\
         refined = slice_from (lit "noise Intro real content")
                     (start_pos + len (lit "Intro")))
    end.
Proof.
  apply (between_markers_and_refinement (lit "noise Intro real content")
           (lit "Intro") (lit "Chapter 2")).
  discriminate.
Defined.

(** ** More on [retry_api_call] *)

Section MoreRetries.

Variables (A S : Type).
Variable func : S -> (A + exception) * S.
Variable random : nat -> Q.
Variables initial_delay backoff jitter : Q.
Variable retry_status_codes : list Z.

Hypothesis random_range : forall n, (0 <= random n <= 1)%Q.
Hypothesis initial_delay_nonneg : (0 <= initial_delay)%Q.
Hypothesis backoff_nonneg : (0 <= backoff)%Q.
Hypothesis jitter_range : (0 <= jitter <= 1)%Q.

Lemma delay_after_nonneg (k : nat) :
  (0 <= delay_after initial_delay backoff k)%Q.
Proof.
  induction k as [|k IH]; cbn [delay_after]; [assumption|].
  apply Qmult_le_0_compat; assumption.
Qed.

Lemma waits_succ (n : nat) :
  waits random initial_delay backoff jitter (Datatypes.S n) =
  waits random initial_delay backoff jitter n ++
  [wait_time random jitter n (delay_after initial_delay backoff n)].
Proof.
  unfold waits. rewrite seq_S, map_app. reflexivity.
Qed.

Lemma waits_length (n : nat) :
  length (waits random initial_delay backoff jitter n) = n.
Proof. unfold waits. rewrite length_map, length_seq. reflexivity. Qed.

(** After [k] failures that are retried, the loop stands at the call
    [k + 1] with the delay multiplied [k] times. *)
Lemma wrapper_loop_after_failures (n : nat) (ss : nat -> S)
    (es : nat -> exception) :
  forall k,
    (k <= n)%nat ->
    (forall i, (i < k)%nat ->
       func (ss i) = (inr (es i), ss (Datatypes.S i)) /\
       retryable retry_status_codes (es i) = true) ->
    wrapper A S func random (Z.of_nat n) initial_delay backoff jitter
      retry_status_codes (ss 0%nat) =
    wrapper_loop A S func random (Z.of_nat n) backoff jitter
      retry_status_codes (Datatypes.S (n - k)) (Z.of_nat k)
      (delay_after initial_delay backoff k)
      {| state := ss k; calls := k;
         sleeps := waits random initial_delay backoff jitter k |}.
Proof.
  induction k as [|k IH]; intros Hk Hfail.
  - unfold wrapper. rewrite Nat.sub_0_r.
    replace (Z.to_nat (Z.of_nat n + 1)) with (Datatypes.S n) by lia.
    reflexivity.
  - rewrite IH; [|lia|intros i Hi; apply Hfail; lia].
    destruct (Hfail k ltac:(lia)) as [Hf Hr].
    replace (Datatypes.S (n - k)) with (Datatypes.S (Datatypes.S (n - Datatypes.S k)))
      by lia.
    rewrite (wrapper_loop_retry A S func random (Z.of_nat n) backoff jitter
               retry_status_codes _ (Z.of_nat k) _ _ (es k)
               (ss (Datatypes.S k)));
      cbn [state calls sleeps]; rewrite ?waits_length.
    + rewrite waits_succ. cbn [delay_after].
      replace (Z.of_nat k + 1) with (Z.of_nat (Datatypes.S k)) by lia.
      reflexivity.
    + lia.
    + exact Hf.
    + exact Hr.
    + apply wait_time_nonneg; auto. apply delay_after_nonneg.
Qed.

Lemma wrapper_loop_final (n fuel : nat) (retries : Z) (d : Q) (w : effects S)
    (r : A + exception) (s' : S) :
  retries <= Z.of_nat n ->
  func (state w) = (r, s') ->
  match r with
  | inl _ => True
  | inr e => retryable retry_status_codes e = false
  end ->
  wrapper_loop A S func random (Z.of_nat n) backoff jitter retry_status_codes
    (Datatypes.S fuel) retries d w =
  Done (match r with inl v => Returns v | inr e => Raises e end,
        {| state := s'; calls := Datatypes.S (calls w); sleeps := sleeps w |}).
Proof.
  intros Hle Hf Hr. destruct r as [v|e].
  - cbn [wrapper_loop].
    destruct (retries <=? Z.of_nat n) eqn:E; [|apply Z.leb_gt in E; lia].
    rewrite Hf. reflexivity.
  - apply wrapper_loop_fatal; assumption.
Qed.

(** X15.  With [max_retries = n]: when the wrapped function fails with a
    retried status at each of its first [n + 1] calls, it is called exactly
    [n + 1] times, the wrapper sleeps exactly [n] times in between, once
    before every retry, and the failure of the last call is raised. *)
Theorem retries_exhausted (n : nat) (ss : nat -> S) (es : nat -> exception) :
  (forall i, (i <= n)%nat ->
     func (ss i) = (inr (es i), ss (Datatypes.S i)) /\
     retryable retry_status_codes (es i) = true) ->
  exists w,
    wrapper A S func random (Z.of_nat n) initial_delay backoff jitter
      retry_status_codes (ss 0%nat) = Done (Raises (es n), w) /\
    state w = ss (Datatypes.S n) /\
    calls w = Datatypes.S n /\
    length (sleeps w) = n.
Proof.
  intros Hfail.
  rewrite (wrapper_loop_after_failures n ss es n (Nat.le_refl n));
    [|intros i Hi; apply Hfail; lia].
  destruct (Hfail n (Nat.le_refl n)) as [Hf Hr].
  rewrite (wrapper_loop_exhausted A S func random (Z.of_nat n) backoff jitter
             retry_status_codes _ _ _ (es n) (ss (Datatypes.S n)));
    [| lia | exact Hf | exact Hr].
  eexists. split; [reflexivity|]. cbn [state calls sleeps].
  split; [reflexivity|]. split; [reflexivity|]. apply waits_length.
Qed.

(** X16.  With [max_retries = n]: when the first [k <= n] calls fail with a
    retried status and the next call returns a value, or fails with a
    failure that is not retried, the wrapper returns that value, or raises
    that failure, after exactly [k + 1] calls and [k] sleeps; the calls
    that remain are not made. *)
Theorem retries_until_final_outcome (n k : nat) (ss : nat -> S)
    (es : nat -> exception) (r : A + exception) (s' : S) :
  (k <= n)%nat ->
  (forall i, (i < k)%nat ->
     func (ss i) = (inr (es i), ss (Datatypes.S i)) /\
     retryable retry_status_codes (es i) = true) ->
  func (ss k) = (r, s') ->
  match r with
  | inl _ => True
  | inr e => retryable retry_status_codes e = false
  end ->
  wrapper A S func random (Z.of_nat n) initial_delay backoff jitter
    retry_status_codes (ss 0%nat) =
  Done (match r with inl v => Returns v | inr e => Raises e end,
        {| state := s'; calls := Datatypes.S k;
           sleeps := waits random initial_delay backoff jitter k |}).
Proof.
  intros Hk Hfail Hf Hr.
  rewrite (wrapper_loop_after_failures n ss es k Hk Hfail).
  rewrite (wrapper_loop_final n _ _ _ _ r s'); [reflexivity | lia | | exact Hr].
  exact Hf.
Qed.

(** X17.  Every waiting time lies within the jitter around the delay:
    between [(1 - jitter) * delay] and [(1 + jitter) * delay]. *)
Theorem wait_time_within_jitter (k : nat) (delay : Q) :
  (0 <= delay)%Q ->
  ((1 - jitter) * delay <= wait_time random jitter k delay)%Q /\
  (wait_time random jitter k delay <= (1 + jitter) * delay)%Q.
Proof.
  intros Hd. destruct (random_range k) as [Hr0 Hr1].
  destruct jitter_range as [Hj0 Hj1].
  unfold wait_time, uniform.
  assert (H1 : (0 <= jitter * delay)%Q)
    by (apply Qmult_le_0_compat; assumption).
  split.
  - setoid_replace
      (delay + (- jitter * delay + (jitter * delay - - jitter * delay)
                                   * random k))%Q
      with ((1 - jitter) * delay + (2 # 1) * ((jitter * delay) * random k))%Q
      by ring.
    rewrite <- (Qplus_0_r ((1 - jitter) * delay)) at 1.
    apply Qplus_le_r. apply Qmult_le_0_compat; [discriminate|].
    apply Qmult_le_0_compat; assumption.
  - setoid_replace
      (delay + (- jitter * delay + (jitter * delay - - jitter * delay)
                                   * random k))%Q
      with ((1 + jitter) * delay
            - (2 # 1) * ((jitter * delay) * (1 - random k)))%Q by ring.
    rewrite <- (Qplus_0_r ((1 + jitter) * delay)) at 2.
    unfold Qminus at 1. apply Qplus_le_r.
    rewrite <- (Qopp_involutive 0). apply Qopp_le_compat.
    apply Qmult_le_0_compat; [discriminate|].
    apply Qmult_le_0_compat; [assumption|].
    unfold Qminus. rewrite <- (Qplus_opp_r (random k)).
    apply Qplus_le_l. exact Hr1.
Qed.

End MoreRetries.

(** The number of calls and of sleeps of one turn of the loop on. *)
Lemma wrapper_loop_counts (A S : Type) (func : S -> (A + exception) * S)
    (random : nat -> Q) (max_retries : Z) (backoff jitter : Q)
    (retry_status_codes : list Z) :
  forall fuel retries d w,
    retries <= max_retries ->
    max_retries - retries < Z.of_nat fuel ->
    exists o w',
      wrapper_loop A S func random max_retries backoff jitter
        retry_status_codes fuel retries d w = Done (o, w') /\
      o <> ReturnsNone /\
      (calls w < calls w')%nat /\
      Z.of_nat (calls w') <= Z.of_nat (calls w) + (max_retries - retries + 1) /\
      (length (sleeps w') + calls w + 1 = length (sleeps w) + calls w')%nat.
Proof.
  induction fuel as [|fuel IH]; intros retries d w Hle Hf; [lia|].
  cbn [wrapper_loop].
  destruct (retries <=? max_retries) eqn:E; [|apply Z.leb_gt in E; lia].
  destruct (func (state w)) as [[v|e] s'].
  - do 2 eexists. split; [reflexivity|]. cbn [calls sleeps].
    split; [discriminate|]. lia.
  - assert (Hstop : forall e0 : exception,
              exists o w',
                Done (Raises e0,
                      {| state := s'; calls := Datatypes.S (calls w);
                         sleeps := sleeps w |}) = Done (o, w') /\
                o <> @ReturnsNone A /\
                (calls w < calls w')%nat /\
                Z.of_nat (calls w') <=
                Z.of_nat (calls w) + (max_retries - retries + 1) /\
                (length (sleeps w') + calls w + 1 =
                 length (sleeps w) + calls w')%nat).
    { intros e0. do 2 eexists. split; [reflexivity|]. cbn [calls sleeps].
      split; [discriminate|]. lia. }
    destruct e as [c|c|n|]; try apply Hstop;
      (destruct (status_in c retry_status_codes); [|apply Hstop];
       destruct (retries <? max_retries) eqn:E'; [|apply Hstop];
       destruct (Qle_bool 0 _); [|apply Hstop];
       apply Z.ltb_lt in E';
       match goal with
       | |- context [wrapper_loop _ _ _ _ _ _ _ _ fuel ?r ?d' ?w0] =>
           destruct (IH r d' w0) as (o & w' & Hr & Ho & H1 & H2 & H3);
             [lia | lia |]
       end;
       exists o, w'; split; [exact Hr|]; split; [exact Ho|];
       cbn [calls sleeps] in *; rewrite length_app in H3; cbn [length] in H3;
       lia).
Qed.

(** X18.  For every wrapped function: with [max_retries >= 0] the wrapper
    ends by returning a value or raising, after at least one and at most
    [max_retries + 1] calls, and it has slept once less than it has called;
    with a negative [max_retries] the function is not called and the
    wrapper returns [None]. *)
Theorem wrapper_calls_bounded (A S : Type) (func : S -> (A + exception) * S)
    (random : nat -> Q) (max_retries : Z) (initial_delay backoff jitter : Q)
    (retry_status_codes : list Z) (s : S) :
  exists o w,
    wrapper A S func random max_retries initial_delay backoff jitter
      retry_status_codes s = Done (o, w) /\
    (0 <= max_retries ->
     o <> ReturnsNone /\
     1 <= Z.of_nat (calls w) <= max_retries + 1 /\
     (length (sleeps w) + 1 = calls w)%nat) /\
    (max_retries < 0 ->
     o = ReturnsNone /\ w = {| state := s; calls := 0; sleeps := [] |}).
Proof.
  unfold wrapper. destruct (Z_lt_ge_dec max_retries 0) as [Hneg|Hpos].
  - do 2 eexists. split; [|split; [lia|intros _; split; reflexivity]].
    replace (Z.to_nat (max_retries + 1)) with 0%nat by lia.
    cbn [wrapper_loop].
    destruct (0 <=? max_retries) eqn:E; [apply Z.leb_le in E; lia|].
    reflexivity.
  - destruct (wrapper_loop_counts A S func random max_retries backoff jitter
                retry_status_codes (Z.to_nat (max_retries + 1)) 0
                initial_delay {| state := s; calls := 0; sleeps := [] |})
      as (o & w & Hr & Ho & H1 & H2 & H3); [lia | lia |].
    exists o, w. split; [exact Hr|]. cbn [calls sleeps length] in *.
    split; [|lia]. intros _. split; [exact Ho|]. lia.
Qed.

Lemma retries_exhausted_witness :
  exists w,
    wrapper unit nat unavailable_then_missing (fun _ => 1 # 2) (Z.of_nat 2)
      1 2 (1 # 10) [500; 502; 503; 504] 0%nat =
    Done (Raises (HttpError (Some 503)), w) /\
    state w = 3%nat /\ calls w = 3%nat /\ length (sleeps w) = 2%nat.
Proof.
  assert (Hr : forall n : nat, (0 <= (fun _ : nat => 1 # 2) n <= 1)%Q)
    by (intros; split; discriminate).
  assert (Hd : (0 <= 1)%Q) by discriminate.
  assert (Hb : (0 <= 2)%Q) by discriminate.
  assert (Hj : (0 <= 1 # 10 <= 1)%Q) by (split; discriminate).
  assert (Hfail : forall i, (i <= 2)%nat ->
            unavailable_then_missing ((fun i : nat => i) i) =
            (inr ((fun _ : nat => HttpError (Some 503)) i),
             (fun i : nat => i) (S i)) /\
            retryable [500; 502; 503; 504]
              ((fun _ : nat => HttpError (Some 503)) i) = true).
  { intros [|[|[|i]]] Hi; try lia; split; reflexivity. }
  pose proof (retries_exhausted unit nat unavailable_then_missing
                (fun _ => 1 # 2) 1 2 (1 # 10) [500; 502; 503; 504]
                Hr Hd Hb Hj 2%nat (fun i => i)
                (fun _ => HttpError (Some 503)) Hfail) as H.
  exact H.
Defined.

Lemma retries_until_final_outcome_witness :
  wrapper unit nat unavailable_then_missing (fun _ => 1 # 2) (Z.of_nat 5)
    1 2 (1 # 10) [500; 502; 503; 504] 0%nat =
  Done (Raises (HttpError (Some 404)),
        {| state := 4%nat; calls := 4;
           sleeps := waits (fun _ => 1 # 2) 1 2 (1 # 10) 3 |}).
Proof.
  assert (Hr : forall n : nat, (0 <= (fun _ : nat => 1 # 2) n <= 1)%Q)
    by (intros; split; discriminate).
  assert (Hd : (0 <= 1)%Q) by discriminate.
  assert (Hb : (0 <= 2)%Q) by discriminate.
  assert (Hj : (0 <= 1 # 10 <= 1)%Q) by (split; discriminate).
  assert (Hk : (3 <= 5)%nat) by lia.
  assert (Hfail : forall i, (i < 3)%nat ->
            unavailable_then_missing ((fun i : nat => i) i) =
            (inr ((fun _ : nat => HttpError (Some 503)) i),
             (fun i : nat => i) (S i)) /\
            retryable [500; 502; 503; 504]
              ((fun _ : nat => HttpError (Some 503)) i) = true).
  { intros [|[|[|i]]] Hi; try lia; split; reflexivity. }
  assert (Hf : unavailable_then_missing ((fun i : nat => i) 3%nat) =
               (inr (HttpError (Some 404)), 4%nat)) by reflexivity.
  assert (Hn : retryable [500; 502; 503; 504] (HttpError (Some 404)) = false)
    by reflexivity.
  pose proof (retries_until_final_outcome unit nat unavailable_then_missing
                (fun _ => 1 # 2) 1 2 (1 # 10) [500; 502; 503; 504]
                Hr Hd Hb Hj 5%nat 3%nat (fun i => i)
                (fun _ => HttpError (Some 503))
                (inr (HttpError (Some 404))) 4%nat Hk Hfail Hf Hn) as H.
  exact H.
Defined.

Lemma wait_time_within_jitter_witness :
  ((1 - (1 # 10)) * 5 <= wait_time (fun _ => 1 # 2) (1 # 10) 0 5)%Q /\
  (wait_time (fun _ => 1 # 2) (1 # 10) 0 5 <= (1 + (1 # 10)) * 5)%Q.
Proof.
  assert (Hr : forall n : nat, (0 <= (fun _ : nat => 1 # 2) n <= 1)%Q)
    by (intros; split; discriminate).
  assert (Hj : (0 <= 1 # 10 <= 1)%Q) by (split; discriminate).
  assert (Hd : (0 <= 5)%Q) by discriminate.
  pose proof (wait_time_within_jitter (fun _ => 1 # 2) (1 # 10) Hr Hj 0%nat 5
                Hd) as H.
  exact H.
Defined.

Lemma wrapper_calls_bounded_witness :
  exists o w,
    wrapper unit nat unavailable_then_missing (fun _ => 1 # 2) 2 1 2 (1 # 10)
      [500; 502; 503; 504] 0%nat = Done (o, w) /\
    (0 <= 2 ->
     o <> ReturnsNone /\
     1 <= Z.of_nat (calls w) <= 2 + 1 /\
     (length (sleeps w) + 1 = calls w)%nat) /\
    (2 < 0 ->
     o = ReturnsNone /\ w = {| state := 0%nat; calls := 0; sleeps := [] |}).
Proof.
  exact (wrapper_calls_bounded unit nat unavailable_then_missing
           (fun _ => 1 # 2) 2 1 2 (1 # 10) [500; 502; 503; 504] 0%nat).
Defined.

(** ** Splitting and joining strings *)

Lemma split_on_pieces (sep : char) (s : str) :
  exists piece pieces, split_on sep s = piece :: pieces.
Proof.
  induction s as [|c s (p & ps & IH)]; cbn [split_on]; [eauto|].
  destruct (char_eq_dec c sep); [eauto|]. rewrite IH. eauto.
Qed.

Lemma join_cons (sep piece piece' : str) (pieces : list str) :
  join sep (piece :: piece' :: pieces) =
  piece ++ sep ++ join sep (piece' :: pieces).
Proof. reflexivity. Qed.

Lemma join_split_on (sep : char) (s : str) :
  join [sep] (split_on sep s) = s.
Proof.
  induction s as [|c s IH]; cbn [split_on]; [reflexivity|].
  destruct (split_on_pieces sep s) as (p & ps & Hp). rewrite Hp in *.
  destruct (char_eq_dec c sep) as [->|Hne].
  - rewrite join_cons, IH. reflexivity.
  - destruct ps as [|p' ps].
    + cbn [join] in *. rewrite IH. reflexivity.
    + rewrite join_cons in *. rewrite <- IH. reflexivity.
Qed.

Lemma split_on_no_sep (sep : char) (s : str) :
  Forall (fun piece => ~ In sep piece) (split_on sep s).
Proof.
  induction s as [|c s IH]; cbn [split_on].
  - constructor; [intros [] | constructor].
  - destruct (char_eq_dec c sep) as [->|Hne].
    + constructor; [intros [] | exact IH].
    + destruct (split_on sep s) as [|p ps]; [repeat constructor; cbn; tauto|].
      inversion IH as [|? ? Hp Hps]; subst.
      constructor; [|exact Hps]. cbn [In]. tauto.
Qed.

Lemma last_piece_In (pieces : list str) :
  pieces <> [] -> In (last pieces []) pieces.
Proof.
  induction pieces as [|p ps IH]; [congruence|]. intros _.
  destruct ps as [|p' ps]; [left; reflexivity|].
  right. apply IH. discriminate.
Qed.

(** The first piece: the string up to its first separator. *)
Lemma split_on_first (sep : char) (s : str) :
  exists after,
    s = hd [] (split_on sep s) ++ after /\
    (after = [] \/ exists rest, after = sep :: rest).
Proof.
  induction s as [|c s (after & IH & Hafter)]; cbn [split_on].
  - exists []. split; [reflexivity | left; reflexivity].
  - destruct (char_eq_dec c sep) as [->|Hne].
    + exists (sep :: s). split; [reflexivity | right; eauto].
    + destruct (split_on_pieces sep s) as (p & ps & Hp). rewrite Hp in *.
      cbn [hd] in *. exists after. split; [|exact Hafter].
      cbn [app]. f_equal. exact IH.
Qed.

(** The last piece: the string after its last separator. *)
Lemma split_on_last (sep : char) (s : str) :
  exists before,
    s = before ++ last (split_on sep s) [] /\
    (before = [] \/ exists rest, before = rest ++ [sep]).
Proof.
  induction s as [|c s (before & IH & Hbefore)]; cbn [split_on].
  - exists []. split; [reflexivity | left; reflexivity].
  - destruct (split_on_pieces sep s) as (p & ps & Hp). rewrite Hp in *.
    destruct (char_eq_dec c sep) as [->|Hne].
    + change (last ([] :: p :: ps) []) with (last (p :: ps) (@nil char)).
      exists (sep :: before). split; [cbn [app]; f_equal; exact IH|].
      right. destruct Hbefore as [->|(rest & ->)];
        [exists []; reflexivity | exists (sep :: rest); reflexivity].
    + destruct ps as [|p' ps].
      * cbn [last] in *. destruct Hbefore as [->|(rest & ->)].
        -- exists []. split; [cbn [app] in *; f_equal; exact IH|].
           left; reflexivity.
        -- exfalso. pose proof (split_on_no_sep sep s) as Hno.
           rewrite Hp in Hno. apply Forall_inv in Hno.
           pose proof (join_split_on sep s) as Hj. rewrite Hp in Hj.
           cbn [join] in Hj. apply Hno. rewrite Hj, IH.
           rewrite <- app_assoc. apply in_or_app. right. left. reflexivity.
      * change (last ((c :: p) :: p' :: ps) []) with (last (p' :: ps) (@nil char)).
        change (last (p :: p' :: ps) []) with (last (p' :: ps) (@nil char)) in IH.
        exists (c :: before). split; [cbn [app]; f_equal; exact IH|].
        right. destruct Hbefore as [->|(rest & ->)].
        -- exfalso. pose proof (join_split_on sep s) as Hj. rewrite Hp in Hj.
           rewrite join_cons in Hj. cbn [app] in IH.
           pose proof (split_on_no_sep sep s) as Hno. rewrite Hp in Hno.
           assert (Hl : ~ In sep (last (p' :: ps) [])).
           { rewrite Forall_forall in Hno. apply Hno. right.
             apply (last_piece_In (p' :: ps)). discriminate. }
           apply Hl. rewrite <- IH, <- Hj. apply in_or_app. right.
           left. reflexivity.
        -- exists (c :: rest). reflexivity.
Qed.

(** ** [main.py]: the name of the file *)

Import Main.

(** X19.  The name that [main] derives from the path of the PDF file is
    the part of the path after its last '/' and before the first '.' that
    follows: it has no '/' and no '.', and the path is this name between a
    part that is empty or ends with '/' and a part without '/' that is
    empty or begins with '.'. *)
Theorem filename_of_path (pdf_file_path : str) :
  let filename := filename_of pdf_file_path in
  ~ In 47%N filename /\ ~ In 46%N filename /\
  exists before after,
    pdf_file_path = before ++ filename ++ after /\
    (before = [] \/ exists rest, before = rest ++ [47%N]) /\
    ~ In 47%N after /\
    (after = [] \/ exists rest, after = 46%N :: rest).
Proof.
  intros filename. unfold filename_of in filename.
  destruct (split_on_last 47%N pdf_file_path) as (before & Hb & Hbefore).
  set (base := last (split_on 47%N pdf_file_path) []) in *.
  destruct (split_on_first 46%N base) as (after & Ha & Hafter).
  fold filename in Ha.
  assert (Hbase : ~ In 47%N base).
  { pose proof (split_on_no_sep 47%N pdf_file_path) as Hno.
    rewrite Forall_forall in Hno. apply Hno.
    destruct (split_on_pieces 47%N pdf_file_path) as (p & ps & Hp).
    unfold base. rewrite Hp. apply last_piece_In. discriminate. }
  assert (Hname : ~ In 46%N filename).
  { pose proof (split_on_no_sep 46%N base) as Hno.
    rewrite Forall_forall in Hno. apply Hno.
    destruct (split_on_pieces 46%N base) as (p & ps & Hp).
    unfold filename. rewrite Hp. left. reflexivity. }
  split; [|split; [exact Hname|]].
  - intros Hin. apply Hbase. rewrite Ha. apply in_or_app. left. exact Hin.
  - exists before, after. split; [rewrite <- Ha; exact Hb|].
    split; [exact Hbefore|]. split; [|exact Hafter].
    intros Hin. apply Hbase. rewrite Ha. apply in_or_app. right. exact Hin.
Qed.

Lemma filename_of_path_witness :
  let filename := filename_of (lit "C:/docs/my.file.pdf") in
  ~ In 47%N filename /\ ~ In 46%N filename /\
  exists before after,
    lit "C:/docs/my.file.pdf" = before ++ filename ++ after /\
    (before = [] \/ exists rest, before = rest ++ [47%N]) /\
    ~ In 47%N after /\
    (after = [] \/ exists rest, after = 46%N :: rest).
Proof.
  exact (filename_of_path (lit "C:/docs/my.file.pdf")).
Defined.

(** ** [main.py]: the cells of the Excel file *)

Lemma slice_to_end (s : str) (a b : Z) :
  0 <= a -> len s <= b -> slice s a b = slice s a (len s).
Proof.
  intros Ha Hb. unfold slice, slice_bound.
  destruct (a <? 0) eqn:Ea; [apply Z.ltb_lt in Ea; lia|].
  destruct (b <? 0) eqn:Eb; [apply Z.ltb_lt in Eb; unfold len in *; lia|].
  destruct (len s <? 0) eqn:El; [apply Z.ltb_lt in El; unfold len in *; lia|].
  rewrite (Z.min_r b) by lia. rewrite (Z.min_l (len s)) by lia. reflexivity.
Qed.


Lemma split_text_chunks_bounded (text : str) (max_chunk_size : Z) :
  text <> [] -> 0 < max_chunk_size ->
  exists chunks,
    split_text text max_chunk_size = Done chunks /\
    concat chunks = text /\
    Forall (fun c => len c <= max_chunk_size) chunks.
Proof.
  intros Hne Hm. unfold split_text.
  destruct text as [|c text]; [congruence|]. cbn [truthy negb].
  destruct (max_chunk_size <=? 0) eqn:E; [apply Z.leb_le in E; lia|].
  destruct (split_text_loop_spec (c :: text) max_chunk_size Hm
              (length (c :: text)) 0 [])
    as (rest & Hr & Hc & Hall & _); [unfold len; lia | unfold len; lia |].
  exists rest. cbn [app] in Hr. repeat split; [exact Hr | exact Hc |].
  eapply Forall_impl; [|exact Hall]. cbn. intros; lia.
Qed.

(** The loop of [_split_text_for_excel] makes the chunks of [split_text]. *)
Lemma split_for_excel_loop_chunks (text : str) (m : Z) :
  0 < m ->
  forall fuel start chunks,
    0 <= start ->
    split_for_excel_loop fuel text m start (map Str chunks) =
    (chunks' <- split_text_loop fuel text m (Z.min start (len text)) chunks ;;
     Done (map Str chunks')).
Proof.
  intros Hm. induction fuel as [|fuel IH]; intros start chunks Hs;
    destruct (Z_lt_ge_dec start (len text)) as [Hlt|Hge].
  - rewrite Z.min_l by lia. cbn [split_for_excel_loop split_text_loop].
    destruct (start <? len text); reflexivity.
  - rewrite Z.min_r by lia. cbn [split_for_excel_loop split_text_loop].
    rewrite Z.ltb_irrefl.
    destruct (start <? len text) eqn:E; [apply Z.ltb_lt in E; lia|].
    reflexivity.
  - rewrite (Z.min_l start) by lia.
    cbn [split_for_excel_loop split_text_loop].
    destruct (start <? len text) eqn:E; [|apply Z.ltb_ge in E; lia].
    replace (map Str chunks ++ [Str (slice text start (start + m))])
      with (map Str (chunks ++
                     [slice text start (Z.min (start + m) (len text))])).
    + rewrite IH by lia. reflexivity.
    + rewrite map_app. cbn [map]. do 3 f_equal.
      destruct (Z_le_gt_dec (len text) (start + m)) as [Hle|Hgt].
      * rewrite Z.min_r by lia. symmetry. apply slice_to_end; lia.
      * rewrite Z.min_l by lia. reflexivity.
  - rewrite Z.min_r by lia. cbn [split_for_excel_loop split_text_loop].
    rewrite Z.ltb_irrefl.
    destruct (start <? len text) eqn:E; [apply Z.ltb_lt in E; lia|].
    reflexivity.
Qed.

Lemma split_text_for_excel_spec (text : str) (max_length : Z) (n : nat) :
  0 < max_length ->
  _split_text_for_excel (NotStr n) max_length = Done [NotStr n] /\
  exists chunks,
    _split_text_for_excel (Str text) max_length = Done (map Str chunks) /\
    chunks <> [] /\
    concat chunks = text /\
    Forall (fun c => len c <= max_length) chunks /\
    (len text <= max_length -> chunks = [text]) /\
    (max_length < len text -> split_text text max_length = Done chunks).
Proof.
  intros Hm. split; [reflexivity|]. unfold _split_text_for_excel.
  destruct (len text <=? max_length) eqn:E.
  - apply Z.leb_le in E. exists [text]. cbn [map concat].
    rewrite app_nil_r. split; [reflexivity|]. split; [discriminate|].
    split; [reflexivity|].
    split; [constructor; [exact E | constructor]|].
    split; [reflexivity | lia].
  - apply Z.leb_gt in E.
    assert (Hne : text <> []) by (intros ->; cbn in E; lia).
    destruct (split_text_chunks_bounded text max_length Hne Hm)
      as (chunks & Hr & Hc & Hall).
    exists chunks.
    pose proof (split_for_excel_loop_chunks text max_length Hm
                  (length text) 0 [] ltac:(lia)) as Hloop.
    cbn [map] in Hloop. rewrite Hloop.
    assert (Hr' : split_text_loop (length text) text max_length
                    (Z.min 0 (len text)) [] = Done chunks).
    { unfold split_text in Hr. destruct text; [congruence|].
      cbn [truthy negb] in Hr.
      destruct (max_length <=? 0) eqn:E0; [apply Z.leb_le in E0; lia|].
      rewrite Z.min_l by (unfold len; lia). exact Hr. }
    rewrite Hr'. cbn [run_bind].
    split; [reflexivity|]. split.
    + intros ->. cbn in Hc. congruence.
    + split; [exact Hc|]. split; [exact Hall|].
      split; [lia | intros _; exact Hr].
Qed.

(** X20.  For a positive maximal length, [_split_text_for_excel] cuts a
    string into at least one chunk, each of at most [max_length]
    characters, whose concatenation is the string: the string itself when
    it is short enough (also when it is empty, where [split_text] returns
    no chunk), and the chunks of [split_text] otherwise; a value that is
    not a string is returned as it is. *)
Theorem split_text_for_excel_chunks (text : str) (max_length : Z) (n : nat) :
  0 < max_length ->
  _split_text_for_excel (NotStr n) max_length = Done [NotStr n] /\
  exists chunks,
    _split_text_for_excel (Str text) max_length = Done (map Str chunks) /\
    chunks <> [] /\
    concat chunks = text /\
    Forall (fun c => len c <= max_length) chunks /\
    (len text <= max_length -> chunks = [text]) /\
    (max_length < len text -> split_text text max_length = Done chunks).
Proof. apply split_text_for_excel_spec. Qed.

Lemma split_text_for_excel_chunks_witness :
  _split_text_for_excel (NotStr 0) 3 = Done [NotStr 0] /\
  exists chunks,
    _split_text_for_excel (Str (lit "abcdefg")) 3 = Done (map Str chunks) /\
    chunks <> [] /\
    concat chunks = lit "abcdefg" /\
    Forall (fun c => len c <= 3) chunks /\
    (len (lit "abcdefg") <= 3 -> chunks = [lit "abcdefg"]) /\
    (3 < len (lit "abcdefg") -> split_text (lit "abcdefg") 3 = Done chunks).
Proof.
  apply (split_text_for_excel_chunks (lit "abcdefg") 3 0). lia.
Defined.

Lemma map_seq_constant (A : Type) (f : nat -> A) (e : A) :
  forall k n,
    (forall i, (n <= i)%nat -> f i = e) ->
    map f (seq n k) = repeat e k.
Proof.
  induction k as [|k IH]; intros n H; cbn [seq map repeat]; [reflexivity|].
  rewrite H by lia. f_equal. apply IH. intros i Hi. apply H. lia.
Qed.

Lemma map_seq_padded (A : Type) (l : list A) (d e : A) (k : nat) :
  map (fun i => if (i <? length l)%nat then nth i l d else e)
    (seq 0 (length l + k)) = l ++ repeat e k.
Proof.
  rewrite seq_app, map_app. f_equal.
  - transitivity (map (fun i => nth i l d) (seq 0 (length l)));
      [|apply map_nth_seq_all].
    apply map_ext_in. intros i Hi. apply in_seq in Hi.
    destruct (i <? length l)%nat eqn:E; [reflexivity|].
    apply Nat.ltb_ge in E. lia.
  - apply map_seq_constant. intros i Hi.
    destruct (i <? length l)%nat eqn:E; [|reflexivity].
    apply Nat.ltb_lt in E. lia.
Qed.

Lemma text_of_cells_padded (chunks : list str) (k : nat) :
  text_of_cells (map Str chunks ++ repeat (Str []) k) = concat chunks.
Proof.
  unfold text_of_cells. rewrite map_app, concat_app, map_map.
  rewrite map_id.
  replace (concat (map _ (repeat (Str []) k))) with (@nil char);
    [apply app_nil_r|].
  induction k as [|k IH]; [reflexivity|]. cbn. exact IH.
Qed.

Lemma cells_fit_padded (chunks : list str) (k : nat) :
  Forall (fun c => len c <= EXCEL_MAX_CELL_LENGTH) chunks ->
  Forall cell_fits (map Str chunks ++ repeat (Str []) k).
Proof.
  intros H. apply Forall_app. split.
  - apply Forall_map. eapply Forall_impl; [|exact H].
    intros c Hc. exists c. split; [reflexivity | exact Hc].
  - apply Forall_forall. intros v Hv. apply repeat_spec in Hv. subst v.
    exists []. split; [reflexivity | discriminate].
Qed.

Lemma rows_of_chunks_chapter (title original translated : str)
    (co ct : list str) :
  co <> [] -> concat co = original ->
  Forall (fun c => len c <= EXCEL_MAX_CELL_LENGTH) co ->
  ct <> [] -> concat ct = translated ->
  Forall (fun c => len c <= EXCEL_MAX_CELL_LENGTH) ct ->
  rows_of_chapter title original translated
    (rows_of_chunks (Str title) (map Str co) (map Str ct)).
Proof.
  intros Hco Horig Hfo Hct Htrans Hft.
  unfold rows_of_chunks. rewrite !length_map.
  set (m := Nat.max (length co) (length ct)).
  assert (Hm : (1 <= m)%nat)
    by (destruct co; [congruence | cbn [length] in *; lia]).
  assert (Ho : map column_original
                 (map (fun i =>
                    {| column_title := if (i =? 0)%nat then Str title
                                       else Str [];
                       column_original :=
                         if (i <? length co)%nat
                         then nth i (map Str co) (Str []) else Str [];
                       column_translated :=
                         if (i <? length ct)%nat
                         then nth i (map Str ct) (Str []) else Str [] |})
                    (seq 0 m)) =
               map Str co ++ repeat (Str []) (m - length co)).
  { rewrite map_map. cbn [column_original].
    rewrite <- (map_seq_padded _ (map Str co) (Str []) (Str [])).
    rewrite length_map. replace (length co + (m - length co))%nat with m by lia.
    reflexivity. }
  assert (Ht : map column_translated
                 (map (fun i =>
                    {| column_title := if (i =? 0)%nat then Str title
                                       else Str [];
                       column_original :=
                         if (i <? length co)%nat
                         then nth i (map Str co) (Str []) else Str [];
                       column_translated :=
                         if (i <? length ct)%nat
                         then nth i (map Str ct) (Str []) else Str [] |})
                    (seq 0 m)) =
               map Str ct ++ repeat (Str []) (m - length ct)).
  { rewrite map_map. cbn [column_translated].
    rewrite <- (map_seq_padded _ (map Str ct) (Str []) (Str [])).
    rewrite length_map. replace (length ct + (m - length ct))%nat with m by lia.
    reflexivity. }
  split; [|split; [|split; [|split]]].
  - destruct m; [lia|]. cbn [seq map]. discriminate.
  - rewrite map_map, length_map, length_seq. cbn [column_title].
    destruct m as [|m']; [lia|]. cbn [seq map Nat.eqb]. f_equal.
    replace (S m' - 1)%nat with m' by lia.
    apply map_seq_constant. intros i Hi.
    destruct (i =? 0)%nat eqn:E; [apply Nat.eqb_eq in E; lia | reflexivity].
  - rewrite Ho, text_of_cells_padded. exact Horig.
  - rewrite Ht, text_of_cells_padded. exact Htrans.
  - apply Forall_forall. intros r Hr. split.
    + assert (Hin : In (column_original r)
                      (map Str co ++ repeat (Str []) (m - length co)))
        by (rewrite <- Ho; apply in_map; exact Hr).
      pose proof (cells_fit_padded co (m - length co) Hfo) as Hall.
      rewrite Forall_forall in Hall. exact (Hall _ Hin).
    + assert (Hin : In (column_translated r)
                      (map Str ct ++ repeat (Str []) (m - length ct)))
        by (rewrite <- Ht; apply in_map; exact Hr).
      pose proof (cells_fit_padded ct (m - length ct) Hft) as Hall.
      rewrite Forall_forall in Hall. exact (Hall _ Hin).
Qed.

Lemma excel_data_loop_groups :
  forall titles originals translated excel_data,
  exists groups,
    excel_data_loop (map Str titles) (map Str originals)
      (map Str translated) excel_data = Done (excel_data ++ concat groups) /\
    length groups =
    Nat.min (length titles) (Nat.min (length originals) (length translated)) /\
    forall k title original translated_k,
      nth_error titles k = Some title ->
      nth_error originals k = Some original ->
      nth_error translated k = Some translated_k ->
      exists rows,
        nth_error groups k = Some rows /\
        rows_of_chapter title original translated_k rows.
Proof.
  assert (Hmax : 0 < EXCEL_MAX_CELL_LENGTH) by reflexivity.
  induction titles as [|title titles IH]; intros originals translated acc.
  - exists []. cbn. rewrite app_nil_r. repeat split.
    intros [|k] ? ? ? H; discriminate H.
  - destruct originals as [|original originals].
    + exists []. cbn. rewrite app_nil_r. repeat split.
      intros [|k] ? ? ? _ H; discriminate H.
    + destruct translated as [|tr translated].
      * exists []. cbn [map excel_data_loop concat length Nat.min].
        rewrite app_nil_r. repeat split.
        intros [|k] ? ? ? _ _ H; discriminate H.
      * cbn [map excel_data_loop].
        destruct (split_text_for_excel_spec original
                    EXCEL_MAX_CELL_LENGTH 0 Hmax)
          as (_ & co & Hco & Hco1 & Hco2 & Hco3 & _).
        destruct (split_text_for_excel_spec tr
                    EXCEL_MAX_CELL_LENGTH 0 Hmax)
          as (_ & ct & Hct & Hct1 & Hct2 & Hct3 & _).
        rewrite Hco, Hct. cbn [run_bind].
        destruct (IH originals translated
                    (acc ++ rows_of_chunks (Str title) (map Str co)
                                           (map Str ct)))
          as (groups & Hr & Hl & Hk).
        exists (rows_of_chunks (Str title) (map Str co) (map Str ct)
                :: groups).
        split; [rewrite Hr; cbn [concat]; rewrite app_assoc; reflexivity|].
        split; [cbn [length Nat.min]; rewrite Hl; reflexivity|].
        intros [|k] t o x Ht Ho Hx; cbn [nth_error] in *.
        -- injection Ht as <-. injection Ho as <-. injection Hx as <-.
           eexists. split; [reflexivity|].
           apply rows_of_chunks_chapter; assumption.
        -- exact (Hk k t o x Ht Ho Hx).
Qed.

(** X21.  The rows that [save_to_excel] builds from the titles, the original
    texts and the translated texts: for every chapter, in order, at least
    one row; the title stands in the first row of the chapter only; the
    cells of the column of the originals, one after the other, are the
    original text, and likewise for the translation; every cell of these
    two columns is a string of at most 32767 characters.  The title is
    written as it is, whatever its length. *)
Theorem excel_rows_hold_the_texts (titles originals translated : list str) :
  exists groups,
    save_to_excel_rows (map Str titles) (map Str originals)
      (map Str translated) = Done (concat groups) /\
    length groups =
    Nat.min (length titles) (Nat.min (length originals) (length translated)) /\
    forall k title original translated_k,
      nth_error titles k = Some title ->
      nth_error originals k = Some original ->
      nth_error translated k = Some translated_k ->
      exists rows,
        nth_error groups k = Some rows /\
        rows_of_chapter title original translated_k rows.
Proof.
  unfold save_to_excel_rows.
  destruct (excel_data_loop_groups titles originals translated [])
    as (groups & Hr & H).
  exists groups. split; [exact Hr | exact H].
Qed.

Lemma excel_rows_hold_the_texts_witness :
  exists groups,
    save_to_excel_rows (map Str [lit "T"]) (map Str [lit "original"])
      (map Str [lit ""]) = Done (concat groups) /\
    length groups =
    Nat.min (length [lit "T"])
      (Nat.min (length [lit "original"]) (length [lit ""])) /\
    forall k title original translated_k,
      nth_error [lit "T"] k = Some title ->
      nth_error [lit "original"] k = Some original ->
      nth_error [lit ""] k = Some translated_k ->
      exists rows,
        nth_error groups k = Some rows /\
        rows_of_chapter title original translated_k rows.
Proof.
  exact (excel_rows_hold_the_texts [lit "T"] [lit "original"] [lit ""]).
Defined.

(** ** [translate_text_chunk] *)

Lemma strip_idempotent (s : str) : strip (strip s) = strip s.
Proof.
  destruct (strip_clean s) as (Hhead & Hlast & _).
  assert (Hl : lstrip (strip s) = strip s).
  { destruct (strip s) as [|c r] eqn:E; [reflexivity|].
    apply lstrip_of_head. apply (Hhead c r). reflexivity. }
  unfold strip at 1. rewrite Hl. unfold rstrip.
  destruct (strip s) as [|c r] eqn:E using rev_ind; [reflexivity|].
  rewrite rev_app_distr. cbn [rev app].
  rewrite lstrip_of_head by (apply (Hlast r c); reflexivity).
  change (c :: rev r) with ([c] ++ rev r).
  rewrite rev_app_distr, rev_involutive. reflexivity.
Qed.

Lemma startswith_nonempty (s prefix : str) :
  startswith s prefix = true -> prefix <> [] -> s <> [].
Proof.
  intros H Hp ->. destruct prefix; [congruence | discriminate H].
Qed.

Lemma later_lines_kept (lines : list str) :
  forall n, (0 < n)%nat ->
    map snd
      (filter (fun '(i, line) => (0 <? i)%nat || truthy (strip line))
         (combine (seq n (length lines)) lines)) = lines.
Proof.
  induction lines as [|line lines IH]; intros n Hn; [reflexivity|].
  cbn [length seq combine filter].
  replace (0 <? n)%nat with true by (symmetry; apply Nat.ltb_lt; exact Hn).
  cbn [orb map snd]. f_equal. apply IH. lia.
Qed.

Lemma lines_kept (lines : list str) :
  strip (hd [] lines) <> [] ->
  map snd
    (filter (fun '(i, line) => (0 <? i)%nat || truthy (strip line))
       (GoogleAdaptor.enumerate lines)) = lines.
Proof.
  unfold GoogleAdaptor.enumerate.
  destruct lines as [|line lines]; [reflexivity|].
  cbn [hd length seq combine filter]. intros Hline.
  destruct (strip line) as [|c r] eqn:E; [congruence|].
  cbn [Nat.ltb Nat.leb truthy orb map snd]. f_equal.
  apply later_lines_kept. lia.
Qed.

(** The greeting of the first line is never removed: a first line that
    starts with a greeting is not empty, so the filter of line 158 keeps
    it. *)
Lemma clean_translation_strips (raw_translation : str) :
  GoogleAdaptor.clean_translation raw_translation = strip raw_translation.
Proof.
  unfold GoogleAdaptor.clean_translation.
  destruct (truthy (split_on 10%N (strip raw_translation)) &&
            existsb _ GoogleAdaptor.common_greetings) eqn:E; [|reflexivity].
  apply andb_true_iff in E. destruct E as [_ E].
  apply existsb_exists in E. destruct E as (greeting & Hin & Hstarts).
  rewrite lines_kept.
  - rewrite join_split_on. apply strip_idempotent.
  - apply (startswith_nonempty _ _ Hstarts).
    unfold GoogleAdaptor.common_greetings in Hin. cbn [In] in Hin.
    destruct Hin as [<-|[<-|[<-|[<-|[]]]]]; discriminate.
Qed.

Section TranslateTextChunkProperties.

Import Utils.
Import GoogleAdaptor.

Variables (S model : Type).
Variable GenerativeModel : str -> model + exception.
Variable generate_content : model -> str -> S -> (response + exception) * S.
Variable random : nat -> Q.
Variables prompt_before prompt_after : str.

Local Abbreviation translate :=
  (translate_text_chunk S model GenerativeModel generate_content random
     prompt_before prompt_after).

Lemma translate_blank (text_chunk model_name : str) (max_retries : Z)
    (initial_delay : Q) (s : S) :
  strip text_chunk = [] ->
  translate text_chunk model_name max_retries initial_delay s =
  Done (inl [], {| state := s; calls := 0; sleeps := [] |}).
Proof.
  intros Hblank. unfold translate_text_chunk. rewrite Hblank.
  cbn [truthy negb]. rewrite orb_true_r. reflexivity.
Qed.

Lemma translate_not_blank (text_chunk : str) :
  strip text_chunk <> [] ->
  negb (truthy text_chunk) || negb (truthy (strip text_chunk)) = false.
Proof.
  intros H. destruct text_chunk as [|c r]; [exfalso; apply H; reflexivity|].
  destruct (strip (c :: r)); [congruence | reflexivity].
Qed.

(** X22: a chunk that is not blank, a model that is constructed and
    answers the first call with a text: [translate_text_chunk] returns the
    stripped text after this one call and no sleep.  The greeting at the
    start of the answer, if any, is still there. *)
Theorem translation_is_the_stripped_answer (text_chunk model_name text : str)
    (max_retries : Z) (initial_delay : Q) (s s' : S) (m : model) :
  strip text_chunk <> [] ->
  GenerativeModel model_name = inl m ->
  0 <= max_retries ->
  generate_content m (prompt prompt_before prompt_after text_chunk) s =
  (inl (WithText text), s') ->
  translate text_chunk model_name max_retries initial_delay s =
  Done (inl (strip text), {| state := s'; calls := 1; sleeps := [] |}).
Proof.
  intros Hchunk Hmodel Hretries Hanswer.
  unfold translate_text_chunk.
  rewrite (translate_not_blank _ Hchunk), Hmodel.
  unfold wrapper.
  destruct (Z.to_nat (max_retries + 1)) as [|fuel] eqn:Efuel; [lia|].
  cbn [wrapper_loop].
  replace (0 <=? max_retries) with true by (symmetry; apply Z.leb_le; lia).
  cbn [state calls sleeps]. rewrite Hanswer. cbn [run_bind].
  rewrite clean_translation_strips. reflexivity.
Qed.

(** X23: [translate_text_chunk] always comes to an end, after at most
    [max_retries + 1] calls of the model; a blank chunk gives the empty
    string and neither a call nor a sleep; a translation that is returned
    has no white space at either end. *)
Theorem translate_text_chunk_ends (text_chunk model_name : str)
    (max_retries : Z) (initial_delay : Q) (s : S) :
  exists r w,
    translate text_chunk model_name max_retries initial_delay s =
    Done (r, w) /\
    Z.of_nat (calls w) <= Z.max 0 (max_retries + 1) /\
    (strip text_chunk = [] ->
     r = inl [] /\ w = {| state := s; calls := 0; sleeps := [] |}) /\
    (forall translation, r = inl translation ->
       strip translation = translation).
Proof.
  destruct (str_eq_dec (strip text_chunk) []) as [Hblank|Hchunk].
  { exists (inl []), {| state := s; calls := 0; sleeps := [] |}.
    split; [apply translate_blank; exact Hblank|].
    split; [cbn [calls]; lia|].
    split; [intros _; split; reflexivity|].
    intros t Ht. injection Ht as <-. reflexivity. }
  unfold translate_text_chunk. rewrite (translate_not_blank _ Hchunk).
  destruct (GenerativeModel model_name) as [m|e].
  2:{ exists (inr e), {| state := s; calls := 0; sleeps := [] |}.
      split; [reflexivity|]. split; [cbn [calls]; lia|].
      split; [intros Hb; contradiction | intros t Ht; discriminate Ht]. }
  assert (Hrun : exists o w,
    wrapper response S
      (generate_content m (prompt prompt_before prompt_after text_chunk))
      random max_retries initial_delay 2 (1 # 10) [500; 502; 503; 504] s =
    Done (o, w) /\ Z.of_nat (calls w) <= Z.max 0 (max_retries + 1)).
  { unfold wrapper. destruct (Z_lt_ge_dec max_retries 0) as [Hneg|Hpos].
    - exists ReturnsNone, {| state := s; calls := 0; sleeps := [] |}.
      split; [|cbn [calls]; lia].
      destruct (Z.to_nat (max_retries + 1)); cbn [wrapper_loop];
        replace (0 <=? max_retries) with false
          by (symmetry; apply Z.leb_gt; lia); reflexivity.
    - destruct (wrapper_loop_counts response S
        (generate_content m (prompt prompt_before prompt_after text_chunk))
        random max_retries 2 (1 # 10) [500; 502; 503; 504]
        (Z.to_nat (max_retries + 1)) 0 initial_delay
        {| state := s; calls := 0; sleeps := [] |})
        as (o & w & Hloop & _ & _ & Hcalls & _); [lia | lia |].
      exists o, w. split; [exact Hloop|]. cbn [calls] in Hcalls. lia. }
  destruct Hrun as (o & w & -> & Hcalls). cbn [run_bind].
  destruct o as [[text|parts]|e|].
  - exists (inl (clean_translation text)), w.
    split; [reflexivity|]. split; [exact Hcalls|].
    split; [intros Hb; contradiction|].
    intros t Ht. injection Ht as <-.
    rewrite clean_translation_strips. apply strip_idempotent.
  - destruct (truthy parts).
    + exists (inl (clean_translation (join [] parts))), w.
      split; [reflexivity|]. split; [exact Hcalls|].
      split; [intros Hb; contradiction|].
      intros t Ht. injection Ht as <-.
      rewrite clean_translation_strips. apply strip_idempotent.
    + exists (inl []), w.
      split; [reflexivity|]. split; [exact Hcalls|].
      split; [intros Hb; contradiction|].
      intros t Ht. injection Ht as <-. reflexivity.
  - exists (inr e), w.
    split; [reflexivity|]. split; [exact Hcalls|].
    split; [intros Hb; contradiction | intros t Ht; discriminate Ht].
  - exists (inr AttributeError), w.
    split; [reflexivity|]. split; [exact Hcalls|].
    split; [intros Hb; contradiction | intros t Ht; discriminate Ht].
Qed.

End TranslateTextChunkProperties.

(** X22, at an answer that starts with a greeting. *)
Lemma translation_is_the_stripped_answer_witness :
  GoogleAdaptor.translate_text_chunk nat unit (fun _ => inl tt)
    greeting_model (fun _ => 0%Q) (lit "Translate: ") (lit " End")
    (lit "Hello") (lit "gemini") 2 5 0%nat =
  Done (inl (nth 1 GoogleAdaptor.common_greetings [] ++ [10%N] ++
             lit "Hello"),
        {| Utils.state := 1%nat; Utils.calls := 1; Utils.sleeps := [] |}).
Proof.
  apply (translation_is_the_stripped_answer nat unit (fun _ => inl tt)
           greeting_model (fun _ => 0%Q) (lit "Translate: ") (lit " End")
           (lit "Hello") (lit "gemini") greeting_answer 2 5 0%nat 1%nat tt).
  - vm_compute. discriminate.
  - reflexivity.
  - lia.
  - reflexivity.
Defined.

(** ** The translation of the chapters in [main] *)

Lemma split_text_total (s : str) (max_chunk_size : Z) :
  exists chunks, split_text s max_chunk_size = Done chunks.
Proof.
  destruct s as [|c r]; [exists []; reflexivity|].
  destruct (Z_le_gt_dec max_chunk_size 0) as [Hle|Hgt].
  - exists []. unfold split_text. cbn [truthy negb].
    replace (max_chunk_size <=? 0) with true
      by (symmetry; apply Z.leb_le; exact Hle).
    reflexivity.
  - destruct (split_text_chunks_bounded (c :: r) max_chunk_size)
      as (chunks & H & _); [discriminate | lia |].
    exists chunks. exact H.
Qed.

Lemma truthy_or_empty (s : str) : (if truthy s then s else []) = s.
Proof. destruct s; reflexivity. Qed.

Lemma max_chunk_size_of_positive (config_value : option Z) :
  0 < Main.max_chunk_size_of config_value.
Proof.
  unfold Main.max_chunk_size_of. destruct config_value as [n|]; [|lia].
  destruct (n <=? 0) eqn:E; [lia|]. apply Z.leb_gt in E. lia.
Qed.

Section TranslationProperties.

Import Main.

Variable W : Type.
Variable translate_text_chunk : str -> W -> (str + Utils.exception) * W.
Variable message : Utils.exception -> str.
Variable max_chunk_size : Z.
Variable sleep_time : Q.

Local Abbreviation sub_chunks_loop :=
  (translate_sub_chunks W translate_text_chunk sleep_time).
Local Abbreviation chapter_step :=
  (translate_chapter W translate_text_chunk message max_chunk_size
     sleep_time).
Local Abbreviation chapters_loop :=
  (translation_loop W translate_text_chunk message max_chunk_size
     sleep_time).

(** The sub-chunks are sent in order, up to the first failure. *)
Lemma translate_sub_chunks_sent (sub_chunks : list str) :
  forall translated w reqs,
  exists r w' sent unsent,
    sub_chunks_loop sub_chunks translated w reqs = (r, (w', reqs ++ sent)) /\
    sub_chunks = sent ++ unsent.
Proof.
  induction sub_chunks as [|c sub_chunks IH]; intros translated w reqs.
  - exists (inl translated), w, [], []. cbn. rewrite app_nil_r.
    split; reflexivity.
  - cbn [translate_sub_chunks].
    destruct (translate_text_chunk c w) as [[t|e] w'].
    + destruct (Qle_bool 0 sleep_time).
      * destruct (IH (translated ++ [if truthy t then t else []]) w'
                    (reqs ++ [c])) as (r & w'' & sent & unsent & H & Hs).
        exists r, w'', (c :: sent), unsent. rewrite H, <- app_assoc.
        split; [reflexivity | cbn; f_equal; exact Hs].
      * exists (inr Utils.ValueError), w', [c], sub_chunks.
        split; reflexivity.
    + exists (inr e), w', [c], sub_chunks. split; reflexivity.
Qed.

(** When the outcome of a call depends on the chunk only, and the sleeps
    are accepted: all sub-chunks are translated, or the loop ends at the
    first one that fails. *)
Lemma translate_sub_chunks_answers
    (answer : str -> str + Utils.exception) :
  Qle_bool 0 sleep_time = true ->
  (forall chunk w, fst (translate_text_chunk chunk w) = answer chunk) ->
  forall sub_chunks translated w reqs,
    (exists translations w',
       map answer sub_chunks = map inl translations /\
       sub_chunks_loop sub_chunks translated w reqs =
       (inl (translated ++ translations), (w', reqs ++ sub_chunks))) \/
    (exists before translations c after e w',
       sub_chunks = before ++ c :: after /\
       map answer before = map inl translations /\
       answer c = inr e /\
       sub_chunks_loop sub_chunks translated w reqs =
       (inr e, (w', reqs ++ before ++ [c]))).
Proof.
  intros Hsleep Hanswer.
  induction sub_chunks as [|c sub_chunks IH]; intros translated w reqs.
  - left. exists [], w. cbn. rewrite !app_nil_r. split; reflexivity.
  - cbn [translate_sub_chunks]. pose proof (Hanswer c w) as Hc.
    destruct (translate_text_chunk c w) as [r w']. cbn [fst] in Hc.
    subst r. destruct (answer c) as [t|e] eqn:Ec.
    + rewrite Hsleep, truthy_or_empty.
      destruct (IH (translated ++ [t]) w' (reqs ++ [c]))
        as [(ts & w'' & Hts & H)
           |(before & ts & c' & after & e & w'' & Hs & Hts & He & H)].
      * left. exists (t :: ts), w''. cbn [map]. rewrite Ec, Hts, H.
        rewrite <- !app_assoc. split; reflexivity.
      * right. exists (c :: before), (t :: ts), c', after, e, w''.
        cbn [map]. rewrite Ec, Hts, H, Hs, <- !app_assoc.
        split; [reflexivity|]. split; [reflexivity|].
        split; [exact He | reflexivity].
    + right. exists [], [], c, sub_chunks, e, w'.
      split; [reflexivity|]. split; [reflexivity|].
      split; [exact Ec | reflexivity].
Qed.

(** The loop over the chapters, from what holds for each chapter. *)
Lemma translation_loop_outcomes
    (holds : str * chapter -> str * list str -> Prop) :
  (forall title data w reqs,
     exists result w' sent,
       chapter_step title (text data) w reqs =
       Done (result, (w', reqs ++ sent)) /\
       holds (title, data) (result, sent)) ->
  forall chapters done,
  exists done' outcomes,
    chapters_loop chapters done = Done done' /\
    translated_chapters done' =
    translated_chapters done ++ map fst outcomes /\
    original_texts_for_output done' =
    original_texts_for_output done ++ map (fun ch => text (snd ch)) chapters /\
    requests done' = requests done ++ concat (map snd outcomes) /\
    Forall2 holds chapters outcomes.
Proof.
  intros Hstep. induction chapters as [|[title data] chapters IH];
    intros done.
  - exists done, []. cbn. rewrite !app_nil_r.
    split; [reflexivity|]. split; [reflexivity|]. split; [reflexivity|].
    split; [reflexivity | constructor].
  - cbn [translation_loop].
    destruct (Hstep title data (world done) (requests done))
      as (result & w' & sent & -> & Hholds).
    cbn [run_bind].
    destruct (IH {| world := w'; requests := requests done ++ sent;
                    translated_chapters :=
                      translated_chapters done ++ [result];
                    original_texts_for_output :=
                      original_texts_for_output done ++ [text data] |})
      as (done' & outcomes & -> & Ht & Ho & Hr & Hall).
    cbn [world requests translated_chapters original_texts_for_output]
      in Ht, Ho, Hr.
    exists done', ((result, sent) :: outcomes).
    split; [reflexivity|].
    split; [rewrite Ht, <- app_assoc; reflexivity|].
    split; [rewrite Ho, <- app_assoc; reflexivity|].
    split; [rewrite Hr, <- app_assoc; reflexivity|].
    constructor; assumption.
Qed.

(** What is sent for a chapter, whatever the translation does. *)
Lemma translate_chapter_sent (title chapter_text : str) (w : W)
    (reqs : list str) :
  exists result w' sent,
    chapter_step title chapter_text w reqs =
    Done (result, (w', reqs ++ sent)) /\
    (0 < max_chunk_size ->
     Forall (fun chunk => len chunk <= max_chunk_size) sent).
Proof.
  unfold translate_chapter.
  destruct (max_chunk_size <? len chapter_text) eqn:E.
  - apply Z.ltb_lt in E.
    destruct (split_text_total chapter_text max_chunk_size)
      as (chunks & Hchunks).
    rewrite Hchunks. cbn [run_bind].
    destruct (translate_sub_chunks_sent chunks [] w reqs)
      as (r & w' & sent & unsent & -> & Hsent).
    assert (Hbound : 0 < max_chunk_size ->
              Forall (fun chunk => len chunk <= max_chunk_size) sent).
    { intros Hmax.
      destruct (split_text_chunks_bounded chapter_text max_chunk_size)
        as (chunks' & Hchunks' & _ & Hall); [|exact Hmax|].
      - intros ->. cbn in E. lia.
      - rewrite Hchunks in Hchunks'. injection Hchunks' as <-.
        rewrite Hsent in Hall. apply Forall_app in Hall. apply Hall. }
    destruct r as [translated|e]; eexists _, w', sent;
      (split; [reflexivity | exact Hbound]).
  - apply Z.ltb_ge in E.
    destruct (translate_text_chunk chapter_text w) as [[t|e] w'].
    + destruct (Qle_bool 0 sleep_time); eexists _, w', [chapter_text];
        (split; [reflexivity|]); intros _; constructor;
        [exact E | constructor | exact E | constructor].
    + eexists _, w', [chapter_text]. split; [reflexivity|].
      intros _. constructor; [exact E | constructor].
Qed.

End TranslationProperties.

Section TranslationOutcomes.

Import Main.

Variable W : Type.
Variable translate_text_chunk : str -> W -> (str + Utils.exception) * W.
Variable message : Utils.exception -> str.
Variable max_chunk_size : Z.
Variable sleep_time : Q.
Variable answer : str -> str + Utils.exception.

Hypothesis max_chunk_size_positive : 0 < max_chunk_size.
Hypothesis sleep_accepted : Qle_bool 0 sleep_time = true.
Hypothesis answers :
  forall chunk w, fst (translate_text_chunk chunk w) = answer chunk.

Lemma translate_chapter_outcome (title chapter_text : str) (w : W)
    (reqs : list str) :
  exists result w' sent,
    translate_chapter W translate_text_chunk message max_chunk_size
      sleep_time title chapter_text w reqs =
    Done (result, (w', reqs ++ sent)) /\
    chapter_outcome answer (failure_placeholder message) max_chunk_size
      title chapter_text result sent.
Proof.
  unfold translate_chapter, chapter_outcome.
  destruct (max_chunk_size <? len chapter_text) eqn:E.
  - apply Z.ltb_lt in E.
    destruct (split_text_chunks_bounded chapter_text max_chunk_size)
      as (chunks & Hchunks & Hconcat & Hall);
      [intros ->; cbn in E; lia | exact max_chunk_size_positive |].
    assert (Hne : chunks <> []).
    { intros ->. cbn in Hconcat. subst chapter_text. cbn in E. lia. }
    rewrite Hchunks. cbn [run_bind].
    destruct (translate_sub_chunks_answers W translate_text_chunk
                sleep_time answer sleep_accepted answers chunks [] w reqs)
      as [(ts & w' & Hts & ->)
         |(before & ts & c & after & e & w' & Hs & Hts & He & ->)].
    + exists (join [10%N] ts), w', chunks. split; [reflexivity|].
      exists chunks. split; [reflexivity|]. split; [exact Hne|].
      split; [exact Hconcat|]. split; [exact Hall|].
      left. exists ts. split; [exact Hts|]. split; reflexivity.
    + exists (failure_placeholder message title e), w', (before ++ [c]).
      split; [reflexivity|].
      exists chunks. split; [reflexivity|]. split; [exact Hne|].
      split; [exact Hconcat|]. split; [exact Hall|].
      right. exists before, ts, c, after, e.
      split; [exact Hs|]. split; [exact Hts|]. split; [exact He|].
      split; reflexivity.
  - apply Z.ltb_ge in E. pose proof (answers chapter_text w) as Hc.
    destruct (translate_text_chunk chapter_text w) as [r w'].
    cbn [fst] in Hc. subst r.
    assert (Hfacts : [chapter_text] <> [] /\
                     concat [chapter_text] = chapter_text /\
                     Forall (fun chunk => len chunk <= max_chunk_size)
                       [chapter_text]).
    { split; [discriminate|]. split; [cbn; apply app_nil_r|].
      constructor; [exact E | constructor]. }
    destruct Hfacts as (Hne & Hconcat & Hall).
    destruct (answer chapter_text) as [t|e] eqn:Ea.
    + rewrite sleep_accepted. exists t, w', [chapter_text].
      split; [reflexivity|].
      exists [chapter_text]. split; [reflexivity|]. split; [exact Hne|].
      split; [exact Hconcat|]. split; [exact Hall|].
      left. exists [t]. cbn [map]. rewrite Ea.
      split; [reflexivity|]. split; reflexivity.
    + exists (failure_placeholder message title e), w', [chapter_text].
      split; [reflexivity|].
      exists [chapter_text]. split; [reflexivity|]. split; [exact Hne|].
      split; [exact Hconcat|]. split; [exact Hall|].
      right. exists [], [], chapter_text, [], e.
      split; [reflexivity|]. split; [reflexivity|]. split; [exact Ea|].
      split; reflexivity.
Qed.

End TranslationOutcomes.

(** X24: whatever [translate_text_chunk] does, whatever the chunk size and
    the sleep time are, the loop of [main] comes to an end with one entry
    of [translated_chapters] for every chapter, and
    [original_texts_for_output] holds the texts of the chapters, in
    order. *)
Theorem one_translation_per_chapter (W : Type)
    (translate_text_chunk : str -> W -> (str + Utils.exception) * W)
    (message : Utils.exception -> str) (max_chunk_size : Z) (sleep_time : Q)
    (chapters_dict : OrderedDict) (w : W) :
  exists done,
    Main.translate_chapters W translate_text_chunk message max_chunk_size
      sleep_time chapters_dict w = Done done /\
    length (Main.translated_chapters done) = length chapters_dict /\
    Main.original_texts_for_output done =
    map (fun ch => text (snd ch)) chapters_dict.
Proof.
  destruct (translation_loop_outcomes W translate_text_chunk message
              max_chunk_size sleep_time (fun _ _ => True)) with
    (chapters := chapters_dict)
    (done := {| Main.world := w; Main.requests := [];
                Main.translated_chapters := [];
                Main.original_texts_for_output := [] |})
    as (done & outcomes & Hrun & Ht & Ho & _ & Hall).
  { intros title data w0 reqs.
    destruct (translate_chapter_sent W translate_text_chunk message
                max_chunk_size sleep_time title (text data) w0 reqs)
      as (result & w' & sent & H & _).
    exists result, w', sent. split; [exact H | exact I]. }
  exists done. split; [exact Hrun|].
  split; [|exact Ho].
  rewrite Ht. cbn [Main.translated_chapters app]. rewrite length_map.
  symmetry. apply (Forall2_length Hall).
Qed.

(** X25: with the chunk size that [main] takes from the configuration
    (10000 for a value that is no positive integer), every text that is
    handed to [translate_text_chunk] has at most that many characters. *)
Theorem requests_within_max_chunk_size (W : Type)
    (translate_text_chunk : str -> W -> (str + Utils.exception) * W)
    (message : Utils.exception -> str) (config_value : option Z)
    (sleep_time : Q) (chapters_dict : OrderedDict) (w : W) :
  exists done,
    Main.translate_chapters W translate_text_chunk message
      (Main.max_chunk_size_of config_value) sleep_time chapters_dict w =
    Done done /\
    0 < Main.max_chunk_size_of config_value /\
    Forall (fun chunk => len chunk <= Main.max_chunk_size_of config_value)
      (Main.requests done).
Proof.
  pose proof (max_chunk_size_of_positive config_value) as Hmax.
  destruct (translation_loop_outcomes W translate_text_chunk message
              (Main.max_chunk_size_of config_value) sleep_time
              (fun _ outcome =>
                 Forall (fun chunk =>
                           len chunk <= Main.max_chunk_size_of config_value)
                   (snd outcome))) with
    (chapters := chapters_dict)
    (done := {| Main.world := w; Main.requests := [];
                Main.translated_chapters := [];
                Main.original_texts_for_output := [] |})
    as (done & outcomes & Hrun & _ & _ & Hr & Hall).
  { intros title data w0 reqs.
    destruct (translate_chapter_sent W translate_text_chunk message
                (Main.max_chunk_size_of config_value) sleep_time title
                (text data) w0 reqs)
      as (result & w' & sent & H & Hsent).
    exists result, w', sent. split; [exact H | exact (Hsent Hmax)]. }
  exists done. split; [exact Hrun|]. split; [exact Hmax|].
  rewrite Hr. cbn [Main.requests app].
  clear Hrun Hr. induction Hall as [|ch outcome chs outcomes H _ IH].
  - constructor.
  - cbn [map concat]. apply Forall_app. split; [exact H | exact IH].
Qed.

(** X26: when the chunk size is positive, the sleep time is not negative
    and the outcome of a translation depends on the chunk only, every
    chapter is either translated, chunk by chunk, or marked with the
    failure of its first chunk that fails, after which its other chunks
    are not sent; the chapters after it are handled all the same, and the
    requests are those of the chapters in order. *)
Theorem chapters_translated_or_marked (W : Type)
    (translate_text_chunk : str -> W -> (str + Utils.exception) * W)
    (message : Utils.exception -> str) (max_chunk_size : Z) (sleep_time : Q)
    (answer : str -> str + Utils.exception)
    (chapters_dict : OrderedDict) (w : W) :
  0 < max_chunk_size ->
  Qle_bool 0 sleep_time = true ->
  (forall chunk w', fst (translate_text_chunk chunk w') = answer chunk) ->
  exists done outcomes,
    Main.translate_chapters W translate_text_chunk message max_chunk_size
      sleep_time chapters_dict w = Done done /\
    Main.translated_chapters done = map fst outcomes /\
    Main.requests done = concat (map snd outcomes) /\
    Forall2
      (fun ch outcome =>
         chapter_outcome answer (Main.failure_placeholder message)
           max_chunk_size (fst ch) (text (snd ch))
           (fst outcome) (snd outcome))
      chapters_dict outcomes.
Proof.
  intros Hmax Hsleep Hanswer.
  destruct (translation_loop_outcomes W translate_text_chunk message
              max_chunk_size sleep_time
              (fun ch outcome =>
                 chapter_outcome answer (Main.failure_placeholder message)
                   max_chunk_size (fst ch) (text (snd ch))
                   (fst outcome) (snd outcome))) with
    (chapters := chapters_dict)
    (done := {| Main.world := w; Main.requests := [];
                Main.translated_chapters := [];
                Main.original_texts_for_output := [] |})
    as (done & outcomes & Hrun & Ht & _ & Hr & Hall).
  { intros title data w0 reqs.
    apply (translate_chapter_outcome W translate_text_chunk message
             max_chunk_size sleep_time answer Hmax Hsleep Hanswer). }
  exists done, outcomes. split; [exact Hrun|].
  split; [exact Ht|]. split; [exact Hr | exact Hall].
Qed.

(** X26, at a first chapter whose third chunk fails and a second chapter
    that fits. *)
Lemma chapters_translated_or_marked_witness :
  exists done outcomes,
    Main.translate_chapters nat translation_but_g (fun _ => lit "503") 3
      (1 # 2) two_chapter_dict 0%nat = Done done /\
    Main.translated_chapters done = map fst outcomes /\
    Main.requests done = concat (map snd outcomes) /\
    Forall2
      (fun ch outcome =>
         chapter_outcome answer_but_g
           (Main.failure_placeholder (fun _ => lit "503")) 3
           (fst ch) (text (snd ch)) (fst outcome) (snd outcome))
      two_chapter_dict outcomes.
Proof.
  apply (chapters_translated_or_marked nat translation_but_g
           (fun _ => lit "503") 3 (1 # 2) answer_but_g two_chapter_dict
           0%nat).
  - lia.
  - reflexivity.
  - intros chunk w'. reflexivity.
Defined.
